(** * Cross-frame API: the invocation protocol of ext/js/comm/cross-frame-api.js

    A shallow embedding of the two classes of the file, [CrossFrameAPIPort]
    (one channel to one remote frame) and [CrossFrameAPI] (the registry of
    channels and the table of message handlers), followed by the properties
    of the protocol.

    JavaScript objects become records, and a method becomes a function from
    the store it can touch to the new store.  Everything a method does to
    the outside (settling a promise, posting a message, arming or clearing
    a timer, logging, reading the table of handlers that belongs to the
    registry, calling a handler, notifying a subscriber) is appended to a
    trace, in the order in which the source performs it. *)

From stdpp Require Import base option list gmap strings pretty.
From Stdlib Require Import NArith Lia.

Open Scope string_scope.
Open Scope N_scope.
Open Scope list_scope.

(** ** JavaScript [Map] with numeric keys

    A [Map] iterates in insertion order, and [_onDisconnect] iterates over
    the invocation table, so the table is kept as an association list in
    insertion order.  [set] on a key that is present replaces the value
    where it stands; [delete] removes the entry. *)
Module JsMap.
Section Ops.
Context {V : Type}.

Definition t := list (N * V).

Definition empty : t := [].

Fixpoint get (k : N) (m : t) : option V :=
  match m with
  | [] => None
  | (k', v) :: m' => if N.eqb k' k then Some v else get k m'
  end.

Definition has (k : N) (m : t) : bool :=
  match get k m with Some _ => true | None => false end.

Fixpoint set (k : N) (v : V) (m : t) : t :=
  match m with
  | [] => [(k, v)]
  | (k', v') :: m' =>
      if N.eqb k' k then (k, v) :: m' else (k', v') :: set k v m'
  end.

Fixpoint delete (k : N) (m : t) : t :=
  match m with
  | [] => []
  | (k', v) :: m' =>
      if N.eqb k' k then delete k m' else (k', v) :: delete k m'
  end.

(** A write through a reference to a value held by the map: the entry
    changes where it stands. *)
Fixpoint alter (f : V -> V) (k : N) (m : t) : t :=
  match m with
  | [] => []
  | (k', v) :: m' =>
      if N.eqb k' k then (k', f v) :: m' else (k', v) :: alter f k m'
  end.

Definition keys (m : t) : list N := map fst m.

Definition values (m : t) : list V := map snd m.

Definition size (m : t) : nat := length m.

(** The keys of a [Map] are pairwise distinct. *)
Definition wf (m : t) : Prop := NoDup (keys m).
End Ops.
Arguments t : clear implicits.

(** The same keys in the same order, each value seen through [g]. *)
Definition fmap {A B : Type} (g : A -> B) (m : t A) : t B :=
  map (fun kv => (fst kv, g (snd kv))) m.
End JsMap.

(** ** Values on the wire *)

(** Parameters and results are JSON values; the protocol never looks
    inside them. *)
#[local] Unset Elimination Schemes.
Inductive Json :=
| JNull
| JBool (b : bool)
| JNum (n : Z)
| JStr (s : string)
| JArr (items : list Json)
| JObj (fields : list (string * Json)).
#[local] Set Elimination Schemes.

(** An instance of [Error]: one made by [new Error(message)], or one
    that comes from elsewhere, thrown by the host or made by the
    codec. *)
Inductive JsError :=
| NewError (message : string)
| ForeignError (name message : string).

(** A value of type [unknown] handed to [_onError]: either an instance of
    [Error], or some other value, of which only the string conversion
    [`${error}`] is ever used. *)
Inductive JsUnknown :=
| IsError (e : JsError)
| NotError (text : string).

(** [import('core').Response]: [{result?, error?}]; [None] is
    [undefined]. *)
Record Response := mkResponse {
  result : option Json;
  error : option Json
}.

(** [import('cross-frame-api').Message].  The ids that a channel gives
    out are non-negative integers, and [Map.get] finds an entry only for
    such an id, so the id of a message is one; a message of any other
    type is [OtherMessage].  The declared type gives every message of
    type ['invoke'] or ['result'] its [data]; what comes through the
    port is whatever the other end has posted, and a message of one of
    these two types that carries no [data] is [BareInvokeMessage] or
    [BareResultMessage]. *)
Inductive Message :=
| InvokeMessage (id : N) (action : string) (params : Json)
| AckMessage (id : N)
| ResultMessage (id : N) (data : Response)
| OtherMessage (type : string) (id : N)
| BareInvokeMessage (id : N)
| BareResultMessage (id : N).

(** What a message handler does when called with the parameters: it
    completes at once with a response, or it completes later. *)
Inductive HandlerOutcome :=
| Completed (data : Response)
| Pending.

Definition MessageHandler := Json -> HandlerOutcome.

(** [ExtensionError.serialize] and [ExtensionError.deserialize], of
    core/extension-error.js, are not part of the file and are taken as
    parameters: the protocol treats the descriptor as opaque. *)
Class ErrorCodec := {
  serialize : JsError -> Json;
  deserialize : Json -> JsError
}.

(** A [chrome.runtime.Port], as far as the protocol meets it:
    [postMessage] succeeds or throws. *)
Record ChromePort := mkChromePort {
  postMessage_throws : Message -> option JsUnknown
}.

(** [import('cross-frame-api').Invocation].  [promise] stands for the pair
    [resolve], [reject] of the promise that [invoke] returned. *)
Module Invocation.
Record t := mk {
  id : N;
  promise : N;
  responseTimeout : option N;
  action : string;
  ack : bool;
  timer : option N
}.

Definition with_ack (b : bool) (i : t) : t :=
  mk (id i) (promise i) (responseTimeout i) (action i) b (timer i).

Definition with_timer (h : option N) (i : t) : t :=
  mk (id i) (promise i) (responseTimeout i) (action i) (ack i) h.
End Invocation.

(** The closures given to [setTimeout]: [() => this._onError(id, text)]. *)
Inductive TimerCallback :=
| OnErrorCallback (id : N) (text : string).

(** The listeners that [prepare] attaches to the events of the port,
    through the [EventListenerCollection] of core.js: [addListener]
    attaches one, [removeAllEventListeners] detaches them all. *)
Inductive PortListener :=
| OnDisconnectListener
| OnMessageListener.

(** The subscribers of the ['disconnect'] event of a channel: the only
    callback that the file ever subscribes is [_onDisconnect] of the
    registry. *)
Inductive Subscriber :=
| RegistryOnDisconnect.

(** ** The trace

    [EvHandlerLookup] is the read of the table of handlers: the table
    belongs to the registry and the channel only holds a reference to
    it.  [EvPostMessage] is the call of [postMessage], with the value it
    threw, if any.  [EvUncaughtTypeError] is a [TypeError] that nothing
    in the file catches: it leaves the listener that was called. *)
Inductive Event :=
| EvResolve (promise : N) (value : option Json)
| EvReject (promise : N) (reason : JsError)
| EvPostMessage (m : Message) (thrown : option JsUnknown)
| EvSetTimeout (handle : N) (callback : TimerCallback) (delay : N)
| EvClearTimeout (handle : N)
| EvLogWarn (e : JsError)
| EvHandlerLookup (action : string)
| EvHandlerCall (params : Json) (outcome : HandlerOutcome)
| EvTrigger (subscribers : list Subscriber)
| EvUncaughtTypeError.

(** The value of [n++] stored back into a variable holding the
    non-negative integer [n]: numbers are doubles, and above 2^53 the
    successor is not representable and rounds back to [n]. *)
Definition js_incr (n : N) : N :=
  if n <? 2 ^ 53 then n + 1 else n.

(** The host: the timers that are armed, each with its callback, the
    next handle, whether [setTimeout] throws, the next promise, the
    subscribers that [trigger] has called and whose owner has yet to run
    them, and the trace. *)
Record Host := mkHost {
  timers : gmap N TimerCallback;
  nextTimer : N;
  setTimeout_throws : bool;
  nextPromise : N;
  notifications : list Subscriber;
  trace : list Event
}.

Definition fresh_host : Host := mkHost ∅ 1 false 0 [] [].

(** ** CrossFrameAPIPort *)
Module CrossFrameAPIPort.

Record t := mk {
  _otherTabId : N;
  _otherFrameId : N;
  _port : option ChromePort;
  _activeInvocations : JsMap.t Invocation.t;
  _invocationId : N;
  _eventListeners : list PortListener;
  _eventMap : list Subscriber
}.

(** The store a method of a channel can touch: the channel itself, the
    table of handlers it shares with its owner and with the other
    channels, and the host. *)
Record World := mkWorld {
  this : t;
  _messageHandlers : gmap string MessageHandler;
  host : Host
}.

Definition constructor (otherTabId otherFrameId : N) (port : ChromePort) : t :=
  mk otherTabId otherFrameId (Some port) JsMap.empty 0 [] [].

Definition otherTabId (c : t) : N := _otherTabId c.
Definition otherFrameId (c : t) : N := _otherFrameId c.

(** *** Field updates *)
Definition upd_this (f : t -> t) (w : World) : World :=
  mkWorld (f (this w)) (_messageHandlers w) (host w).

Definition upd_host (f : Host -> Host) (w : World) : World :=
  mkWorld (this w) (_messageHandlers w) (f (host w)).

Definition set_port (p : option ChromePort) : World -> World :=
  upd_this (fun c => mk (_otherTabId c) (_otherFrameId c) p
    (_activeInvocations c) (_invocationId c) (_eventListeners c) (_eventMap c)).

Definition upd_activeInvocations
    (f : JsMap.t Invocation.t -> JsMap.t Invocation.t) : World -> World :=
  upd_this (fun c => mk (_otherTabId c) (_otherFrameId c) (_port c)
    (f (_activeInvocations c)) (_invocationId c) (_eventListeners c) (_eventMap c)).

Definition set_invocationId (n : N) : World -> World :=
  upd_this (fun c => mk (_otherTabId c) (_otherFrameId c) (_port c)
    (_activeInvocations c) n (_eventListeners c) (_eventMap c)).

Definition set_eventListeners (l : list PortListener) : World -> World :=
  upd_this (fun c => mk (_otherTabId c) (_otherFrameId c) (_port c)
    (_activeInvocations c) (_invocationId c) l (_eventMap c)).

Definition set_eventMap (l : list Subscriber) (c : t) : t :=
  mk (_otherTabId c) (_otherFrameId c) (_port c)
    (_activeInvocations c) (_invocationId c) (_eventListeners c) l.

(** *** The host's services *)
Definition emit (e : Event) : World -> World :=
  upd_host (fun h => mkHost (timers h) (nextTimer h) (setTimeout_throws h)
    (nextPromise h) (notifications h) (trace h ++ [e])).

(** [new Promise(...)]: a fresh pair [resolve], [reject]. *)
Definition newPromise (w : World) : N * World :=
  (nextPromise (host w),
   upd_host (fun h => mkHost (timers h) (nextTimer h) (setTimeout_throws h)
     (nextPromise h + 1) (notifications h) (trace h)) w).

Definition resolve (p : N) (v : option Json) : World -> World :=
  emit (EvResolve p v).

Definition reject (p : N) (e : JsError) : World -> World :=
  emit (EvReject p e).

(** [setTimeout(callback, delay)]: the handle, or [None] when it throws. *)
Definition setTimeout (cb : TimerCallback) (delay : N) (w : World)
    : option N * World :=
  if setTimeout_throws (host w) then (None, w)
  else
    let h := nextTimer (host w) in
    (Some h,
     emit (EvSetTimeout h cb delay)
       (upd_host (fun s => mkHost (<[h := cb]> (timers s)) (h + 1)
          (setTimeout_throws s) (nextPromise s) (notifications s) (trace s)) w)).

Definition clearTimeout (h : N) (w : World) : World :=
  emit (EvClearTimeout h)
    (upd_host (fun s => mkHost (delete h (timers s)) (nextTimer s)
       (setTimeout_throws s) (nextPromise s) (notifications s) (trace s)) w).

(** [port.postMessage(m)]: the value thrown, if any. *)
Definition postMessage (port : ChromePort) (m : Message) (w : World)
    : option JsUnknown * World :=
  let thrown := postMessage_throws port m in
  (thrown, emit (EvPostMessage m thrown) w).

(** [log.warn] of core.js. *)
Definition log_warn (e : JsError) : World -> World :=
  emit (EvLogWarn e).

(** A [TypeError] is thrown where nothing catches it: what the method
    had still to do is not done. *)
Definition throw_TypeError : World -> World :=
  emit EvUncaughtTypeError.

(** Modelled from the spec: [EventDispatcher] of core.js, which the
    class extends, is not part of the file.
    [this.trigger('disconnect', this)] emits the disconnect notification:
    every subscriber is called, in the order of subscription. *)
Definition trigger (w : World) : World :=
  let subs := _eventMap (this w) in
  emit (EvTrigger subs)
    (upd_host (fun s => mkHost (timers s) (nextTimer s) (setTimeout_throws s)
       (nextPromise s) (notifications s ++ subs) (trace s)) w).

(** Modelled from the spec: [EventDispatcher.on] and
    [EventDispatcher.off] of core.js, for the event ['disconnect'], wire
    and unwire the disconnect notification: the callback is added after
    the others, and its first registration is removed. *)
Definition on (sub : Subscriber) (c : t) : t :=
  set_eventMap (_eventMap c ++ [sub]) c.

Definition off (sub : Subscriber) (c : t) : t :=
  set_eventMap
    (match sub, _eventMap c with
     | _, [] => []
     | RegistryOnDisconnect, RegistryOnDisconnect :: l => l
     end) c.

(** A write to a field of an invocation object that the table holds. *)
Definition mutate (id : N) (f : Invocation.t -> Invocation.t) : World -> World :=
  upd_activeInvocations (JsMap.alter f id).


Section Methods.
Context {EC : ErrorCodec}.

(** *** Response handlers *)

Definition _onError (id : N) (error : JsUnknown) (w : World) : World :=
  match JsMap.get id (_activeInvocations (this w)) with
  | None => w
  | Some invocation =>
      let error :=
        match error with
        | IsError e => e
        | NotError text =>
            NewError (text ++ " (" ++ Invocation.action invocation ++ ")")
        end in
      let w := upd_activeInvocations (JsMap.delete id) w in
      let w :=
        match Invocation.timer invocation with
        | Some h => clearTimeout h w
        | None => w
        end in
      reject (Invocation.promise invocation) error w
  end.

Definition _onAck (id : N) (w : World) : World :=
  match JsMap.get id (_activeInvocations (this w)) with
  | None =>
      log_warn
        (NewError ("Request " ++ pretty id ++ " not found for acknowledgement")) w
  | Some invocation =>
      if Invocation.ack invocation then
        _onError id (NotError ("Request " ++ pretty id ++ " already acknowledged")) w
      else
        let w := mutate id (Invocation.with_ack true) w in
        let w :=
          match Invocation.timer invocation with
          | Some h => mutate id (Invocation.with_timer None) (clearTimeout h w)
          | None => w
          end in
        match Invocation.responseTimeout invocation with
        | Some responseTimeout =>
            match setTimeout (OnErrorCallback id "Response timeout") responseTimeout w with
            | (Some h, w) => mutate id (Invocation.with_timer (Some h)) w
            | (None, w) => _onError id (NotError "Failed to set timeout") w
            end
        | None => w
        end
  end.

Definition _onResult (id : N) (data : Response) (w : World) : World :=
  match JsMap.get id (_activeInvocations (this w)) with
  | None => log_warn (NewError ("Request " ++ pretty id ++ " not found")) w
  | Some invocation =>
      if negb (Invocation.ack invocation) then
        _onError id (NotError ("Request " ++ pretty id ++ " not acknowledged")) w
      else
        let w := upd_activeInvocations (JsMap.delete id) w in
        let w :=
          match Invocation.timer invocation with
          | Some h => clearTimeout h w
          | None => w
          end in
        match error data with
        | Some error => reject (Invocation.promise invocation) (deserialize error) w
        | None => resolve (Invocation.promise invocation) (result data) w
        end
  end.

(** [_onResult(id, undefined)], for a message of type ['result'] without
    [data]: the same lines as [_onResult] down to the read of
    [data.error], which throws a [TypeError].  By then the entry has
    been deleted and the timer cleared; the promise is neither resolved
    nor rejected. *)
Definition _onResult_undefined (id : N) (w : World) : World :=
  match JsMap.get id (_activeInvocations (this w)) with
  | None => log_warn (NewError ("Request " ++ pretty id ++ " not found")) w
  | Some invocation =>
      if negb (Invocation.ack invocation) then
        _onError id (NotError ("Request " ++ pretty id ++ " not acknowledged")) w
      else
        let w := upd_activeInvocations (JsMap.delete id) w in
        let w :=
          match Invocation.timer invocation with
          | Some h => clearTimeout h w
          | None => w
          end in
        throw_TypeError w
  end.

(** *** Public methods *)

(** [prepare]: the error thrown, if any. *)
Definition prepare (w : World) : option JsError * World :=
  match _port (this w) with
  | None => (Some (NewError "Invalid state"), w)
  | Some _ =>
      (None,
       set_eventListeners
         (_eventListeners (this w) ++ [OnDisconnectListener; OnMessageListener]) w)
  end.

(** [invoke]: the promise returned, with the body of its executor run. *)
Definition invoke (action : string) (params : Json)
    (ackTimeout responseTimeout : option N) (w : World) : N * World :=
  let '(p, w) := newPromise w in
  match _port (this w) with
  | None => (p, reject p (NewError ("Port is disconnected (" ++ action ++ ")")) w)
  | Some port =>
      let id := _invocationId (this w) in
      let w := set_invocationId (js_incr id) w in
      let invocation := Invocation.mk id p responseTimeout action false None in
      let w := upd_activeInvocations (JsMap.set id invocation) w in
      let send (w : World) : World :=
        match postMessage port (InvokeMessage id action params) w with
        | (None, w) => w
        | (Some e, w) => _onError id e w
        end in
      match ackTimeout with
      | Some ackTimeout =>
          match setTimeout (OnErrorCallback id "Acknowledgement timeout") ackTimeout w with
          | (Some h, w) => (p, send (mutate id (Invocation.with_timer (Some h)) w))
          | (None, w) => (p, _onError id (NotError "Failed to set timeout") w)
          end
      | None => (p, send w)
      end
  end.

(** The loop of [_onDisconnect] runs over the live iterator of the keys.
    Each round deletes the key it is at and no other, so the rounds are
    those of the keys present when the loop starts, in their order. *)
Definition _onDisconnect (w : World) : World :=
  match _port (this w) with
  | None => w
  | Some _ =>
      let w := set_eventListeners [] w in
      let w := set_port None w in
      let w :=
        fold_left (fun w id => _onError id (NotError "Disconnected") w)
          (JsMap.keys (_activeInvocations (this w))) w in
      trigger w
  end.

Definition disconnect (w : World) : World := _onDisconnect w.

(** *** Invocation *)

Definition _sendResponse (data : Message) (w : World) : World :=
  match _port (this w) with
  | None => w
  | Some port => snd (postMessage port data w)
  end.

Definition _sendAck (id : N) : World -> World :=
  _sendResponse (AckMessage id).

Definition _sendResult (id : N) (data : Response) : World -> World :=
  _sendResponse (ResultMessage id data).

Definition _sendError (id : N) (error : JsError) : World -> World :=
  _sendResponse (ResultMessage id (mkResponse None (Some (serialize error)))).

(** Modelled from the spec: [invokeMessageHandler] of core.js is not part
    of the file.  The handler is called with the parameters and the
    completion callback; it completes at once, and the callback is called
    with its response, or it signals that it completes later, and the
    callback is called when it does (the input [HandlerCompleted] below).
    The result tells whether the handler completes later. *)
Definition invokeMessageHandler (messageHandler : MessageHandler) (params : Json)
    (callback : Response -> World -> World) (w : World) : bool * World :=
  let outcome := messageHandler params in
  let w := emit (EvHandlerCall params outcome) w in
  match outcome with
  | Completed data => (false, callback data w)
  | Pending => (true, w)
  end.

Definition _onInvoke (id : N) (action : string) (params : Json) (w : World)
    : bool * World :=
  let messageHandler := _messageHandlers w !! action in
  let w := emit (EvHandlerLookup action) w in
  let w := _sendAck id w in
  match messageHandler with
  | None => (false, _sendError id (NewError ("Unknown action: " ++ action)) w)
  | Some messageHandler =>
      let callback := fun data => _sendResult id data in
      invokeMessageHandler messageHandler params callback w
  end.

(** [_onMessage].  For a message of type ['invoke'] without [data],
    [_onInvoke(id, undefined)] throws a [TypeError] where it takes
    [action] and [params] out of its second argument, before it does
    anything. *)
Definition _onMessage (details : Message) (w : World) : World :=
  match details with
  | InvokeMessage id action params => snd (_onInvoke id action params w)
  | AckMessage id => _onAck id w
  | ResultMessage id data => _onResult id data w
  | OtherMessage _ _ => w
  | BareInvokeMessage _ => throw_TypeError w
  | BareResultMessage id => _onResult_undefined id w
  end.

(** *** What happens to a channel

    The calls of its public methods, the events of its port (delivered to
    the listeners that are attached when the event fires), the expiry of
    a timer that is armed, the completion of a handler that completes
    later, and what the surroundings may change in between. *)
Inductive Input :=
| CallPrepare
| CallInvoke (action : string) (params : Json) (ackTimeout responseTimeout : option N)
| CallDisconnect
| PortMessage (details : Message)
| PortDisconnected
| TimerFired (handle : N)
| HandlerCompleted (id : N) (data : Response)
| SetTimeoutThrows (b : bool)
| PortBehaves (port : ChromePort)
| HandlersAre (table : gmap string MessageHandler).

(** The inputs that the declared types allow: a message of type
    ['invoke'] or ['result'] carries its [data]. *)
Definition well_typed (i : Input) : bool :=
  match i with
  | PortMessage (BareInvokeMessage _) | PortMessage (BareResultMessage _) => false
  | _ => true
  end.

Definition deliver (l : PortListener) (f : World -> World) (w : World) : World :=
  fold_left
    (fun w l' =>
       match l, l' with
       | OnMessageListener, OnMessageListener => f w
       | OnDisconnectListener, OnDisconnectListener => f w
       | _, _ => w
       end)
    (_eventListeners (this w)) w.

Definition fire (h : N) (w : World) : World :=
  match timers (host w) !! h with
  | None => w
  | Some (OnErrorCallback id text) =>
      let w :=
        upd_host (fun s => mkHost (delete h (timers s)) (nextTimer s)
          (setTimeout_throws s) (nextPromise s) (notifications s) (trace s)) w in
      _onError id (NotError text) w
  end.

Definition step (w : World) (i : Input) : World :=
  match i with
  | CallPrepare => snd (prepare w)
  | CallInvoke action params ackTimeout responseTimeout =>
      snd (invoke action params ackTimeout responseTimeout w)
  | CallDisconnect => disconnect w
  | PortMessage details => deliver OnMessageListener (_onMessage details) w
  | PortDisconnected => deliver OnDisconnectListener _onDisconnect w
  | TimerFired h => fire h w
  | HandlerCompleted id data => _sendResult id data w
  | SetTimeoutThrows b =>
      upd_host (fun s => mkHost (timers s) (nextTimer s) b
        (nextPromise s) (notifications s) (trace s)) w
  | PortBehaves port =>
      match _port (this w) with
      | Some _ => set_port (Some port) w
      | None => w
      end
  | HandlersAre table => mkWorld (this w) table (host w)
  end.

Definition run (inputs : list Input) (w : World) : World :=
  fold_left step inputs w.

(** A channel as [_setupCommPort] leaves it, constructed, prepared and
    with the registry subscribed to its disconnect, in a host that has
    done nothing yet. *)
Definition boot (otherTabId otherFrameId : N) (port : ChromePort)
    (messageHandlers : gmap string MessageHandler) : World :=
  upd_this (on RegistryOnDisconnect)
    (snd (prepare (mkWorld (constructor otherTabId otherFrameId port)
                     messageHandlers fresh_host))).

End Methods.

(** *** Observations *)
Definition table (w : World) : JsMap.t Invocation.t :=
  _activeInvocations (this w).

(** The promises of the invocations in the table. *)
Definition tracked (w : World) : list N :=
  map Invocation.promise (JsMap.values (table w)).

(** The promises settled in a trace, one entry for each call of a
    [resolve] or of a [reject]. *)
Definition settled_in (tr : list Event) : list N :=
  flat_map
    (fun e =>
       match e with
       | EvResolve p _ | EvReject p _ => [p]
       | _ => []
       end) tr.

Definition settled (w : World) : list N := settled_in (trace (host w)).

Definition is_trigger (e : Event) : bool :=
  match e with EvTrigger _ => true | _ => false end.

(** How many times the trace notifies the subscribers of a disconnect. *)
Definition triggers_in (tr : list Event) : nat :=
  length (List.filter is_trigger tr).

Definition triggers (w : World) : nat := triggers_in (trace (host w)).

(** The first thing that [_onInvoke] does is to post the
    acknowledgement. *)
Definition ack_first {EC : ErrorCodec} (id : N) (action : string) (params : Json)
    (w : World) : Prop :=
  exists thrown rest,
    trace (host (snd (_onInvoke id action params w)))
    = trace (host w) ++ EvPostMessage (AckMessage id) thrown :: rest.

(** An event that settles no promise and notifies nobody. *)
Definition silent (e : Event) : Prop :=
  settled_in [e] = [] /\ is_trigger e = false.

End CrossFrameAPIPort.

(** ** CrossFrameAPI *)
Module CrossFrameAPI.

(** [this] of the class.  [_commPorts] holds references to channels. *)
Record t := mk {
  _ackTimeout : N;
  _responseTimeout : N;
  _commPorts : gmap N (gmap N N);
  _messageHandlers : gmap string MessageHandler;
  _tabId : option N;
  _frameId : option N
}.

Definition constructor : t := mk 3000 10000 ∅ ∅ None None.

(** [parseJson(port.name)]: it throws, or it gives the details. *)
Record PortDetails := mkDetails {
  name : string;
  otherTabId : N;
  otherFrameId : N
}.

Inductive PortName :=
| NotJson
| Parsed (details : PortDetails).

(** An asynchronous call parked at its [await]: [_createCommPort] waits
    for [yomitan.api.openCrossFramePort]. *)
Inductive Suspended :=
| AwaitOpenCrossFramePort (otherTabId otherFrameId : N).

(** What the registry does to the outside: the requests to the
    connection broker, how the promise of each call of
    [_getOrCreateCommPort] settles, and what [_onConnect] does when
    setting a channel up fails. *)
Inductive Event :=
| EvOpenCrossFramePort (call otherTabId otherFrameId : N)
| EvReturned (call commPort : N)
| EvThrew (call : N) (e : JsError)
| EvPortDisconnect
| EvLogError (e : JsError).

(** A channel in the store: the object, and the part of the host that
    is the channel's own, the timers it has armed, the promises it has
    made and the trace of what it has done. *)
Record Channel := mkChannel {
  object : CrossFrameAPIPort.t;
  its : Host
}.

(** The store: the registry, the channels that [new CrossFrameAPIPort]
    has allocated, each under its reference, the listeners of
    [chrome.runtime.onConnect], the calls that are suspended, and the
    trace of the registry. *)
Record Store := mkStore {
  self : t;
  channels : gmap N Channel;
  nextChannel : N;
  onConnectListeners : nat;
  suspended : gmap N Suspended;
  nextCall : N;
  events : list Event
}.

Definition fresh : Store := mkStore constructor ∅ 0 0 ∅ 0 [].

Definition upd_self (f : t -> t) (s : Store) : Store :=
  mkStore (f (self s)) (channels s) (nextChannel s) (onConnectListeners s)
    (suspended s) (nextCall s) (events s).

Definition set_commPorts (m : gmap N (gmap N N)) : Store -> Store :=
  upd_self (fun a => mk (_ackTimeout a) (_responseTimeout a) m
    (_messageHandlers a) (_tabId a) (_frameId a)).

Definition set_messageHandlers (m : gmap string MessageHandler) : Store -> Store :=
  upd_self (fun a => mk (_ackTimeout a) (_responseTimeout a) (_commPorts a)
    m (_tabId a) (_frameId a)).

Definition set_channels (m : gmap N Channel) (s : Store) : Store :=
  mkStore (self s) m (nextChannel s) (onConnectListeners s)
    (suspended s) (nextCall s) (events s).

Definition set_suspended (m : gmap N Suspended) (s : Store) : Store :=
  mkStore (self s) (channels s) (nextChannel s) (onConnectListeners s)
    m (nextCall s) (events s).

Definition emit (e : Event) (s : Store) : Store :=
  mkStore (self s) (channels s) (nextChannel s) (onConnectListeners s)
    (suspended s) (nextCall s) (events s ++ [e]).

(** The channel registered for a tab and a frame, if any: the two
    lookups of [_getOrCreateCommPort] and of [_createCommPort]. *)
Definition registered (otherTabId otherFrameId : N) (s : Store) : option N :=
  match _commPorts (self s) !! otherTabId with
  | None => None
  | Some tabPorts => tabPorts !! otherFrameId
  end.

Definition handlers (s : Store) : gmap string MessageHandler :=
  _messageHandlers (self s).

(** A channel is live while it holds its port. *)
Definition live (commPort : N) (s : Store) : bool :=
  match channels s !! commPort with
  | Some ch => bool_decide (is_Some (CrossFrameAPIPort._port (object ch)))
  | None => false
  end.


(** How a call parked in [_createCommPort] for a tab and a frame ends
    when the broker is done: with the channel registered at that moment,
    or with an error when there is none. *)
Definition outcome (call otherTabId otherFrameId : N) (s : Store) : Event :=
  match registered otherTabId otherFrameId s with
  | Some commPort => EvReturned call commPort
  | None => EvThrew call (NewError "Comm port didn't open")
  end.

Section Methods.
Context {EC : ErrorCodec}.

(** *** Handlers *)

(** [registerHandlers]: the error thrown, if any. *)
Fixpoint registerHandlers (messageHandlers : list (string * MessageHandler))
    (s : Store) : option JsError * Store :=
  match messageHandlers with
  | [] => (None, s)
  | (key, value) :: rest =>
      match _messageHandlers (self s) !! key with
      | Some _ => (Some (NewError ("Handler " ++ key ++ " is already registered")), s)
      | None =>
          registerHandlers rest
            (set_messageHandlers (<[key := value]> (_messageHandlers (self s))) s)
      end
  end.

(** [unregisterHandler]: what [Map.delete] returns, whether there was an
    entry to remove. *)
Definition unregisterHandler (key : string) (s : Store) : bool * Store :=
  (bool_decide (is_Some (_messageHandlers (self s) !! key)),
   set_messageHandlers (delete key (_messageHandlers (self s))) s).

(** *** Channels *)

(** Runs a method of the channel [commPort] on the part of the store it
    can touch: the channel, the table of handlers of the registry, which
    every channel shares, and the channel's part of the host. *)
Definition on_channel (commPort : N)
    (f : CrossFrameAPIPort.World -> CrossFrameAPIPort.World) (s : Store) : Store :=
  match channels s !! commPort with
  | None => s
  | Some ch =>
      let w := f (CrossFrameAPIPort.mkWorld (object ch) (_messageHandlers (self s))
                    (its ch)) in
      set_channels
        (<[commPort := mkChannel (CrossFrameAPIPort.this w) (CrossFrameAPIPort.host w)]>
           (channels s)) s
  end.

Definition _onDisconnect (commPort : N) (s : Store) : Store :=
  match channels s !! commPort with
  | None => s
  | Some ch =>
      let c := CrossFrameAPIPort.off RegistryOnDisconnect (object ch) in
      let s := set_channels (<[commPort := mkChannel c (its ch)]> (channels s)) s in
      let otherTabId := CrossFrameAPIPort.otherTabId c in
      let otherFrameId := CrossFrameAPIPort.otherFrameId c in
      match _commPorts (self s) !! otherTabId with
      | None => s
      | Some tabPorts =>
          let tabPorts := delete otherFrameId tabPorts in
          if bool_decide (size tabPorts = 0%nat) then
            set_commPorts (delete otherTabId (_commPorts (self s))) s
          else
            set_commPorts (<[otherTabId := tabPorts]> (_commPorts (self s))) s
      end
  end.

(** The subscribers that the channel [commPort] has notified are called:
    the only subscriber is [_onDisconnect], bound to the registry. *)
Definition notify (commPort : N) (s : Store) : Store :=
  match channels s !! commPort with
  | None => s
  | Some ch =>
      let h := its ch in
      let quiet :=
        mkHost (timers h) (nextTimer h) (setTimeout_throws h) (nextPromise h)
          [] (trace h) in
      let s := set_channels (<[commPort := mkChannel (object ch) quiet]> (channels s)) s in
      fold_left
        (fun s sub => match sub with RegistryOnDisconnect => _onDisconnect commPort s end)
        (notifications h) s
  end.

(** [_setupCommPort]: the new channel, or the error thrown. *)
Definition _setupCommPort (otherTabId otherFrameId : N) (port : ChromePort)
    (s : Store) : (JsError + N) * Store :=
  let commPort := nextChannel s in
  let c := CrossFrameAPIPort.constructor otherTabId otherFrameId port in
  let tabPorts :=
    match _commPorts (self s) !! otherTabId with
    | None => ∅
    | Some tabPorts => tabPorts
    end in
  let s :=
    set_commPorts
      (<[otherTabId := <[otherFrameId := commPort]> tabPorts]> (_commPorts (self s))) s in
  let '(thrown, w) :=
    CrossFrameAPIPort.prepare
      (CrossFrameAPIPort.mkWorld c (_messageHandlers (self s)) fresh_host) in
  let allocated (c : CrossFrameAPIPort.t) : Store :=
    mkStore (self s)
      (<[commPort := mkChannel c (CrossFrameAPIPort.host w)]> (channels s))
      (commPort + 1) (onConnectListeners s) (suspended s) (nextCall s) (events s) in
  match thrown with
  | Some e => (inl e, allocated (CrossFrameAPIPort.this w))
  | None =>
      (inr commPort,
       allocated (CrossFrameAPIPort.on RegistryOnDisconnect (CrossFrameAPIPort.this w)))
  end.

Definition _onConnect (portName : PortName) (port : ChromePort) (s : Store) : Store :=
  match portName with
  | NotJson => s
  | Parsed details =>
      if bool_decide (name details = "cross-frame-communication-port") then
        match _setupCommPort (otherTabId details) (otherFrameId details) port s with
        | (inr _, s) => s
        | (inl e, s) => emit (EvLogError e) (emit EvPortDisconnect s)
        end
      else s
  end.

(** *** Asynchronous calls

    An [async] method runs up to its first [await] when it is called; the
    rest runs when what it waits for has settled.  [_getOrCreateCommPort]
    and the first half of [_createCommPort] run at the call,
    [_createCommPort_resume] is the second half. *)
Definition _createCommPort (call otherTabId otherFrameId : N) (s : Store) : Store :=
  let s := emit (EvOpenCrossFramePort call otherTabId otherFrameId) s in
  set_suspended
    (<[call := AwaitOpenCrossFramePort otherTabId otherFrameId]> (suspended s)) s.

Definition _createCommPort_resume (call : N) (rejected : option JsError)
    (s : Store) : Store :=
  match suspended s !! call with
  | None => s
  | Some (AwaitOpenCrossFramePort otherTabId otherFrameId) =>
      let s := set_suspended (delete call (suspended s)) s in
      match rejected with
      | Some e => emit (EvThrew call e) s
      | None =>
          match registered otherTabId otherFrameId s with
          | Some commPort => emit (EvReturned call commPort) s
          | None => emit (EvThrew call (NewError "Comm port didn't open")) s
          end
      end
  end.

(** [_getOrCreateCommPort]: the call is given a number, under which the
    trace tells how its promise settles. *)
Definition _getOrCreateCommPort (otherTabId otherFrameId : N) (s : Store)
    : N * Store :=
  let call := nextCall s in
  let s :=
    mkStore (self s) (channels s) (nextChannel s) (onConnectListeners s)
      (suspended s) (call + 1) (events s) in
  match registered otherTabId otherFrameId s with
  | Some commPort => (call, emit (EvReturned call commPort) s)
  | None => (call, _createCommPort call otherTabId otherFrameId s)
  end.

(** [prepare], up to its [await]: the listener of
    [chrome.runtime.onConnect] is added. *)
Definition prepare (s : Store) : Store :=
  mkStore (self s) (channels s) (nextChannel s) (S (onConnectListeners s))
    (suspended s) (nextCall s) (events s).

(** *** What happens to the registry

    The calls of its methods, the completion of a request to the broker,
    a connection that arrives, delivered to every listener of
    [chrome.runtime.onConnect], and whatever happens to one of its
    channels; the table of handlers of a channel is the registry's, so
    nothing but the registry changes it. *)
Inductive Input :=
| CallPrepare
| CallRegisterHandlers (messageHandlers : list (string * MessageHandler))
| CallUnregisterHandler (key : string)
| CallGetOrCreateCommPort (otherTabId otherFrameId : N)
| OpenCrossFramePortSettled (call : N) (rejected : option JsError)
| RuntimeConnect (portName : PortName) (port : ChromePort)
| OnChannel (commPort : N) (i : CrossFrameAPIPort.Input).

Definition step (s : Store) (i : Input) : Store :=
  match i with
  | CallPrepare => prepare s
  | CallRegisterHandlers messageHandlers => snd (registerHandlers messageHandlers s)
  | CallUnregisterHandler key => snd (unregisterHandler key s)
  | CallGetOrCreateCommPort otherTabId otherFrameId =>
      snd (_getOrCreateCommPort otherTabId otherFrameId s)
  | OpenCrossFramePortSettled call rejected => _createCommPort_resume call rejected s
  | RuntimeConnect portName port =>
      Nat.iter (onConnectListeners s) (_onConnect portName port) s
  | OnChannel commPort (CrossFrameAPIPort.HandlersAre _) => s
  | OnChannel commPort i =>
      notify commPort (on_channel commPort (fun w => CrossFrameAPIPort.step w i) s)
  end.

Definition run (inputs : list Input) (s : Store) : Store :=
  fold_left step inputs s.

End Methods.
End CrossFrameAPI.

(** ** The ledger of a channel

    What the properties of the protocol are about: which promise is
    tracked under which id, which promises have been settled and in which
    order, the next promise and the next id, whether the channel holds
    its port, how many times it has notified its subscribers, and who
    they are. *)
Module Ledger.

Record t := mk {
  entries : JsMap.t N;
  settled : list N;
  next : N;
  open : bool;
  counter : N;
  notified : nat;
  subscribers : list Subscriber
}.

Definition view (w : CrossFrameAPIPort.World) : t :=
  mk (JsMap.fmap Invocation.promise (CrossFrameAPIPort.table w))
     (CrossFrameAPIPort.settled w)
     (nextPromise (CrossFrameAPIPort.host w))
     (match CrossFrameAPIPort._port (CrossFrameAPIPort.this w) with
      | Some _ => true
      | None => false
      end)
     (CrossFrameAPIPort._invocationId (CrossFrameAPIPort.this w))
     (CrossFrameAPIPort.triggers w)
     (CrossFrameAPIPort._eventMap (CrossFrameAPIPort.this w)).

(** The invocation under [id], if there is one, leaves the table and its
    promise is settled. *)
Definition settle (id : N) (a : t) : t :=
  match JsMap.get id (entries a) with
  | None => a
  | Some p =>
      mk (JsMap.delete id (entries a)) (settled a ++ [p]) (next a) (open a)
        (counter a) (notified a) (subscribers a)
  end.

(** The invocation under [id], if there is one, leaves the table and its
    promise is not settled. *)
Definition drop (id : N) (a : t) : t :=
  mk (JsMap.delete id (entries a)) (settled a) (next a) (open a) (counter a)
    (notified a) (subscribers a).

(** A new promise is tracked under the next id. *)
Definition track (a : t) : t :=
  mk (JsMap.set (counter a) (next a) (entries a)) (settled a) (next a + 1)
    (open a) (js_incr (counter a)) (notified a) (subscribers a).

(** A new promise is settled at once. *)
Definition refuse (a : t) : t :=
  mk (entries a) (settled a ++ [next a]) (next a + 1) (open a) (counter a)
    (notified a) (subscribers a).

Definition with_open (b : bool) (a : t) : t :=
  mk (entries a) (settled a) (next a) b (counter a) (notified a) (subscribers a).

Definition notify (a : t) : t :=
  mk (entries a) (settled a) (next a) (open a) (counter a) (S (notified a))
    (subscribers a).

(** The channel lets go of its port, every invocation in the table is
    settled, in the order of the table, and the subscribers are
    notified; nothing happens when the port is gone already. *)
Definition close (a : t) : t :=
  if open a then
    notify
      (fold_left (fun a id => settle id a) (JsMap.keys (entries a))
         (with_open false a))
  else a.

(** What a response handler can do to the ledger: nothing, or settle the
    invocation of one id. *)
Definition moved (a a' : t) : Prop :=
  a' = a \/ exists id, a' = settle id a.

(** What a message can do to the ledger: what a response handler can,
    or, for a message without its [data], drop the invocation of one
    id. *)
Definition received (a a' : t) : Prop :=
  moved a a' \/ exists id, a' = drop id a.

(** The invariant of the ledger: the ids of the table are distinct; no
    promise is both tracked and settled, tracked twice or settled twice;
    every promise tracked or settled has been made; a channel without
    its port tracks nothing; the subscribers have been notified once if
    the port is gone and not at all if it is not; and, while the counter
    of ids is below 2^53, every id of the table is below it. *)
Record Inv (a : t) : Prop := {
  inv_wf : JsMap.wf (entries a);
  inv_nodup : NoDup (JsMap.values (entries a) ++ settled a);
  inv_fresh : forall p, p ∈ JsMap.values (entries a) ++ settled a -> p < next a;
  inv_closed : open a = false -> entries a = [];
  inv_notified : notified a = if open a then 0%nat else 1%nat;
  inv_below :
    counter a < 2 ^ 53 ->
    forall k, k ∈ JsMap.keys (entries a) -> k < counter a
}.

(** No promise has been lost: while the counter of ids is below 2^53,
    every promise made is tracked or settled. *)
Definition Complete (a : t) : Prop :=
  counter a < 2 ^ 53 ->
  forall p, p < next a -> p ∈ JsMap.values (entries a) ++ settled a.

(** The promise [p] has been lost: it has been made, and it is neither
    tracked nor settled. *)
Definition Lost (p : N) (a : t) : Prop :=
  p < next a /\ p ∉ JsMap.values (entries a) ++ settled a.

End Ledger.

(** ** What a settlement looks like in the trace *)
Module Outcome.

(** The timer of an invocation is cleared if it has one. *)
Definition cleared (invocation : Invocation.t) : list Event :=
  match Invocation.timer invocation with
  | Some h => [EvClearTimeout h]
  | None => []
  end.

(** The error that [_onError] rejects with: the value itself when it is
    an [Error], and otherwise a new [Error] whose message is the value
    followed by the action in parentheses. *)
Definition as_error (error : JsUnknown) (invocation : Invocation.t) : JsError :=
  match error with
  | IsError e => e
  | NotError text => NewError (text ++ " (" ++ Invocation.action invocation ++ ")")
  end.

Definition rejected (error : JsUnknown) (invocation : Invocation.t) : list Event :=
  cleared invocation
    ++ [EvReject (Invocation.promise invocation) (as_error error invocation)].

Definition is_resolve (e : Event) : bool :=
  match e with EvResolve _ _ => true | _ => false end.

(** What [_sendResponse] leaves in the trace: the call of [postMessage]
    when the channel holds its port, nothing when it does not. *)
Definition posted (port : option ChromePort) (m : Message) : list Event :=
  match port with
  | Some port => [EvPostMessage m (postMessage_throws port m)]
  | None => []
  end.

End Outcome.

(** ** Sample values, for the examples *)
Module Sample.

(** A codec that carries the message of the error as a JSON string. *)
Definition codec : ErrorCodec :=
  {| serialize e :=
       match e with
       | NewError message | ForeignError _ message => JStr message
       end;
     deserialize j :=
       match j with
       | JStr message => ForeignError "ExtensionError" message
       | _ => ForeignError "ExtensionError" "?"
       end |}.

(** A port whose [postMessage] never throws. *)
Definition port : ChromePort := mkChromePort (fun _ => None).

Definition pong : Response := mkResponse (Some (JStr "pong")) None.

(** A handler that answers at once. *)
Definition ping : MessageHandler := fun _ => Completed pong.

(** A channel to frame 2 of tab 1, set up, with a handler for "ping". *)
Definition channel : CrossFrameAPIPort.World :=
  CrossFrameAPIPort.boot 1 2 port (<["ping" := ping]> ∅).

(** The same channel with two invocations under way, the first of them
    acknowledged. *)
Definition busy : CrossFrameAPIPort.World :=
  CrossFrameAPIPort.run (EC := codec)
    [CrossFrameAPIPort.CallInvoke "a" JNull (Some 3000) (Some 10000);
     CrossFrameAPIPort.CallInvoke "b" JNull (Some 3000) (Some 10000);
     CrossFrameAPIPort.PortMessage (AckMessage 0)]
    channel.

(** The same channel after it has been disconnected. *)
Definition gone : CrossFrameAPIPort.World :=
  CrossFrameAPIPort.disconnect busy.

(** The name of a port opened for frame 2 of tab 1. *)
Definition name : CrossFrameAPI.PortName :=
  CrossFrameAPI.Parsed
    (CrossFrameAPI.mkDetails "cross-frame-communication-port" 1 2).

(** Two calls of [_getOrCreateCommPort] for the same frame, the second
    issued before the first has completed.  The broker opens a port for
    each request; each port is accepted before the request that asked
    for it completes. *)
Definition race : list CrossFrameAPI.Input :=
  [CrossFrameAPI.CallPrepare;
   CrossFrameAPI.CallGetOrCreateCommPort 1 2;
   CrossFrameAPI.CallGetOrCreateCommPort 1 2;
   CrossFrameAPI.RuntimeConnect name port;
   CrossFrameAPI.OpenCrossFramePortSettled 0 None;
   CrossFrameAPI.RuntimeConnect name port;
   CrossFrameAPI.OpenCrossFramePortSettled 1 None].

(** The same two calls, with both ports accepted before either request
    completes. *)
Definition waiting : CrossFrameAPI.Store :=
  CrossFrameAPI.run (EC := codec)
    [CrossFrameAPI.CallPrepare;
     CrossFrameAPI.CallGetOrCreateCommPort 1 2;
     CrossFrameAPI.CallGetOrCreateCommPort 1 2;
     CrossFrameAPI.RuntimeConnect name port;
     CrossFrameAPI.RuntimeConnect name port]
    CrossFrameAPI.fresh.

(** A registry with a handler for "a". *)
Definition registry : CrossFrameAPI.Store :=
  snd (CrossFrameAPI.registerHandlers [("a", ping)] CrossFrameAPI.fresh).

End Sample.

(** ** Tactics *)

(** Unfolds the services of the host and the field updates. *)
Ltac unfold_prims :=
  unfold CrossFrameAPIPort.log_warn, CrossFrameAPIPort.throw_TypeError,
    CrossFrameAPIPort.resolve,
    CrossFrameAPIPort.reject, CrossFrameAPIPort.clearTimeout,
    CrossFrameAPIPort.postMessage, CrossFrameAPIPort.mutate,
    CrossFrameAPIPort.trigger, CrossFrameAPIPort.emit,
    CrossFrameAPIPort.set_port, CrossFrameAPIPort.upd_activeInvocations,
    CrossFrameAPIPort.set_invocationId, CrossFrameAPIPort.set_eventListeners,
    CrossFrameAPIPort.on, CrossFrameAPIPort.set_eventMap,
    CrossFrameAPIPort.upd_host, CrossFrameAPIPort.upd_this in *.

(** Reduces the projections of the records, and nothing else. *)
Ltac proj :=
  cbn [CrossFrameAPIPort.this CrossFrameAPIPort.host
       CrossFrameAPIPort._messageHandlers CrossFrameAPIPort._port
       CrossFrameAPIPort._activeInvocations CrossFrameAPIPort._invocationId
       CrossFrameAPIPort._eventListeners CrossFrameAPIPort._eventMap
       CrossFrameAPIPort._otherTabId CrossFrameAPIPort._otherFrameId
       timers nextTimer setTimeout_throws nextPromise notifications trace
       fst snd
       Ledger.entries Ledger.settled Ledger.next Ledger.open Ledger.counter
       Ledger.notified Ledger.subscribers] in *.

(** ** The wiring of a channel

    What the response handlers and [invoke] never touch: the tab and the
    frame of the peer, the port, the listeners on the events of the
    port, and the subscribers of the disconnect. *)
Module Wiring.

Definition wiring (c : CrossFrameAPIPort.t)
    : N * N * option ChromePort * list PortListener * list Subscriber :=
  (CrossFrameAPIPort._otherTabId c, CrossFrameAPIPort._otherFrameId c,
   CrossFrameAPIPort._port c, CrossFrameAPIPort._eventListeners c,
   CrossFrameAPIPort._eventMap c).

(** Two worlds with the same wiring, the same table of handlers and the
    same subscribers waiting to be run. *)
Definition same (w w' : CrossFrameAPIPort.World) : Prop :=
  wiring (CrossFrameAPIPort.this w') = wiring (CrossFrameAPIPort.this w) /\
  CrossFrameAPIPort._messageHandlers w' = CrossFrameAPIPort._messageHandlers w /\
  notifications (CrossFrameAPIPort.host w') = notifications (CrossFrameAPIPort.host w) /\
  setTimeout_throws (CrossFrameAPIPort.host w')
  = setTimeout_throws (CrossFrameAPIPort.host w).

(** A step that leaves the channel wired as it was: it may add
    listeners or change how the port behaves, on a channel that holds
    its port. *)
Definition stays (w w' : CrossFrameAPIPort.World) : Prop :=
  CrossFrameAPIPort._otherTabId (CrossFrameAPIPort.this w')
  = CrossFrameAPIPort._otherTabId (CrossFrameAPIPort.this w) /\
  CrossFrameAPIPort._otherFrameId (CrossFrameAPIPort.this w')
  = CrossFrameAPIPort._otherFrameId (CrossFrameAPIPort.this w) /\
  CrossFrameAPIPort._eventMap (CrossFrameAPIPort.this w')
  = CrossFrameAPIPort._eventMap (CrossFrameAPIPort.this w) /\
  (is_Some (CrossFrameAPIPort._port (CrossFrameAPIPort.this w'))
   <-> is_Some (CrossFrameAPIPort._port (CrossFrameAPIPort.this w))) /\
  (CrossFrameAPIPort._port (CrossFrameAPIPort.this w) = None ->
   CrossFrameAPIPort._eventListeners (CrossFrameAPIPort.this w')
   = CrossFrameAPIPort._eventListeners (CrossFrameAPIPort.this w)) /\
  notifications (CrossFrameAPIPort.host w') = notifications (CrossFrameAPIPort.host w).

(** A step in which the channel lets go of its port. *)
Definition closes (w w' : CrossFrameAPIPort.World) : Prop :=
  is_Some (CrossFrameAPIPort._port (CrossFrameAPIPort.this w)) /\
  wiring (CrossFrameAPIPort.this w')
  = (CrossFrameAPIPort._otherTabId (CrossFrameAPIPort.this w),
     CrossFrameAPIPort._otherFrameId (CrossFrameAPIPort.this w),
     None, [],
     CrossFrameAPIPort._eventMap (CrossFrameAPIPort.this w)) /\
  notifications (CrossFrameAPIPort.host w')
  = notifications (CrossFrameAPIPort.host w)
      ++ CrossFrameAPIPort._eventMap (CrossFrameAPIPort.this w).

(** A channel without its port listens to nothing. *)
Definition deaf (w : CrossFrameAPIPort.World) : Prop :=
  CrossFrameAPIPort._port (CrossFrameAPIPort.this w) = None ->
  CrossFrameAPIPort._eventListeners (CrossFrameAPIPort.this w) = [].


(** A channel that holds its port listens to the disconnect of the
    port. *)
Definition listening (c : CrossFrameAPIPort.t) : Prop :=
  is_Some (CrossFrameAPIPort._port c) ->
  OnDisconnectListener ∈ CrossFrameAPIPort._eventListeners c.

End Wiring.

(** ** The timers of a channel *)
Module Timing.

(** The text of the timer that an invocation waits on: the timer of the
    acknowledgement until it is acknowledged, the timer of the response
    from then on. *)
Definition due (invocation : Invocation.t) : string :=
  if Invocation.ack invocation then "Response timeout" else "Acknowledgement timeout".

(** The timers that are armed are the timers of the invocations in the
    table: every armed timer is the timer of an invocation of the table,
    with the id of that invocation and the text that is due; the timer
    of every invocation of the table is armed; and every handle in use
    is below the next one. *)
Definition timed (m : JsMap.t Invocation.t) (ts : gmap N TimerCallback) (nt : N)
    : Prop :=
  (forall h cb,
     ts !! h = Some cb ->
     exists id invocation,
       cb = OnErrorCallback id (due invocation) /\
       JsMap.get id m = Some invocation /\
       Invocation.timer invocation = Some h) /\
  (forall id invocation h,
     JsMap.get id m = Some invocation ->
     Invocation.timer invocation = Some h ->
     ts !! h = Some (OnErrorCallback id (due invocation))) /\
  (forall h, is_Some (ts !! h) -> h < nt).

Definition Timed (w : CrossFrameAPIPort.World) : Prop :=
  timed (CrossFrameAPIPort.table w) (timers (CrossFrameAPIPort.host w))
    (nextTimer (CrossFrameAPIPort.host w)).

(** The timers without the one of the handle, if there is a handle. *)
Definition drop (h : option N) (ts : gmap N TimerCallback) : gmap N TimerCallback :=
  match h with
  | Some h => delete h ts
  | None => ts
  end.

End Timing.

(** ** Sample values with faults *)
Module Faulty.

(** A port that is disconnected on the other side: [postMessage]
    throws. *)
Definition broken : ChromePort :=
  mkChromePort
    (fun _ =>
       Some (IsError (ForeignError "Error" "Attempting to use a disconnected port object"))).

(** The sample channel, on the broken port. *)
Definition cut_off : CrossFrameAPIPort.World :=
  CrossFrameAPIPort.step (EC := Sample.codec) Sample.channel
    (CrossFrameAPIPort.PortBehaves broken).

(** The sample channel, in a host in which [setTimeout] throws. *)
Definition clockless : CrossFrameAPIPort.World :=
  CrossFrameAPIPort.step (EC := Sample.codec) Sample.channel
    (CrossFrameAPIPort.SetTimeoutThrows true).

(** An invocation under way, in a host in which [setTimeout] throws. *)
Definition stuck : CrossFrameAPIPort.World :=
  CrossFrameAPIPort.run (EC := Sample.codec)
    [CrossFrameAPIPort.CallInvoke "a" JNull (Some 3000) (Some 10000);
     CrossFrameAPIPort.SetTimeoutThrows true]
    Sample.channel.

End Faulty.

(** ** The registry is tidy *)
Module Registry.

(** The tab and the frame that a channel is for. *)
Definition key (ch : CrossFrameAPI.Channel) : N * N :=
  (CrossFrameAPIPort.otherTabId (CrossFrameAPI.object ch),
   CrossFrameAPIPort.otherFrameId (CrossFrameAPI.object ch)).


(** A host once the subscribers that were waiting have been run. *)
Definition quiet (h : Host) : Host :=
  mkHost (timers h) (nextTimer h) (setTimeout_throws h) (nextPromise h) [] (trace h).

(** The invariant of the registry: no tab is left with an empty map of
    frames; a channel that is registered exists, is registered under its
    own tab and frame, and holds its port; every channel has a reference
    that has been given out, has no subscriber waiting to be run, and,
    while it holds its port, has the registry as its one subscriber and
    listens to the disconnect of the port. *)
Record Tidy (s : CrossFrameAPI.Store) : Prop := {
  tidy_pruned :
    forall tab tabPorts,
      CrossFrameAPI._commPorts (CrossFrameAPI.self s) !! tab = Some tabPorts ->
      tabPorts <> ∅;
  tidy_registered :
    forall tab frame r,
      CrossFrameAPI.registered tab frame s = Some r ->
      exists ch,
        CrossFrameAPI.channels s !! r = Some ch /\
        key ch = (tab, frame) /\
        is_Some (CrossFrameAPIPort._port (CrossFrameAPI.object ch));
  tidy_channels :
    forall r ch,
      CrossFrameAPI.channels s !! r = Some ch ->
      r < CrossFrameAPI.nextChannel s /\
      notifications (CrossFrameAPI.its ch) = [] /\
      (is_Some (CrossFrameAPIPort._port (CrossFrameAPI.object ch)) ->
       CrossFrameAPIPort._eventMap (CrossFrameAPI.object ch) = [RegistryOnDisconnect]) /\
      Wiring.listening (CrossFrameAPI.object ch)
}.

End Registry.

(** ** The answer to a request *)
Module Reply.
Section Answer.
Context {EC : ErrorCodec}.

(** What a request brings about on a channel that holds its port, after
    the acknowledgement: the messages posted, and the call of the
    handler.  With a handler for the action, the handler is called and
    its response, if it completes at once, is posted; without one, the
    error of an unknown action is posted. *)
Definition answer (id : N) (action : string) (params : Json)
    (messageHandler : option MessageHandler) : list Message * list Event :=
  match messageHandler with
  | None =>
      ([ResultMessage id
          (mkResponse None (Some (serialize (NewError ("Unknown action: " ++ action)))))],
       [])
  | Some handler =>
      (match handler params with
       | Completed data => [ResultMessage id data]
       | Pending => []
       end,
       [EvHandlerCall params (handler params)])
  end.

End Answer.
End Reply.

(** ** Invocations through the registry

    [invoke], [invokeTab] and the second half of [prepare].  [invokeTab]
    is an [async] method: it runs up to its first [await], on the
    promise of [_getOrCreateCommPort], when it is called, and goes on
    when that promise has settled. *)
Module Calls.

(** An [invokeTab] parked at its first [await]: the call of
    [_getOrCreateCommPort] that it waits for, and what it will invoke. *)
Record Parked := mkParked {
  call : N;
  action : string;
  params : Json
}.

(** How the promise that [invokeTab] returns goes on: it is rejected
    with what was thrown, or it follows the promise that [invoke] of the
    channel has returned. *)
Inductive Outcome :=
| Threw (e : JsError)
| Follows (commPort promise : N).

(** The registry with its callers: the store, the calls of [prepare]
    that wait for [frameInformationGet], the calls of [invokeTab] that
    are parked, each under its number, and how the calls of [invokeTab]
    have gone on. *)
Record Session := mkSession {
  store : CrossFrameAPI.Store;
  preparing : nat;
  parked : gmap N Parked;
  nextInvoke : N;
  outcomes : list (N * Outcome)
}.

Definition fresh : Session := mkSession CrossFrameAPI.fresh 0 ∅ 0 [].

Definition set_store (s : CrossFrameAPI.Store) (x : Session) : Session :=
  mkSession s (preparing x) (parked x) (nextInvoke x) (outcomes x).

(** How the promise of a call of [_getOrCreateCommPort] has settled, as
    the trace of the registry tells. *)
Definition settlement (call : N) (e : CrossFrameAPI.Event) : option (JsError + N) :=
  match e with
  | CrossFrameAPI.EvReturned c commPort =>
      if decide (c = call) then Some (inr commPort) else None
  | CrossFrameAPI.EvThrew c e => if decide (c = call) then Some (inl e) else None
  | _ => None
  end.

Fixpoint settled_in (call : N) (events : list CrossFrameAPI.Event)
    : option (JsError + N) :=
  match events with
  | [] => None
  | e :: events =>
      match settlement call e with
      | Some o => Some o
      | None => settled_in call events
      end
  end.

Definition settled (call : N) (s : CrossFrameAPI.Store) : option (JsError + N) :=
  settled_in call (CrossFrameAPI.events s).

Section Methods.
Context {EC : ErrorCodec}.

(** [prepare]: the first half is the registry's; the call waits for
    [frameInformationGet]. *)
Definition prepare (x : Session) : Session :=
  mkSession (CrossFrameAPI.prepare (store x)) (S (preparing x)) (parked x)
    (nextInvoke x) (outcomes x).

(** The second half of [prepare]: the tab and the frame are taken from
    the frame information, [null] for what it does not give. *)
Definition prepare_resume (tabId frameId : option N) (x : Session) : Session :=
  match preparing x with
  | O => x
  | S waiting =>
      mkSession
        (CrossFrameAPI.upd_self
           (fun a =>
              CrossFrameAPI.mk (CrossFrameAPI._ackTimeout a)
                (CrossFrameAPI._responseTimeout a) (CrossFrameAPI._commPorts a)
                (CrossFrameAPI._messageHandlers a) tabId frameId)
           (store x))
        waiting (parked x) (nextInvoke x) (outcomes x)
  end.

(** [frameInformationGet] fails: [prepare] throws, and assigns nothing. *)
Definition prepare_fail (x : Session) : Session :=
  mkSession (store x) (pred (preparing x)) (parked x) (nextInvoke x) (outcomes x).

(** [invokeTab], up to its first [await]: the number of the call. *)
Definition invokeTab (targetTabId : option N) (targetFrameId : N) (action : string)
    (params : Json) (x : Session) : N * Session :=
  let n := nextInvoke x in
  let targetTabId :=
    match targetTabId with
    | Some targetTabId => Some targetTabId
    | None => CrossFrameAPI._tabId (CrossFrameAPI.self (store x))
    end in
  match targetTabId with
  | None =>
      (n,
       mkSession (store x) (preparing x) (parked x) (n + 1)
         (outcomes x ++ [(n, Threw (NewError "Unknown target tab id for invocation"))]))
  | Some targetTabId =>
      let '(call, s) :=
        CrossFrameAPI._getOrCreateCommPort targetTabId targetFrameId (store x) in
      (n,
       mkSession s (preparing x) (<[n := mkParked call action params]> (parked x))
         (n + 1) (outcomes x))
  end.

Definition invoke (targetFrameId : N) (action : string) (params : Json)
    : Session -> N * Session :=
  invokeTab None targetFrameId action params.

(** The rest of [invokeTab], once the promise of [_getOrCreateCommPort]
    has settled: what it threw is thrown, or [invoke] is called on the
    channel it gave, with the timeouts of the registry. *)
Definition invokeTab_resume (n : N) (x : Session) : Session :=
  match parked x !! n with
  | None => x
  | Some p =>
      match settled (call p) (store x) with
      | None => x
      | Some (inl e) =>
          mkSession (store x) (preparing x) (delete n (parked x)) (nextInvoke x)
            (outcomes x ++ [(n, Threw e)])
      | Some (inr commPort) =>
          match CrossFrameAPI.channels (store x) !! commPort with
          | None => x
          | Some ch =>
              let a := CrossFrameAPI.self (store x) in
              let ackTimeout := Some (CrossFrameAPI._ackTimeout a) in
              let responseTimeout := Some (CrossFrameAPI._responseTimeout a) in
              let w :=
                CrossFrameAPIPort.mkWorld (CrossFrameAPI.object ch)
                  (CrossFrameAPI._messageHandlers a) (CrossFrameAPI.its ch) in
              let promise :=
                fst (CrossFrameAPIPort.invoke (action p) (params p) ackTimeout
                       responseTimeout w) in
              mkSession
                (CrossFrameAPI.step (store x)
                   (CrossFrameAPI.OnChannel commPort
                      (CrossFrameAPIPort.CallInvoke (action p) (params p) ackTimeout
                         responseTimeout)))
                (preparing x) (delete n (parked x)) (nextInvoke x)
                (outcomes x ++ [(n, Follows commPort promise)])
          end
      end
  end.

(** What happens to the registry and its callers. *)
Inductive Input :=
| OnRegistry (i : CrossFrameAPI.Input)
| FrameInformationGot (tabId frameId : option N)
| FrameInformationFailed
| CallInvoke (targetFrameId : N) (action : string) (params : Json)
| CallInvokeTab (targetTabId : option N) (targetFrameId : N) (action : string)
    (params : Json)
| CommPortSettled (n : N).

Definition step (x : Session) (i : Input) : Session :=
  match i with
  | OnRegistry CrossFrameAPI.CallPrepare => prepare x
  | OnRegistry i => set_store (CrossFrameAPI.step (store x) i) x
  | FrameInformationGot tabId frameId => prepare_resume tabId frameId x
  | FrameInformationFailed => prepare_fail x
  | CallInvoke targetFrameId action params =>
      snd (invoke targetFrameId action params x)
  | CallInvokeTab targetTabId targetFrameId action params =>
      snd (invokeTab targetTabId targetFrameId action params x)
  | CommPortSettled n => invokeTab_resume n x
  end.

Definition run (inputs : list Input) (x : Session) : Session :=
  fold_left step inputs x.

End Methods.


(** What only the constructor and the second half of [prepare] set: the
    timeouts, the tab and the frame of the registry. *)
Definition same_self (s s' : CrossFrameAPI.Store) : Prop :=
  CrossFrameAPI._ackTimeout (CrossFrameAPI.self s')
  = CrossFrameAPI._ackTimeout (CrossFrameAPI.self s) /\
  CrossFrameAPI._responseTimeout (CrossFrameAPI.self s')
  = CrossFrameAPI._responseTimeout (CrossFrameAPI.self s) /\
  CrossFrameAPI._tabId (CrossFrameAPI.self s')
  = CrossFrameAPI._tabId (CrossFrameAPI.self s) /\
  CrossFrameAPI._frameId (CrossFrameAPI.self s')
  = CrossFrameAPI._frameId (CrossFrameAPI.self s).

(** What only [_getOrCreateCommPort] and [_createCommPort] change: the
    trace of the registry, the number of the next call and the calls
    that are suspended. *)
Definition kept (s s' : CrossFrameAPI.Store) : Prop :=
  CrossFrameAPI.events s' = CrossFrameAPI.events s /\
  CrossFrameAPI.nextCall s' = CrossFrameAPI.nextCall s /\
  CrossFrameAPI.suspended s' = CrossFrameAPI.suspended s.

(** The calls of [_getOrCreateCommPort] are numbered as they come: no
    call that has not been made has settled or is suspended; and the
    timeouts of the registry are those of the constructor. *)
Record Numbered (s : CrossFrameAPI.Store) : Prop := {
  numbered_settled :
    forall call, CrossFrameAPI.nextCall s <= call -> settled call s = None;
  numbered_suspended :
    forall call, CrossFrameAPI.nextCall s <= call -> CrossFrameAPI.suspended s !! call = None;
  numbered_ackTimeout : CrossFrameAPI._ackTimeout (CrossFrameAPI.self s) = 3000;
  numbered_responseTimeout :
    CrossFrameAPI._responseTimeout (CrossFrameAPI.self s) = 10000
}.

(** The invariant of a session: the registry is tidy and its calls are
    numbered, and no call of [invokeTab] that has not been made is
    parked. *)
Record Sound (x : Session) : Prop := {
  sound_tidy : Registry.Tidy (store x);
  sound_numbered : Numbered (store x);
  sound_parked : forall n, nextInvoke x <= n -> parked x !! n = None
}.

End Calls.

(** ** The two ends of a port *)
Module Link.

(** The messages that a channel has handed to its port and that
    [postMessage] has accepted, in their order: what the other end of
    the port receives. *)
Definition delivered (tr : list Event) : list Message :=
  flat_map
    (fun e => match e with EvPostMessage m None => [m] | _ => [] end) tr.

(** What a channel has said since its trace was [before]. *)
Definition since (before : CrossFrameAPIPort.World) (w : CrossFrameAPIPort.World)
    : list Message :=
  delivered
    (drop (length (trace (CrossFrameAPIPort.host before)))
       (trace (CrossFrameAPIPort.host w))).

(** The channel at the other end handles the messages one by one. *)
Definition receive {EC : ErrorCodec} (ms : list Message)
    (w : CrossFrameAPIPort.World) : CrossFrameAPIPort.World :=
  fold_left (fun w m => CrossFrameAPIPort._onMessage m w) ms w.

End Link.

(** * Properties *)

(** ** The insertion-ordered map *)
Module JsMapFacts.
Section Facts.
Context {V : Type}.
Implicit Types (m : JsMap.t V) (k : N) (v : V).

Lemma get_None k m : JsMap.get k m = None <-> k ∉ JsMap.keys m.
Proof.
  induction m as [|[k' v'] m IH]; simpl.
  - split; [intros _; apply not_elem_of_nil | done].
  - rewrite not_elem_of_cons. destruct (N.eqb_spec k' k) as [->|Hne].
    + split; [done | intros [? _]; done].
    + rewrite IH. split; [intros ?; split; [congruence | done] | intros [_ ?]; done].
Qed.

Lemma get_set_eq k v m : JsMap.get k (JsMap.set k v m) = Some v.
Proof.
  induction m as [|[k' v'] m IH]; simpl.
  - by rewrite N.eqb_refl.
  - destruct (N.eqb_spec k' k) as [->|Hne]; simpl.
    + by rewrite N.eqb_refl.
    + destruct (N.eqb_spec k' k); [done | apply IH].
Qed.

Lemma get_set_ne k k' v m :
  k <> k' -> JsMap.get k' (JsMap.set k v m) = JsMap.get k' m.
Proof.
  intros Hne. induction m as [|[k0 v0] m IH]; simpl.
  - destruct (N.eqb_spec k k'); [done | reflexivity].
  - destruct (N.eqb_spec k0 k) as [->|]; simpl.
    + destruct (N.eqb_spec k k'); [done | reflexivity].
    + destruct (N.eqb_spec k0 k'); [reflexivity | apply IH].
Qed.

Lemma get_delete_eq k m : JsMap.get k (JsMap.delete k m) = None.
Proof.
  induction m as [|[k' v'] m IH]; simpl; [done|].
  destruct (N.eqb_spec k' k) as [->|Hne]; simpl; [done|].
  destruct (N.eqb_spec k' k); [done | apply IH].
Qed.

Lemma get_delete_ne k k' m :
  k <> k' -> JsMap.get k' (JsMap.delete k m) = JsMap.get k' m.
Proof.
  intros Hne. induction m as [|[k0 v0] m IH]; simpl; [done|].
  destruct (N.eqb_spec k0 k) as [->|]; simpl.
  - destruct (N.eqb_spec k k'); [done | apply IH].
  - destruct (N.eqb_spec k0 k'); [reflexivity | apply IH].
Qed.

Lemma delete_absent k m : JsMap.get k m = None -> JsMap.delete k m = m.
Proof.
  induction m as [|[k' v'] m IH]; simpl; [done|].
  destruct (N.eqb_spec k' k); [done|]. intros Hget. by rewrite IH.
Qed.

Lemma set_absent k v m :
  JsMap.get k m = None -> JsMap.set k v m = m ++ [(k, v)].
Proof.
  induction m as [|[k' v'] m IH]; simpl; [done|].
  destruct (N.eqb_spec k' k); [done|]. intros Hget. by rewrite IH.
Qed.

Lemma keys_set_present k v m :
  is_Some (JsMap.get k m) -> JsMap.keys (JsMap.set k v m) = JsMap.keys m.
Proof.
  induction m as [|[k' v'] m IH]; simpl.
  - intros [? ?]; done.
  - destruct (N.eqb_spec k' k) as [->|]; simpl; [done|].
    intros Hs. by rewrite IH.
Qed.

Lemma keys_alter (f : V -> V) k m :
  JsMap.keys (JsMap.alter f k m) = JsMap.keys m.
Proof.
  induction m as [|[k' v'] m IH]; simpl; [done|].
  destruct (N.eqb_spec k' k); simpl; [done | by rewrite IH].
Qed.

Lemma get_alter_eq (f : V -> V) k m :
  JsMap.get k (JsMap.alter f k m) = f <$> JsMap.get k m.
Proof.
  induction m as [|[k' v'] m IH]; simpl; [done|].
  destruct (N.eqb_spec k' k) as [->|Hne]; simpl.
  - by rewrite N.eqb_refl.
  - destruct (N.eqb_spec k' k); [done | apply IH].
Qed.

Lemma get_alter_ne (f : V -> V) k k' m :
  k <> k' -> JsMap.get k' (JsMap.alter f k m) = JsMap.get k' m.
Proof.
  intros Hne. induction m as [|[k0 v0] m IH]; simpl; [done|].
  destruct (N.eqb_spec k0 k) as [->|]; simpl.
  - destruct (N.eqb_spec k k'); [done | reflexivity].
  - destruct (N.eqb_spec k0 k'); [reflexivity | apply IH].
Qed.

Lemma keys_delete_sublist k m :
  sublist (JsMap.keys (JsMap.delete k m)) (JsMap.keys m).
Proof.
  induction m as [|[k' v'] m IH]; simpl; [done|].
  destruct (N.eqb_spec k' k); simpl; [by apply sublist_cons | by apply sublist_skip].
Qed.

Lemma values_delete_sublist k m :
  sublist (JsMap.values (JsMap.delete k m)) (JsMap.values m).
Proof.
  induction m as [|[k' v'] m IH]; simpl; [done|].
  destruct (N.eqb_spec k' k); simpl; [by apply sublist_cons | by apply sublist_skip].
Qed.

Lemma wf_delete k m : JsMap.wf m -> JsMap.wf (JsMap.delete k m).
Proof. unfold JsMap.wf. intros Hwf. eapply sublist_NoDup; [done | apply keys_delete_sublist]. Qed.

Lemma wf_alter (f : V -> V) k m : JsMap.wf m -> JsMap.wf (JsMap.alter f k m).
Proof. unfold JsMap.wf. by rewrite keys_alter. Qed.

Lemma wf_set k v m : JsMap.wf m -> JsMap.wf (JsMap.set k v m).
Proof.
  unfold JsMap.wf. intros Hwf.
  destruct (JsMap.get k m) as [v0|] eqn:Hget.
  - by rewrite keys_set_present.
  - rewrite set_absent by done. unfold JsMap.keys. rewrite map_app. simpl.
    apply NoDup_app. split; [done|]. split; [|apply NoDup_singleton].
    intros x Hx ->%list_elem_of_singleton. by apply get_None in Hget.
Qed.

(** Deleting the entry of a key takes exactly its value away. *)
Lemma values_delete k v m :
  JsMap.wf m -> JsMap.get k m = Some v ->
  exists l1 l2,
    JsMap.values m = l1 ++ v :: l2 /\ JsMap.values (JsMap.delete k m) = l1 ++ l2.
Proof.
  unfold JsMap.wf. induction m as [|[k' v'] m IH]; simpl; [done|].
  intros [Hnin Hnd]%NoDup_cons. destruct (N.eqb_spec k' k) as [->|Hne].
  - intros [= ->]. exists [], (JsMap.values m). split; [done|].
    simpl. f_equal. apply delete_absent. by apply get_None.
  - intros Hget. destruct (IH Hnd Hget) as (l1 & l2 & E1 & E2).
    exists (v' :: l1), l2. simpl. by rewrite E1, E2.
Qed.

(** Setting a key puts its value in, in place of the one it had. *)
Lemma values_set k v m :
  JsMap.wf m ->
  exists l1 l2,
    JsMap.values (JsMap.set k v m) = l1 ++ v :: l2 /\
    JsMap.values (JsMap.delete k m) = l1 ++ l2.
Proof.
  unfold JsMap.wf. induction m as [|[k' v'] m IH]; simpl.
  - intros _. by exists [], [].
  - intros [Hnin Hnd]%NoDup_cons. destruct (N.eqb_spec k' k) as [->|Hne]; simpl.
    + exists [], (JsMap.values m). split; [done|].
      simpl. f_equal. apply delete_absent. by apply get_None.
    + destruct (IH Hnd) as (l1 & l2 & E1 & E2).
      exists (v' :: l1), l2. simpl. by rewrite E1, E2.
Qed.

Lemma get_fmap {B} (g : V -> B) k m :
  JsMap.get k (JsMap.fmap g m) = g <$> JsMap.get k m.
Proof.
  induction m as [|[k' v'] m IH]; simpl; [done|].
  destruct (N.eqb_spec k' k); [done | apply IH].
Qed.

Lemma fmap_set {B} (g : V -> B) k v m :
  JsMap.fmap g (JsMap.set k v m) = JsMap.set k (g v) (JsMap.fmap g m).
Proof.
  induction m as [|[k' v'] m IH]; simpl; [done|].
  destruct (N.eqb_spec k' k); simpl; [done | by rewrite <- IH].
Qed.

Lemma fmap_delete {B} (g : V -> B) k m :
  JsMap.fmap g (JsMap.delete k m) = JsMap.delete k (JsMap.fmap g m).
Proof.
  induction m as [|[k' v'] m IH]; simpl; [done|].
  destruct (N.eqb_spec k' k); simpl; [done | by rewrite <- IH].
Qed.

Lemma fmap_alter {B} (g : V -> B) (f : V -> V) k m :
  (forall v, g (f v) = g v) ->
  JsMap.fmap g (JsMap.alter f k m) = JsMap.fmap g m.
Proof.
  intros Hg. induction m as [|[k' v'] m IH]; simpl; [done|].
  destruct (N.eqb_spec k' k); simpl; [by rewrite Hg | by rewrite <- IH].
Qed.

Lemma keys_fmap {B} (g : V -> B) m :
  JsMap.keys (JsMap.fmap g m) = JsMap.keys m.
Proof. induction m as [|[k' v'] m IH]; simpl; [done | by f_equal]. Qed.

Lemma values_fmap {B} (g : V -> B) m :
  JsMap.values (JsMap.fmap g m) = map g (JsMap.values m).
Proof. induction m as [|[k' v'] m IH]; simpl; [done | by f_equal]. Qed.
End Facts.
End JsMapFacts.

(** ** The ledger keeps its invariant *)
Module LedgerFacts.
Import JsMapFacts.

Lemma js_incr_below n : js_incr n < 2 ^ 53 -> n < 2 ^ 53 /\ js_incr n = n + 1.
Proof.
  unfold js_incr. destruct (N.ltb_spec n (2 ^ 53)); lia.
Qed.

Lemma settle_Inv id a : Ledger.Inv a -> Ledger.Inv (Ledger.settle id a).
Proof.
  intros [Hwf Hnd Hfresh Hclosed Hnot Hcomp]. unfold Ledger.settle.
  destruct (JsMap.get id (Ledger.entries a)) as [p|] eqn:Hget; [|by constructor].
  destruct (values_delete _ _ _ Hwf Hget) as (l1 & l2 & E1 & E2).
  assert (Hperm : JsMap.values (JsMap.delete id (Ledger.entries a))
                    ++ Ledger.settled a ++ [p]
                  ≡ₚ JsMap.values (Ledger.entries a) ++ Ledger.settled a).
  { rewrite E1, E2. rewrite <- !app_assoc. simpl.
    rewrite (Permutation_app_comm (Ledger.settled a) [p]). simpl.
    by rewrite Permutation_middle. }
  constructor; simpl.
  - by apply wf_delete.
  - by rewrite Hperm.
  - intros q Hq. apply Hfresh. by rewrite <- Hperm.
  - intros Hc. rewrite (Hclosed Hc) in Hget. done.
  - done.
  - intros Hctr k Hin. apply (Hcomp Hctr).
    eapply elem_of_sublist; [exact Hin | apply keys_delete_sublist].
Qed.

Lemma settle_values id p a :
  JsMap.wf (Ledger.entries a) ->
  JsMap.get id (Ledger.entries a) = Some p ->
  JsMap.values (JsMap.delete id (Ledger.entries a)) ++ Ledger.settled a ++ [p]
  ≡ₚ JsMap.values (Ledger.entries a) ++ Ledger.settled a.
Proof.
  intros Hwf Hget. destruct (values_delete _ _ _ Hwf Hget) as (l1 & l2 & E1 & E2).
  rewrite E1, E2. rewrite <- !app_assoc. simpl.
  rewrite (Permutation_app_comm (Ledger.settled a) [p]). simpl.
  by rewrite Permutation_middle.
Qed.

Lemma settle_Complete id a :
  Ledger.Inv a -> Ledger.Complete a -> Ledger.Complete (Ledger.settle id a).
Proof.
  intros [Hwf _ _ _ _ _] Hcomp. unfold Ledger.settle.
  destruct (JsMap.get id (Ledger.entries a)) as [p|] eqn:Hget; [|done].
  intros Hctr q Hq. cbn in *. rewrite (settle_values id p a Hwf Hget). by apply Hcomp.
Qed.

Lemma settle_Lost p id a :
  Ledger.Inv a -> Ledger.Lost p a -> Ledger.Lost p (Ledger.settle id a).
Proof.
  intros [Hwf _ _ _ _ _] [Hlt Hnot]. unfold Ledger.settle.
  destruct (JsMap.get id (Ledger.entries a)) as [q|] eqn:Hget; [|done].
  split; [done|]. cbn. by rewrite (settle_values id q a Hwf Hget).
Qed.

Lemma drop_sublist id a :
  sublist (JsMap.values (JsMap.delete id (Ledger.entries a)) ++ Ledger.settled a)
    (JsMap.values (Ledger.entries a) ++ Ledger.settled a).
Proof. apply sublist_app; [apply values_delete_sublist | done]. Qed.

Lemma drop_Inv id a : Ledger.Inv a -> Ledger.Inv (Ledger.drop id a).
Proof.
  intros [Hwf Hnd Hfresh Hclosed Hnot Hcomp]. constructor; cbn.
  - by apply wf_delete.
  - eapply sublist_NoDup; [exact Hnd | apply drop_sublist].
  - intros q Hq. apply Hfresh. eapply elem_of_sublist; [exact Hq | apply drop_sublist].
  - intros Hc. by rewrite (Hclosed Hc).
  - done.
  - intros Hctr k Hin. apply (Hcomp Hctr).
    eapply elem_of_sublist; [exact Hin | apply keys_delete_sublist].
Qed.

Lemma drop_Lost p id a : Ledger.Lost p a -> Ledger.Lost p (Ledger.drop id a).
Proof.
  intros [Hlt Hnot]. split; [done|]. cbn. intros Hin. apply Hnot.
  eapply elem_of_sublist; [exact Hin | apply drop_sublist].
Qed.

Lemma settles_Inv ids a :
  Ledger.Inv a -> Ledger.Inv (fold_left (fun a id => Ledger.settle id a) ids a).
Proof.
  revert a. induction ids as [|id ids IH]; simpl; [done|].
  intros a Ha. by apply IH, settle_Inv.
Qed.

Lemma refuse_Inv a : Ledger.Inv a -> Ledger.Inv (Ledger.refuse a).
Proof.
  intros [Hwf Hnd Hfresh Hclosed Hnot Hcomp]. constructor; simpl; try done.
  - rewrite app_assoc. apply NoDup_app. split; [done|]. split; [|apply NoDup_singleton].
    intros q Hq ->%list_elem_of_singleton. apply Hfresh in Hq. lia.
  - intros q. rewrite app_assoc, elem_of_app, list_elem_of_singleton.
    intros [Hq | ->]; [apply Hfresh in Hq|]; lia.
Qed.

Lemma refuse_Complete a : Ledger.Complete a -> Ledger.Complete (Ledger.refuse a).
Proof.
  intros Hcomp Hctr q Hq. cbn in *.
  rewrite app_assoc, elem_of_app, list_elem_of_singleton.
  destruct (decide (q = Ledger.next a)) as [->|]; [by right|].
  left. apply Hcomp; [done | lia].
Qed.

Lemma refuse_Lost p a : Ledger.Lost p a -> Ledger.Lost p (Ledger.refuse a).
Proof.
  intros [Hlt Hnot]. split; [cbn; lia|]. cbn.
  rewrite app_assoc, elem_of_app, list_elem_of_singleton. intros [?| ->]; [done | lia].
Qed.

Lemma track_Inv a : Ledger.open a = true -> Ledger.Inv a -> Ledger.Inv (Ledger.track a).
Proof.
  intros Hopen [Hwf Hnd Hfresh Hclosed Hnot Hcomp].
  destruct (values_set (Ledger.counter a) (Ledger.next a) _ Hwf)
    as (l1 & l2 & E1 & E2).
  assert (Hsub : sublist ((l1 ++ l2) ++ Ledger.settled a)
                   (JsMap.values (Ledger.entries a) ++ Ledger.settled a)).
  { apply sublist_app; [|done]. rewrite <- E2. apply values_delete_sublist. }
  assert (Hperm : JsMap.values (JsMap.set (Ledger.counter a) (Ledger.next a)
                                  (Ledger.entries a)) ++ Ledger.settled a
                  ≡ₚ Ledger.next a :: (l1 ++ l2) ++ Ledger.settled a).
  { rewrite E1. rewrite <- !app_assoc. simpl. symmetry. apply Permutation_middle. }
  constructor; simpl.
  - by apply wf_set.
  - rewrite Hperm. apply NoDup_cons. split.
    + intros Hin. eapply elem_of_sublist in Hin; [|exact Hsub].
      apply Hfresh in Hin. lia.
    + eapply sublist_NoDup; [exact Hnd | exact Hsub].
  - intros q. rewrite Hperm, elem_of_cons. intros [->|Hq]; [lia|].
    eapply elem_of_sublist in Hq; [|exact Hsub]. apply Hfresh in Hq. lia.
  - rewrite Hopen. done.
  - done.
  - intros Hctr. apply js_incr_below in Hctr as [Hlt ->].
    pose proof (Hcomp Hlt) as Hk.
    assert (Hget : JsMap.get (Ledger.counter a) (Ledger.entries a) = None).
    { apply get_None. intros Hin. apply Hk in Hin. lia. }
    rewrite (set_absent _ _ _ Hget). unfold JsMap.keys.
    rewrite !map_app. simpl.
    intros k. rewrite elem_of_app, list_elem_of_singleton.
    intros [Hin | ->]; [apply Hk in Hin|]; lia.
Qed.

Lemma track_Complete a :
  Ledger.Inv a -> Ledger.Complete a -> Ledger.Complete (Ledger.track a).
Proof.
  intros [_ _ _ _ _ Hbelow] Hcomp Hctr q Hq. cbn in *.
  apply js_incr_below in Hctr as [Hlt _].
  assert (Hget : JsMap.get (Ledger.counter a) (Ledger.entries a) = None).
  { apply get_None. intros Hin. apply (Hbelow Hlt) in Hin. lia. }
  rewrite (set_absent _ _ _ Hget). unfold JsMap.values. rewrite !map_app. simpl.
  rewrite !elem_of_app, list_elem_of_singleton.
  destruct (decide (q = Ledger.next a)) as [->|]; [left; by right|].
  assert (Hq' : q < Ledger.next a) by lia.
  apply (Hcomp Hlt) in Hq'. apply elem_of_app in Hq' as [?|?]; [left; by left | by right].
Qed.

Lemma track_Lost p a : Ledger.Inv a -> Ledger.Lost p a -> Ledger.Lost p (Ledger.track a).
Proof.
  intros [Hwf _ _ _ _ _] [Hlt Hnot]. split; [cbn; lia|].
  unfold Ledger.track. cbn [Ledger.entries Ledger.settled Ledger.next].
  destruct (values_set (Ledger.counter a) (Ledger.next a) _ Hwf) as (l1 & l2 & E1 & E2).
  rewrite E1. intros Hin. apply Hnot.
  rewrite <- !app_assoc in Hin. cbn in Hin.
  apply elem_of_app in Hin as [Hin|Hin].
  - apply elem_of_app. left.
    eapply elem_of_sublist; [|apply (values_delete_sublist (Ledger.counter a))].
    rewrite E2. apply elem_of_app. by left.
  - apply elem_of_cons in Hin as [->|Hin]; [lia|].
    apply elem_of_app in Hin as [Hin|Hin]; [|apply elem_of_app; by right].
    apply elem_of_app. left.
    eapply elem_of_sublist; [|apply (values_delete_sublist (Ledger.counter a))].
    rewrite E2. apply elem_of_app. by right.
Qed.

Lemma settles_entries ids a :
  Ledger.entries (fold_left (fun a id => Ledger.settle id a) ids a)
  = fold_left (fun m id => JsMap.delete id m) ids (Ledger.entries a).
Proof.
  revert a. induction ids as [|id ids IH]; simpl; [done|].
  intros a. rewrite IH. f_equal. unfold Ledger.settle.
  destruct (JsMap.get id (Ledger.entries a)) eqn:Hget; simpl; [done|].
  symmetry. by apply delete_absent.
Qed.

Lemma settles_frame ids a :
  let a' := fold_left (fun a id => Ledger.settle id a) ids a in
  Ledger.open a' = Ledger.open a /\ Ledger.notified a' = Ledger.notified a /\
  Ledger.next a' = Ledger.next a /\ Ledger.counter a' = Ledger.counter a /\
  Ledger.subscribers a' = Ledger.subscribers a.
Proof.
  revert a. induction ids as [|id ids IH]; simpl; [done|].
  intros a. destruct (IH (Ledger.settle id a)) as (-> & -> & -> & -> & ->).
  unfold Ledger.settle. by destruct (JsMap.get id (Ledger.entries a)).
Qed.

Lemma delete_all {V} (ks : list N) (m : JsMap.t V) :
  (forall k, k ∈ JsMap.keys m -> k ∈ ks) ->
  fold_left (fun m id => JsMap.delete id m) ks m = [].
Proof.
  revert m. induction ks as [|k ks IH]; simpl.
  - intros [|[k v] m] Hin; [done|]. specialize (Hin k (list_elem_of_here _ _)).
    by apply elem_of_nil in Hin.
  - intros m Hin. apply IH. intros k' Hk'.
    assert (Hne : k' <> k).
    { intros ->. pose proof (get_delete_eq k m) as Hnone.
      apply get_None in Hnone. done. }
    assert (Hm : k' ∈ JsMap.keys m).
    { eapply elem_of_sublist; [exact Hk' | apply keys_delete_sublist]. }
    apply Hin in Hm. apply elem_of_cons in Hm as [?|?]; done.
Qed.

Lemma settles_with_open b ids a :
  fold_left (fun a id => Ledger.settle id a) ids (Ledger.with_open b a)
  = Ledger.with_open b (fold_left (fun a id => Ledger.settle id a) ids a).
Proof.
  revert a. induction ids as [|id ids IH]; simpl; [done|].
  intros a. rewrite <- IH. f_equal. unfold Ledger.settle. simpl.
  by destruct (JsMap.get id (Ledger.entries a)).
Qed.

Lemma close_Inv a : Ledger.Inv a -> Ledger.Inv (Ledger.close a).
Proof.
  intros Ha. unfold Ledger.close. destruct (Ledger.open a) eqn:Hopen; [|done].
  rewrite settles_with_open.
  set (a1 := fold_left _ _ a).
  assert (He : Ledger.entries a1 = []).
  { unfold a1. rewrite settles_entries. by apply delete_all. }
  destruct (settles_frame (JsMap.keys (Ledger.entries a)) a) as (_ & Hn & _).
  fold a1 in Hn.
  assert (Ha1 : Ledger.Inv a1) by by apply settles_Inv.
  destruct Ha as [_ _ _ _ Hnot _]. rewrite Hopen in Hnot.
  destruct Ha1 as [Hwf Hnd Hfresh _ _ Hcomp].
  constructor; simpl; try done.
  by rewrite Hn, Hnot.
Qed.

Lemma settles_Complete ids a :
  Ledger.Inv a -> Ledger.Complete a ->
  Ledger.Complete (fold_left (fun a id => Ledger.settle id a) ids a).
Proof.
  revert a. induction ids as [|id ids IH]; simpl; [done|].
  intros a Ha Hc. apply IH; [by apply settle_Inv | by apply settle_Complete].
Qed.

Lemma settles_Lost p ids a :
  Ledger.Inv a -> Ledger.Lost p a ->
  Ledger.Lost p (fold_left (fun a id => Ledger.settle id a) ids a).
Proof.
  revert a. induction ids as [|id ids IH]; simpl; [done|].
  intros a Ha Hc. apply IH; [by apply settle_Inv | by apply settle_Lost].
Qed.

Lemma close_Complete a :
  Ledger.Inv a -> Ledger.Complete a -> Ledger.Complete (Ledger.close a).
Proof.
  intros Ha Hc. unfold Ledger.close. destruct (Ledger.open a) eqn:Hopen; [|done].
  rewrite settles_with_open.
  pose proof (settles_Complete (JsMap.keys (Ledger.entries a)) a Ha Hc) as Hc'.
  exact Hc'.
Qed.

Lemma close_Lost p a : Ledger.Inv a -> Ledger.Lost p a -> Ledger.Lost p (Ledger.close a).
Proof.
  intros Ha Hl. unfold Ledger.close. destruct (Ledger.open a) eqn:Hopen; [|done].
  rewrite settles_with_open.
  pose proof (settles_Lost p (JsMap.keys (Ledger.entries a)) a Ha Hl) as Hl'.
  exact Hl'.
Qed.

End LedgerFacts.

(** ** A channel moves its ledger by the ledger's own moves *)
Module PortFacts.
Import JsMapFacts LedgerFacts CrossFrameAPIPort.

Lemma settled_in_snoc tr e : settled_in (tr ++ [e]) = settled_in tr ++ settled_in [e].
Proof. unfold settled_in. apply flat_map_app. Qed.

Lemma triggers_in_snoc tr e :
  triggers_in (tr ++ [e]) = (triggers_in tr + triggers_in [e])%nat.
Proof. unfold triggers_in. by rewrite List.filter_app, length_app. Qed.

Ltac view_norm :=
  unfold Ledger.view, table, settled, triggers; unfold_prims; proj;
  rewrite ?settled_in_snoc, ?triggers_in_snoc;
  cbn [settled_in triggers_in flat_map List.filter is_trigger length app];
  rewrite ?app_nil_r, ?Nat.add_0_r.

(** A silent event leaves the ledger as it is. *)
Lemma view_emit e w : silent e -> Ledger.view (emit e w) = Ledger.view w.
Proof.
  intros [Hs Ht]. unfold Ledger.view, table, settled, triggers, emit, upd_host. proj.
  rewrite settled_in_snoc, triggers_in_snoc, Hs, app_nil_r.
  unfold triggers_in at 2. cbn [List.filter]. rewrite Ht. simpl.
  by rewrite Nat.add_0_r.
Qed.

Lemma view_clearTimeout h w : Ledger.view (clearTimeout h w) = Ledger.view w.
Proof. by view_norm. Qed.

Lemma view_setTimeout cb delay w :
  Ledger.view (snd (setTimeout cb delay w)) = Ledger.view w.
Proof.
  unfold setTimeout. destruct (setTimeout_throws (host w)); [done|]. by view_norm.
Qed.

Lemma view_postMessage port m w :
  Ledger.view (snd (postMessage port m w)) = Ledger.view w.
Proof. by view_norm. Qed.

Lemma view_mutate id f w :
  (forall i, Invocation.promise (f i) = Invocation.promise i) ->
  Ledger.view (mutate id f w) = Ledger.view w.
Proof. intros Hf. view_norm. by rewrite fmap_alter. Qed.

Lemma view_log_warn e w : Ledger.view (log_warn e w) = Ledger.view w.
Proof. by view_norm. Qed.

Lemma view_set_eventListeners l w :
  Ledger.view (set_eventListeners l w) = Ledger.view w.
Proof. by view_norm. Qed.

Section Methods.
Context {EC : ErrorCodec}.

Lemma view_onError id e w :
  Ledger.view (_onError id e w) = Ledger.settle id (Ledger.view w).
Proof.
  unfold _onError, Ledger.settle.
  replace (JsMap.get id (Ledger.entries (Ledger.view w)))
    with (Invocation.promise <$> JsMap.get id (_activeInvocations (this w)))
    by (symmetry; apply get_fmap).
  destruct (JsMap.get id (_activeInvocations (this w))) as [inv|]; [|done].
  destruct (Invocation.timer inv); view_norm; by rewrite fmap_delete.
Qed.

Lemma view_onAck id w : Ledger.moved (Ledger.view w) (Ledger.view (_onAck id w)).
Proof.
  unfold _onAck.
  destruct (JsMap.get id (_activeInvocations (this w))) as [inv|].
  2:{ left. apply view_log_warn. }
  destruct (Invocation.ack inv).
  { right. exists id. apply view_onError. }
  set (w1 := match Invocation.timer inv with Some h => _ | None => _ end).
  assert (E1 : Ledger.view w1 = Ledger.view w).
  { unfold w1. destruct (Invocation.timer inv).
    - by rewrite !view_mutate, view_clearTimeout, view_mutate.
    - by rewrite view_mutate. }
  destruct (Invocation.responseTimeout inv) as [rt|]; [|by left].
  pose proof (view_setTimeout (OnErrorCallback id "Response timeout") rt w1) as E2.
  destruct (setTimeout _ rt w1) as [[h|] w2]; simpl in E2.
  - left. by rewrite view_mutate, E2.
  - right. exists id. by rewrite view_onError, E2, E1.
Qed.

Lemma view_onResult id data w : Ledger.moved (Ledger.view w) (Ledger.view (_onResult id data w)).
Proof.
  unfold _onResult.
  destruct (JsMap.get id (_activeInvocations (this w))) as [inv|] eqn:Hget.
  2:{ left. apply view_log_warn. }
  right. exists id. destruct (negb (Invocation.ack inv)); [apply view_onError|].
  unfold Ledger.settle.
  replace (JsMap.get id (Ledger.entries (Ledger.view w)))
    with (Invocation.promise <$> JsMap.get id (_activeInvocations (this w)))
    by (symmetry; apply get_fmap).
  rewrite Hget. simpl.
  destruct (Invocation.timer inv), (error data); view_norm; by rewrite fmap_delete.
Qed.

(** A result for an invocation that the table holds settles it, whether
    it has been acknowledged or not. *)
Lemma view_onResult_tracked id data inv w :
  JsMap.get id (table w) = Some inv ->
  Ledger.view (_onResult id data w) = Ledger.settle id (Ledger.view w).
Proof.
  unfold table. intros Hget. unfold _onResult. rewrite Hget.
  destruct (negb (Invocation.ack inv)); [apply view_onError|].
  unfold Ledger.settle.
  replace (JsMap.get id (Ledger.entries (Ledger.view w)))
    with (Invocation.promise <$> JsMap.get id (_activeInvocations (this w)))
    by (symmetry; apply get_fmap).
  rewrite Hget. simpl.
  destruct (Invocation.timer inv), (error data); view_norm; by rewrite fmap_delete.
Qed.

Lemma view_sendResponse m w : Ledger.view (_sendResponse m w) = Ledger.view w.
Proof.
  unfold _sendResponse. destruct (_port (this w)); [|done]. apply view_postMessage.
Qed.

Lemma view_onInvoke id action params w :
  Ledger.view (snd (_onInvoke id action params w)) = Ledger.view w.
Proof.
  unfold _onInvoke, _sendAck, _sendError, _sendResult, invokeMessageHandler.
  destruct (_messageHandlers w !! action) as [h|]; simpl.
  - destruct (h params); simpl;
      rewrite ?view_sendResponse, !view_emit, ?view_sendResponse, ?view_emit; done.
  - by rewrite !view_sendResponse, view_emit.
Qed.

Lemma view_throw_TypeError w : Ledger.view (throw_TypeError w) = Ledger.view w.
Proof. by view_norm. Qed.

Lemma view_onResult_undefined id w :
  Ledger.received (Ledger.view w) (Ledger.view (_onResult_undefined id w)).
Proof.
  unfold _onResult_undefined.
  destruct (JsMap.get id (_activeInvocations (this w))) as [inv|] eqn:Hget.
  - destruct (Invocation.ack inv); simpl.
    + right. exists id. rewrite view_throw_TypeError.
      destruct (Invocation.timer inv); rewrite ?view_clearTimeout;
        unfold Ledger.drop; view_norm; by rewrite fmap_delete.
    + left. right. exists id. apply view_onError.
  - left. left. apply view_log_warn.
Qed.

Lemma view_onMessage details w :
  Ledger.received (Ledger.view w) (Ledger.view (_onMessage details w)).
Proof.
  destruct details; simpl.
  - left. left. apply view_onInvoke.
  - left. apply view_onAck.
  - left. apply view_onResult.
  - by left; left.
  - left. left. apply view_throw_TypeError.
  - apply view_onResult_undefined.
Qed.

(** A message that carries its [data] drops nothing. *)
Lemma view_onMessage_typed details w :
  well_typed (PortMessage details) = true ->
  Ledger.moved (Ledger.view w) (Ledger.view (_onMessage details w)).
Proof.
  destruct details; simpl; try done; intros _.
  - left. apply view_onInvoke.
  - apply view_onAck.
  - apply view_onResult.
  - by left.
Qed.

Lemma view_prepare w : Ledger.view (snd (prepare w)) = Ledger.view w.
Proof. unfold prepare. destruct (_port (this w)); [|done]. apply view_set_eventListeners. Qed.

Lemma view_invoke action params ackTimeout responseTimeout w :
  let a := Ledger.view w in
  let a' := Ledger.view (snd (invoke action params ackTimeout responseTimeout w)) in
  if Ledger.open a then Ledger.moved (Ledger.track a) a' else a' = Ledger.refuse a.
Proof.
  unfold invoke, newPromise. proj. unfold upd_host at 1. proj.
  destruct (_port (this w)) as [port|] eqn:Hport.
  2:{ simpl. rewrite Hport. simpl. view_norm. by rewrite Hport. }
  cbn zeta. unfold Ledger.view at 1. rewrite Hport.
  set (id := _invocationId (this w)).
  set (w1 := upd_activeInvocations _ _).
  assert (E1 : Ledger.view w1 = Ledger.track (Ledger.view w)).
  { unfold w1, Ledger.track. view_norm. rewrite Hport. by rewrite fmap_set. }
  assert (Esend : forall w2, Ledger.view w2 = Ledger.view w1 ->
            Ledger.moved (Ledger.track (Ledger.view w))
              (Ledger.view
                 match postMessage port (InvokeMessage id action params) w2 with
                 | (Some e, w) => _onError id e w
                 | (None, w) => w
                 end)).
  { intros w2 E2.
    pose proof (view_postMessage port (InvokeMessage id action params) w2) as E3.
    destruct (postMessage port _ w2) as [[e|] w3]; simpl in E3.
    - right. exists id. by rewrite view_onError, E3, E2, E1.
    - left. by rewrite E3, E2, E1. }
  destruct ackTimeout as [t|]; [|by apply Esend].
  pose proof (view_setTimeout (OnErrorCallback id "Acknowledgement timeout") t w1) as E2.
  destruct (setTimeout _ t w1) as [[h|] w2]; simpl in E2; simpl.
  - apply Esend. by rewrite view_mutate.
  - right. exists id. by rewrite view_onError, E2, E1.
Qed.

Lemma view_onErrors text ids w :
  Ledger.view (fold_left (fun w id => _onError id (NotError text) w) ids w)
  = fold_left (fun a id => Ledger.settle id a) ids (Ledger.view w).
Proof.
  revert w. induction ids as [|id ids IH]; simpl; [done|].
  intros w. by rewrite IH, view_onError.
Qed.

Lemma view_onDisconnect w :
  Ledger.view (_onDisconnect w) = Ledger.close (Ledger.view w).
Proof.
  unfold _onDisconnect, Ledger.close.
  destruct (_port (this w)) as [port|] eqn:Hport.
  2:{ unfold Ledger.view at 2. by rewrite Hport. }
  replace (Ledger.open (Ledger.view w)) with true
    by (unfold Ledger.view; proj; by rewrite Hport).
  set (w1 := set_port None _).
  assert (E1 : Ledger.view w1 = Ledger.with_open false (Ledger.view w)).
  { unfold w1, Ledger.with_open. by view_norm. }
  assert (Ek : JsMap.keys (_activeInvocations (this w1))
               = JsMap.keys (Ledger.entries (Ledger.view w))).
  { unfold w1, Ledger.view, table. unfold_prims. proj. by rewrite keys_fmap. }
  rewrite Ek, <- E1, <- (view_onErrors "Disconnected").
  set (w2 := fold_left _ _ w1). clearbody w2. clear.
  unfold Ledger.notify. view_norm. by rewrite Nat.add_1_r.
Qed.

Lemma view_fire h w : Ledger.moved (Ledger.view w) (Ledger.view (fire h w)).
Proof.
  unfold fire. destruct (timers (host w) !! h) as [[id text]|]; [|by left].
  right. exists id. by rewrite view_onError.
Qed.

(** Whatever the ledger keeps through its own moves, the channel keeps
    through everything that happens to it; what it does not keep through
    a drop, the channel keeps as long as every message carries its
    [data]. *)
Section Preservation.
Variable P : Ledger.t -> Prop.
Hypothesis P_settle : forall id a, P a -> P (Ledger.settle id a).
Hypothesis P_track : forall a, Ledger.open a = true -> P a -> P (Ledger.track a).
Hypothesis P_refuse : forall a, Ledger.open a = false -> P a -> P (Ledger.refuse a).
Hypothesis P_close : forall a, P a -> P (Ledger.close a).
Variable drops : bool.
Hypothesis P_drop : drops = true -> forall id a, P a -> P (Ledger.drop id a).

Lemma moved_keeps a a' : Ledger.moved a a' -> P a -> P a'.
Proof. intros [->|[id ->]] Ha; [done | by apply P_settle]. Qed.

Lemma deliver_keeps l f w :
  (forall w, P (Ledger.view w) -> P (Ledger.view (f w))) ->
  P (Ledger.view w) -> P (Ledger.view (deliver l f w)).
Proof.
  intros Hf. unfold deliver. generalize (_eventListeners (this w)) as ls.
  intros ls. revert w. induction ls as [|l' ls IH]; simpl; [done|].
  intros w Hw. apply IH. destruct l, l'; auto.
Qed.

Lemma step_keeps_if w i :
  (drops = false -> well_typed i = true) ->
  P (Ledger.view w) -> P (Ledger.view (step w i)).
Proof.
  intros Hi Hw. destruct i; simpl.
  - by rewrite view_prepare.
  - pose proof (view_invoke action params ackTimeout responseTimeout w) as Hv.
    cbv zeta in Hv. destruct (Ledger.open (Ledger.view w)) eqn:Hopen.
    + eapply moved_keeps; [exact Hv | by apply P_track].
    + rewrite Hv. by apply P_refuse.
  - unfold disconnect. rewrite view_onDisconnect. by apply P_close.
  - apply deliver_keeps; [|done]. intros w' Hw'.
    destruct drops eqn:Hdrops.
    + destruct (view_onMessage details w') as [Hm|[id ->]];
        [by eapply moved_keeps | by apply P_drop].
    + eapply moved_keeps; [apply view_onMessage_typed; by apply Hi | done].
  - apply deliver_keeps; [|done]. intros w' Hw'.
    rewrite view_onDisconnect. by apply P_close.
  - eapply moved_keeps; [apply view_fire | done].
  - unfold _sendResult. by rewrite view_sendResponse.
  - exact Hw.
  - destruct (_port (this w)) eqn:Hport; [|done].
    replace (Ledger.view (set_port (Some port) w)) with (Ledger.view w); [done|].
    view_norm. by rewrite Hport.
  - exact Hw.
Qed.

Lemma run_keeps_if inputs w :
  (drops = false -> forallb well_typed inputs = true) ->
  P (Ledger.view w) -> P (Ledger.view (run inputs w)).
Proof.
  unfold run. revert w. induction inputs as [|i inputs IH]; simpl; [done|].
  intros w Hi Hw. apply IH.
  - intros Hd. by destruct (andb_prop _ _ (Hi Hd)).
  - apply step_keeps_if; [|done]. intros Hd. by destruct (andb_prop _ _ (Hi Hd)).
Qed.
End Preservation.

(** What the ledger keeps through all its moves, the channel keeps
    through everything. *)
Lemma run_keeps (P : Ledger.t -> Prop) :
  (forall id a, P a -> P (Ledger.settle id a)) ->
  (forall a, Ledger.open a = true -> P a -> P (Ledger.track a)) ->
  (forall a, Ledger.open a = false -> P a -> P (Ledger.refuse a)) ->
  (forall a, P a -> P (Ledger.close a)) ->
  (forall id a, P a -> P (Ledger.drop id a)) ->
  forall inputs w, P (Ledger.view w) -> P (Ledger.view (run inputs w)).
Proof.
  intros Hs Ht Hr Hc Hd inputs w.
  by apply (run_keeps_if P Hs Ht Hr Hc true (fun _ => Hd)).
Qed.

(** What the ledger keeps through its moves other than a drop, the
    channel keeps as long as every message carries its [data]. *)
Lemma run_keeps_typed (P : Ledger.t -> Prop) :
  (forall id a, P a -> P (Ledger.settle id a)) ->
  (forall a, Ledger.open a = true -> P a -> P (Ledger.track a)) ->
  (forall a, Ledger.open a = false -> P a -> P (Ledger.refuse a)) ->
  (forall a, P a -> P (Ledger.close a)) ->
  forall inputs w,
    forallb well_typed inputs = true ->
    P (Ledger.view w) -> P (Ledger.view (run inputs w)).
Proof.
  intros Hs Ht Hr Hc inputs w Hi.
  apply (run_keeps_if P Hs Ht Hr Hc false); [done | by intros _].
Qed.

Lemma run_Inv inputs w :
  Ledger.Inv (Ledger.view w) -> Ledger.Inv (Ledger.view (run inputs w)).
Proof.
  apply run_keeps.
  - intros id a. apply settle_Inv.
  - apply track_Inv.
  - intros a _. apply refuse_Inv.
  - apply close_Inv.
  - apply drop_Inv.
Qed.

(** As long as every message carries its [data], no promise is lost. *)
Lemma run_Complete inputs w :
  forallb well_typed inputs = true ->
  Ledger.Inv (Ledger.view w) -> Ledger.Complete (Ledger.view w) ->
  Ledger.Complete (Ledger.view (run inputs w)).
Proof.
  intros Hi Hinv Hcomp.
  apply (run_keeps_typed (fun a => Ledger.Inv a /\ Ledger.Complete a)); [| | | |done|done].
  - intros id a [Ha Hc]. split; [by apply settle_Inv | by apply settle_Complete].
  - intros a Ho [Ha Hc]. split; [by apply track_Inv | by apply track_Complete].
  - intros a _ [Ha Hc]. split; [by apply refuse_Inv | by apply refuse_Complete].
  - intros a [Ha Hc]. split; [by apply close_Inv | by apply close_Complete].
Qed.

(** A promise that has been lost stays lost. *)
Lemma run_Lost p inputs w :
  Ledger.Inv (Ledger.view w) -> Ledger.Lost p (Ledger.view w) ->
  Ledger.Lost p (Ledger.view (run inputs w)).
Proof.
  intros Hinv Hlost.
  apply (run_keeps (fun a => Ledger.Inv a /\ Ledger.Lost p a)); [| | | | |done].
  - intros id a [Ha Hl]. split; [by apply settle_Inv | by apply settle_Lost].
  - intros a Ho [Ha Hl]. split; [by apply track_Inv | by apply track_Lost].
  - intros a _ [Ha Hl]. split; [by apply refuse_Inv | by apply refuse_Lost].
  - intros a [Ha Hl]. split; [by apply close_Inv | by apply close_Lost].
  - intros id a [Ha Hl]. split; [by apply drop_Inv | by apply drop_Lost].
Qed.

(** What has been settled stays settled. *)
Lemma run_settled p inputs w :
  p ∈ settled w -> p ∈ settled (run inputs w).
Proof.
  apply (run_keeps (fun a => p ∈ Ledger.settled a)).
  - intros id a Hp. unfold Ledger.settle.
    destruct (JsMap.get id (Ledger.entries a)); [|done]. cbn. apply elem_of_app. by left.
  - done.
  - intros a _ Hp. cbn. apply elem_of_app. by left.
  - intros a Hp. unfold Ledger.close. destruct (Ledger.open a); [|done].
    unfold Ledger.notify. cbn [Ledger.settled]. rewrite settles_with_open.
    cbn [Ledger.settled Ledger.with_open].
    generalize (JsMap.keys (Ledger.entries a)). intros ids. revert a Hp.
    induction ids as [|id ids IH]; intros a Hp; [done|]. cbn [fold_left]. apply IH.
    unfold Ledger.settle. destruct (JsMap.get id (Ledger.entries a)); [|done].
    cbn. apply elem_of_app. by left.
  - done.
Qed.

(** A channel that has lost its port never holds one again. *)
Lemma run_closed inputs w :
  _port (this w) = None -> _port (this (run inputs w)) = None.
Proof.
  intros Hport.
  assert (Hv : forall w, Ledger.open (Ledger.view w) = false <-> _port (this w) = None).
  { intros w'. unfold Ledger.view. proj. by destruct (_port (this w')). }
  apply Hv. apply (run_keeps (fun a => Ledger.open a = false)); [| | | | |by apply Hv].
  - intros id a. unfold Ledger.settle. by destruct (JsMap.get id (Ledger.entries a)).
  - intros a Ho Hc. congruence.
  - done.
  - intros a _. unfold Ledger.close. destruct (Ledger.open a) eqn:Ho; [|done].
    unfold Ledger.notify. proj. rewrite settles_with_open. done.
  - done.
Qed.

(** The subscribers of a channel stay as they are. *)
Lemma run_subscribers inputs w :
  _eventMap (this (run inputs w)) = _eventMap (this w).
Proof.
  apply (run_keeps (fun a => Ledger.subscribers a = _eventMap (this w))); [| | | | |done].
  - intros id a. unfold Ledger.settle. by destruct (JsMap.get id (Ledger.entries a)).
  - done.
  - done.
  - intros a Ha. unfold Ledger.close. destruct (Ledger.open a); [|done].
    unfold Ledger.notify. proj.
    by destruct (settles_frame (JsMap.keys (Ledger.entries a)) (Ledger.with_open false a))
      as (_ & _ & _ & _ & ->).
  - done.
Qed.

Lemma boot_Inv otherTabId otherFrameId port messageHandlers :
  Ledger.Inv (Ledger.view (boot otherTabId otherFrameId port messageHandlers)).
Proof.
  unfold boot, prepare, constructor.
  constructor; simpl; try done.
  all: try apply NoDup_nil_2.
  - intros p Hp. by apply elem_of_nil in Hp.
  - intros _ k Hk. by apply elem_of_nil in Hk.
Qed.

Lemma boot_Complete otherTabId otherFrameId port messageHandlers :
  Ledger.Complete (Ledger.view (boot otherTabId otherFrameId port messageHandlers)).
Proof. intros _ p Hp. cbn in Hp. lia. Qed.

End Methods.
End PortFacts.

(** ** The response handlers, case by case *)
Module HandlerFacts.
Import JsMapFacts LedgerFacts CrossFrameAPIPort PortFacts.

Section Methods.
Context {EC : ErrorCodec}.

(** What [_onError] does to an invocation that the table holds. *)
Lemma onError_tracked id error invocation w :
  JsMap.get id (table w) = Some invocation ->
  let w' := _onError id error w in
  table w' = JsMap.delete id (table w) /\
  trace (host w') = trace (host w) ++ Outcome.rejected error invocation /\
  _port (this w') = _port (this w) /\
  _eventMap (this w') = _eventMap (this w) /\
  _invocationId (this w') = _invocationId (this w) /\
  nextPromise (host w') = nextPromise (host w).
Proof.
  unfold table, _onError, Outcome.rejected, Outcome.cleared, Outcome.as_error.
  intros ->. cbv zeta.
  destruct (Invocation.timer invocation), error; unfold_prims; proj;
    rewrite <- ?app_assoc; done.
Qed.

(** What [_onError] does when the table holds nothing under the id. *)
Lemma onError_untracked id error w :
  JsMap.get id (table w) = None -> _onError id error w = w.
Proof. unfold table, _onError. by intros ->. Qed.

Lemma onAck_untracked id w :
  JsMap.get id (table w) = None ->
  _onAck id w
  = log_warn (NewError ("Request " ++ pretty id ++ " not found for acknowledgement")) w.
Proof. unfold table, _onAck. by intros ->. Qed.

Lemma onResult_untracked id data w :
  JsMap.get id (table w) = None ->
  _onResult id data w = log_warn (NewError ("Request " ++ pretty id ++ " not found")) w.
Proof. unfold table, _onResult. by intros ->. Qed.

(** C4: a result for an invocation that the table holds and that has not
    been acknowledged rejects its promise, with an error that says the
    request was not acknowledged; the invocation leaves the table, and
    nothing is resolved, whatever the payload. *)
Theorem onResult_before_ack id data invocation w :
  JsMap.get id (table w) = Some invocation ->
  Invocation.ack invocation = false ->
  let w' := _onResult id data w in
  JsMap.get id (table w') = None /\
  trace (host w')
  = trace (host w)
      ++ Outcome.cleared invocation
      ++ [EvReject (Invocation.promise invocation)
            (NewError (("Request " ++ pretty id ++ " not acknowledged")
                       ++ " (" ++ Invocation.action invocation ++ ")"))] /\
  List.filter Outcome.is_resolve (trace (host w'))
  = List.filter Outcome.is_resolve (trace (host w)).
Proof.
  intros Hget Hack w'.
  assert (E : w' = _onError id (NotError ("Request " ++ pretty id ++ " not acknowledged")) w).
  { unfold w', _onResult. unfold table in Hget. by rewrite Hget, Hack. }
  destruct (onError_tracked id (NotError ("Request " ++ pretty id ++ " not acknowledged"))
              invocation w Hget) as (Ht & Htr & _).
  rewrite E. split; [|split].
  - rewrite Ht. apply get_delete_eq.
  - rewrite Htr. done.
  - rewrite Htr. unfold Outcome.rejected, Outcome.cleared.
    rewrite !List.filter_app. destruct (Invocation.timer invocation); simpl;
      by rewrite app_nil_r.
Qed.

(** C5: a second acknowledgement for an invocation that the table holds
    and that is acknowledged already rejects its promise, with an error
    that says the request was already acknowledged, and the invocation
    leaves the table. *)
Theorem onAck_twice id invocation w :
  JsMap.get id (table w) = Some invocation ->
  Invocation.ack invocation = true ->
  let w' := _onAck id w in
  JsMap.get id (table w') = None /\
  table w' = JsMap.delete id (table w) /\
  trace (host w')
  = trace (host w)
      ++ Outcome.cleared invocation
      ++ [EvReject (Invocation.promise invocation)
            (NewError (("Request " ++ pretty id ++ " already acknowledged")
                       ++ " (" ++ Invocation.action invocation ++ ")"))].
Proof.
  intros Hget Hack w'.
  assert (E : w' = _onError id (NotError ("Request " ++ pretty id ++ " already acknowledged")) w).
  { unfold w', _onAck. unfold table in Hget. by rewrite Hget, Hack. }
  destruct (onError_tracked id (NotError ("Request " ++ pretty id ++ " already acknowledged"))
              invocation w Hget) as (Ht & Htr & _).
  rewrite E. split; [|split].
  - rewrite Ht. apply get_delete_eq.
  - done.
  - rewrite Htr. done.
Qed.

(** C10: a result for an acknowledged invocation whose payload defines
    [error] rejects the promise with the deserialized error, whether or
    not the payload carries a [result] as well; the promise is resolved,
    with [result], only when [error] is undefined. *)
Theorem onResult_error_first id data invocation w :
  JsMap.get id (table w) = Some invocation ->
  Invocation.ack invocation = true ->
  let w' := _onResult id data w in
  JsMap.get id (table w') = None /\
  trace (host w')
  = trace (host w)
      ++ Outcome.cleared invocation
      ++ [match error data with
          | Some e => EvReject (Invocation.promise invocation) (deserialize e)
          | None => EvResolve (Invocation.promise invocation) (result data)
          end].
Proof.
  intros Hget Hack w'. unfold w', _onResult. unfold table in *.
  rewrite Hget, Hack. cbv zeta. unfold Outcome.cleared.
  destruct (Invocation.timer invocation), (error data); unfold_prims; proj;
    rewrite <- ?app_assoc; (split; [apply get_delete_eq | done]).
Qed.

(** C6: [invoke] on a channel that has lost its port rejects the promise
    it returns at once, with an error that says the port is disconnected;
    the channel is unchanged (its id counter and its table with it), no
    timer is armed, and nothing else happens. *)
Theorem invoke_disconnected action params ackTimeout responseTimeout w :
  _port (this w) = None ->
  let '(p, w') := invoke action params ackTimeout responseTimeout w in
  p = nextPromise (host w) /\
  this w' = this w /\
  _invocationId (this w') = _invocationId (this w) /\
  table w' = table w /\
  timers (host w') = timers (host w) /\
  nextTimer (host w') = nextTimer (host w) /\
  trace (host w')
  = trace (host w)
      ++ [EvReject p (NewError ("Port is disconnected (" ++ action ++ ")"))].
Proof.
  intros Hport. unfold invoke, newPromise, table. unfold upd_host at 1. proj.
  rewrite Hport. unfold_prims. proj. done.
Qed.

End Methods.

Lemma onResult_before_ack_witness :
  let w' := _onResult (EC := Sample.codec) 1 Sample.pong Sample.busy in
  JsMap.get 1 (table w') = None /\
  trace (host w')
  = trace (host Sample.busy)
      ++ [EvClearTimeout 2; EvReject 1 (NewError "Request 1 not acknowledged (b)")] /\
  List.filter Outcome.is_resolve (trace (host w'))
  = List.filter Outcome.is_resolve (trace (host Sample.busy)).
Proof.
  apply (onResult_before_ack (EC := Sample.codec) 1 Sample.pong
           (Invocation.mk 1 1 (Some 10000) "b" false (Some 2)) Sample.busy);
    reflexivity.
Defined.

Lemma onAck_twice_witness :
  let w' := _onAck 0 Sample.busy in
  JsMap.get 0 (table w') = None /\
  table w' = JsMap.delete 0 (table Sample.busy) /\
  trace (host w')
  = trace (host Sample.busy)
      ++ [EvClearTimeout 3; EvReject 0 (NewError "Request 0 already acknowledged (a)")].
Proof.
  apply (onAck_twice 0
           (Invocation.mk 0 0 (Some 10000) "a" true (Some 3)) Sample.busy);
    reflexivity.
Defined.

Lemma onResult_error_first_witness :
  let data := mkResponse (Some (JStr "pong")) (Some (JStr "failed")) in
  let w' := _onResult (EC := Sample.codec) 0 data Sample.busy in
  JsMap.get 0 (table w') = None /\
  trace (host w')
  = trace (host Sample.busy)
      ++ [EvClearTimeout 3; EvReject 0 (ForeignError "ExtensionError" "failed")].
Proof.
  apply (onResult_error_first (EC := Sample.codec) 0
           (mkResponse (Some (JStr "pong")) (Some (JStr "failed")))
           (Invocation.mk 0 0 (Some 10000) "a" true (Some 3)) Sample.busy);
    reflexivity.
Defined.

Lemma invoke_disconnected_witness :
  let '(p, w') := invoke "c" JNull (Some 3000) (Some 10000) Sample.gone in
  p = nextPromise (host Sample.gone) /\
  this w' = this Sample.gone /\
  _invocationId (this w') = _invocationId (this Sample.gone) /\
  table w' = table Sample.gone /\
  timers (host w') = timers (host Sample.gone) /\
  nextTimer (host w') = nextTimer (host Sample.gone) /\
  trace (host w')
  = trace (host Sample.gone) ++ [EvReject p (NewError "Port is disconnected (c)")].
Proof.
  apply (invoke_disconnected "c" JNull (Some 3000) (Some 10000)
           Sample.gone).
  reflexivity.
Defined.

End HandlerFacts.

(** ** The life of a channel *)
Module ChannelFacts.
Import JsMapFacts LedgerFacts CrossFrameAPIPort PortFacts HandlerFacts.

Lemma tracked_view w : JsMap.values (Ledger.entries (Ledger.view w)) = tracked w.
Proof. unfold Ledger.view, tracked. proj. apply values_fmap. Qed.

Lemma table_wf w : Ledger.Inv (Ledger.view w) -> JsMap.wf (table w).
Proof.
  intros [Hwf _ _ _ _ _]. unfold JsMap.wf in *.
  unfold Ledger.view in Hwf. proj. by rewrite keys_fmap in Hwf.
Qed.

Lemma settled_rejected text m :
  settled_in (flat_map (Outcome.rejected (NotError text)) (JsMap.values m))
  = map Invocation.promise (JsMap.values m).
Proof.
  induction m as [|[k inv] m IH]; simpl; [done|].
  unfold settled_in in *. rewrite flat_map_app, IH.
  unfold Outcome.rejected, Outcome.cleared. by destruct (Invocation.timer inv).
Qed.

(** The loop of [_onDisconnect]: every invocation of the table is
    rejected, in the order of the table, and the table ends empty. *)
Lemma onErrors_all text m :
  forall w, table w = m -> JsMap.wf m ->
  let w' := fold_left (fun w id => _onError id (NotError text) w) (JsMap.keys m) w in
  table w' = [] /\
  trace (host w')
  = trace (host w) ++ flat_map (Outcome.rejected (NotError text)) (JsMap.values m) /\
  _port (this w') = _port (this w) /\
  _eventMap (this w') = _eventMap (this w).
Proof.
  induction m as [|[k inv] m IH]; intros w Hm Hwf; simpl.
  - by rewrite app_nil_r.
  - apply NoDup_cons in Hwf as [Hk Hwf].
    assert (Hget : JsMap.get k (table w) = Some inv).
    { rewrite Hm. simpl. by rewrite N.eqb_refl. }
    destruct (onError_tracked k (NotError text) inv w Hget)
      as (Ht & Htr & Hp & He & _).
    assert (Hm' : table (_onError k (NotError text) w) = m).
    { rewrite Ht, Hm. simpl. rewrite N.eqb_refl.
      apply delete_absent. by apply get_None. }
    destruct (IH _ Hm' Hwf) as (Ht' & Htr' & Hp' & He').
    rewrite Ht', Htr', Hp', He', Htr, Hp, He. by rewrite <- app_assoc.
Qed.

(** What [_onDisconnect] does to a channel that holds its port. *)
Lemma onDisconnect_open port w :
  _port (this w) = Some port -> JsMap.wf (table w) ->
  let w' := _onDisconnect w in
  table w' = [] /\ _port (this w') = None /\
  trace (host w')
  = trace (host w)
      ++ flat_map (Outcome.rejected (NotError "Disconnected")) (JsMap.values (table w))
      ++ [EvTrigger (_eventMap (this w))].
Proof.
  intros Hport Hwf. unfold _onDisconnect. rewrite Hport.
  set (w1 := set_port None _).
  assert (Hw1 : table w1 = table w) by done.
  destruct (onErrors_all "Disconnected" (table w) w1 Hw1 Hwf) as (Ht & Htr & Hp & He).
  change (JsMap.keys (_activeInvocations (this w1))) with (JsMap.keys (table w)).
  set (w2 := fold_left _ _ w1) in *. clearbody w2.
  unfold table in *. unfold trigger, emit, upd_host. proj.
  rewrite Htr, He, <- app_assoc. done.
Qed.

(** C7: [disconnect] on a channel rejects every invocation of its table,
    in the order of the table, each with an error whose message is
    "Disconnected" followed by the action, and leaves the table empty;
    then it notifies the registry, the one subscriber of the channel.
    On a channel that has lost its port already it does nothing, so that
    a second disconnect changes nothing, and whatever happens to the
    channel afterwards, from its own side or from the port, the registry
    has been notified once. *)
Theorem disconnect_rejects_all_notifies_once {EC : ErrorCodec}
    otherTabId otherFrameId port messageHandlers inputs more :
  let w := run inputs (boot otherTabId otherFrameId port messageHandlers) in
  let w' := disconnect w in
  table w' = [] /\
  _port (this w') = None /\
  trace (host w')
  = trace (host w)
      ++ match _port (this w) with
         | Some _ =>
             flat_map (Outcome.rejected (NotError "Disconnected"))
               (JsMap.values (table w))
               ++ [EvTrigger [RegistryOnDisconnect]]
         | None => []
         end /\
  settled w' = settled w ++ tracked w /\
  disconnect w' = w' /\
  triggers (run more w') = 1%nat.
Proof.
  intros w w'.
  assert (Hinv : Ledger.Inv (Ledger.view w)) by apply run_Inv, boot_Inv.
  assert (Hbase : table w' = [] /\ _port (this w') = None /\
            trace (host w')
            = trace (host w)
                ++ match _port (this w) with
                   | Some _ =>
                       flat_map (Outcome.rejected (NotError "Disconnected"))
                         (JsMap.values (table w))
                         ++ [EvTrigger [RegistryOnDisconnect]]
                   | None => []
                   end).
  { unfold w', disconnect. destruct (_port (this w)) as [p|] eqn:Hport.
    - assert (Hsubs : _eventMap (this w) = [RegistryOnDisconnect])
        by apply run_subscribers.
      rewrite <- Hsubs. apply (onDisconnect_open p); [done | by apply table_wf].
    - unfold _onDisconnect. rewrite Hport, app_nil_r. split; [|done].
      destruct Hinv as [_ _ _ Hclosed _ _].
      assert (He : Ledger.entries (Ledger.view w) = []).
      { apply Hclosed. unfold Ledger.view. proj. by rewrite Hport. }
      unfold Ledger.view in He. proj. by destruct (table w). }
  destruct Hbase as (Ht & Hp & Htr). split; [done|]. split; [done|]. split; [done|].
  split; [|split].
  - unfold settled. rewrite Htr. destruct (_port (this w)) eqn:Hport.
    + unfold settled_in at 1. rewrite !flat_map_app. fold (settled_in (trace (host w))).
      simpl. rewrite app_nil_r. f_equal. apply (settled_rejected "Disconnected").
    + rewrite app_nil_r.
      destruct Hinv as [_ _ _ Hclosed _ _].
      assert (He : Ledger.entries (Ledger.view w) = []).
      { apply Hclosed. unfold Ledger.view. proj. by rewrite Hport. }
      unfold tracked. unfold Ledger.view in He. proj.
      destruct (table w); [by rewrite app_nil_r | done].
  - unfold disconnect at 1, _onDisconnect. by rewrite Hp.
  - assert (Hinv' : Ledger.Inv (Ledger.view (run more w'))).
    { apply run_Inv. unfold w', disconnect. rewrite view_onDisconnect.
      by apply close_Inv. }
    destruct Hinv' as [_ _ _ _ Hnot _].
    unfold Ledger.view in Hnot. proj.
    by rewrite (run_closed more w' Hp) in Hnot.
Qed.

(** A promise that is settled in a state of a channel is settled once,
    whatever happens afterwards. *)
Lemma settled_for_good {EC : ErrorCodec} p w :
  Ledger.Inv (Ledger.view w) -> p ∈ settled w ->
  forall more, count_occ N.eq_dec (settled (run more w)) p = 1%nat.
Proof.
  intros Hinv Hp more.
  assert (Hinv' : Ledger.Inv (Ledger.view (run more w))) by by apply run_Inv.
  destruct Hinv' as [_ Hnd _ _ _ _]. apply NoDup_app in Hnd as (_ & _ & Hnd).
  change (Ledger.settled (Ledger.view (run more w))) with (settled (run more w)) in Hnd.
  pose proof (run_settled p more w Hp) as Hin.
  apply list_elem_of_In, (count_occ_In N.eq_dec) in Hin.
  apply NoDup_ListNoDup in Hnd.
  pose proof (proj1 (NoDup_count_occ N.eq_dec _) Hnd p) as Hle. lia.
Qed.

(** A state in which the ledger has settled the invocation of [id]: the
    id is not in the table, and its promise is settled for good. *)
Lemma settle_ends {EC : ErrorCodec} id inv w w' :
  Ledger.Inv (Ledger.view w) ->
  JsMap.get id (table w) = Some inv ->
  Ledger.view w' = Ledger.settle id (Ledger.view w) ->
  JsMap.get id (table w') = None /\
  forall more, count_occ N.eq_dec (settled (run more w')) (Invocation.promise inv) = 1%nat.
Proof.
  intros Hinv Hget Hview.
  assert (Hp : JsMap.get id (Ledger.entries (Ledger.view w)) = Some (Invocation.promise inv)).
  { unfold Ledger.view. proj. by rewrite get_fmap, Hget. }
  assert (Hinv' : Ledger.Inv (Ledger.view w')) by (rewrite Hview; by apply settle_Inv).
  unfold Ledger.settle in Hview. rewrite Hp in Hview. split.
  - assert (He : Ledger.entries (Ledger.view w')
                 = JsMap.delete id (Ledger.entries (Ledger.view w))) by by rewrite Hview.
    assert (Hnone : JsMap.get id (Ledger.entries (Ledger.view w')) = None)
      by (rewrite He; apply get_delete_eq).
    unfold Ledger.view in Hnone. proj. rewrite get_fmap in Hnone.
    by destruct (JsMap.get id (table w')).
  - apply settled_for_good; [done|].
    change (settled w') with (Ledger.settled (Ledger.view w')). rewrite Hview. cbn.
    apply elem_of_app. right. left.
Qed.

(** A state in which the ledger has dropped the invocation of [id]: the
    id is not in the table, and its promise is never settled. *)
Lemma drop_ends {EC : ErrorCodec} id inv w w' :
  Ledger.Inv (Ledger.view w) ->
  JsMap.get id (table w) = Some inv ->
  Ledger.view w' = Ledger.drop id (Ledger.view w) ->
  JsMap.get id (table w') = None /\
  forall more, count_occ N.eq_dec (settled (run more w')) (Invocation.promise inv) = 0%nat.
Proof.
  intros Hinv Hget Hview.
  assert (Hp : JsMap.get id (Ledger.entries (Ledger.view w)) = Some (Invocation.promise inv)).
  { unfold Ledger.view. proj. by rewrite get_fmap, Hget. }
  assert (Hinv' : Ledger.Inv (Ledger.view w')) by (rewrite Hview; by apply drop_Inv).
  split.
  - assert (Hnone : JsMap.get id (Ledger.entries (Ledger.view w')) = None)
      by (rewrite Hview; apply get_delete_eq).
    unfold Ledger.view in Hnone. proj. rewrite get_fmap in Hnone.
    by destruct (JsMap.get id (table w')).
  - assert (Hlost : Ledger.Lost (Invocation.promise inv) (Ledger.view w')).
    { destruct Hinv as [Hwf Hnd Hfresh _ _ _].
      destruct (values_delete _ _ _ Hwf Hp) as (l1 & l2 & E1 & E2).
      rewrite Hview. unfold Ledger.Lost, Ledger.drop.
      cbn [Ledger.entries Ledger.settled Ledger.next]. split.
      - apply Hfresh. rewrite E1. apply elem_of_app. left. apply elem_of_app. right. left.
      - rewrite E2. rewrite E1 in Hnd. rewrite <- !app_assoc in Hnd. cbn [app] in Hnd.
        apply NoDup_app in Hnd as (_ & Hl1 & Hnd). apply NoDup_cons in Hnd as [Hhere _].
        rewrite <- app_assoc. intros [Hin|Hin]%elem_of_app; [|done].
        apply (Hl1 _ Hin). left. }
    intros more. destruct (run_Lost _ more w' Hinv' Hlost) as [_ Hnot].
    apply count_occ_not_In. rewrite <- list_elem_of_In. intros Hin. apply Hnot.
    apply elem_of_app. by right.
Qed.

(** A disconnect takes every invocation out of the table and settles
    its promise. *)
Lemma close_ends {EC : ErrorCodec} id inv w :
  Ledger.Inv (Ledger.view w) ->
  JsMap.get id (table w) = Some inv ->
  JsMap.get id (table (disconnect w)) = None /\
  forall more,
    count_occ N.eq_dec (settled (run more (disconnect w))) (Invocation.promise inv) = 1%nat.
Proof.
  intros Hinv Hget.
  assert (Hinv' : Ledger.Inv (Ledger.view (disconnect w))).
  { unfold disconnect. rewrite view_onDisconnect. by apply close_Inv. }
  destruct (_port (this w)) as [port|] eqn:Hport.
  2:{ destruct Hinv as [_ _ _ Hclosed _ _].
      assert (He : Ledger.entries (Ledger.view w) = []).
      { apply Hclosed. unfold Ledger.view. proj. by rewrite Hport. }
      unfold Ledger.view in He. proj. destruct (table w); [done|done]. }
  destruct (onDisconnect_open port w Hport (table_wf w Hinv)) as (Ht & _ & Htr).
  unfold disconnect. split; [by rewrite Ht|].
  apply settled_for_good; [exact Hinv'|].
  unfold settled. rewrite Htr. rewrite app_assoc, settled_in_snoc.
  unfold settled_in at 1. rewrite flat_map_app.
  fold (settled_in (flat_map (Outcome.rejected (NotError "Disconnected"))
                      (JsMap.values (table w)))).
  rewrite settled_rejected. apply elem_of_app. left. apply elem_of_app. right.
  apply list_elem_of_fmap. exists inv. split; [done|].
  clear -Hget. induction (table w) as [|[k v] m IH]; [done|].
  cbn in Hget |- *. destruct (k =? id); [injection Hget as ->; left | right; by apply IH].
Qed.

(** C1, as the code has it: however a channel is used and whatever
    reaches it, no promise that [invoke] returned is settled twice, and
    a promise whose invocation is in the table has not been settled.
    For an invocation that the table holds, a result that carries its
    data, an error, the expiry of a timer of the id, a disconnect, and a
    second acknowledgement each take it out of the table and settle its
    promise, which from then on is settled exactly once whatever
    follows.  A result without its data takes an acknowledged
    invocation out of the table and throws before settling it: its
    promise is never settled.  A message or an error for an id that the
    table does not hold settles nothing.  So, as long as every message
    carries its data and the counter of ids is below 2^53, a promise
    whose invocation is no longer in the table has been settled exactly
    once. *)
Theorem invocation_settled_once {EC : ErrorCodec}
    otherTabId otherFrameId port messageHandlers inputs :
  let w := run inputs (boot otherTabId otherFrameId port messageHandlers) in
  let times p w' := count_occ N.eq_dec (settled w') p in
  let ended id p w' :=
    JsMap.get id (table w') = None /\ forall more, times p (run more w') = 1%nat in
  (forall p, (times p w <= 1)%nat) /\
  (forall p, p ∈ tracked w -> times p w = 0%nat) /\
  (forall id invocation,
     JsMap.get id (table w) = Some invocation ->
     let p := Invocation.promise invocation in
     (forall data, ended id p (_onResult id data w)) /\
     (forall error, ended id p (_onError id error w)) /\
     (forall h text,
        timers (host w) !! h = Some (OnErrorCallback id text) -> ended id p (fire h w)) /\
     ended id p (disconnect w) /\
     (Invocation.ack invocation = true -> ended id p (_onAck id w)) /\
     (Invocation.ack invocation = false -> ended id p (_onResult_undefined id w)) /\
     (Invocation.ack invocation = true ->
      JsMap.get id (table (_onResult_undefined id w)) = None /\
      forall more, times p (run more (_onResult_undefined id w)) = 0%nat)) /\
  (forall id data error,
     JsMap.get id (table w) = None ->
     settled (_onAck id w) = settled w /\
     settled (_onResult id data w) = settled w /\
     settled (_onResult_undefined id w) = settled w /\
     _onError id error w = w) /\
  (forallb well_typed inputs = true ->
   _invocationId (this w) < 2 ^ 53 ->
   forall p, p < nextPromise (host w) -> p ∉ tracked w -> times p w = 1%nat).
Proof.
  intros w times ended.
  assert (Hinv : Ledger.Inv (Ledger.view w)) by apply run_Inv, boot_Inv.
  pose proof Hinv as [_ Hnd Hfresh Hclosed _ _].
  rewrite tracked_view in *.
  change (Ledger.settled (Ledger.view w)) with (settled w) in *.
  apply NoDup_app in Hnd as (_ & Hdisj & Hnd).
  assert (Hle : forall p, (count_occ N.eq_dec (settled w) p <= 1)%nat).
  { apply (NoDup_count_occ N.eq_dec). by apply NoDup_ListNoDup. }
  split; [done|]. split; [|split; [|split]].
  - intros p Hp. apply count_occ_not_In. rewrite <- list_elem_of_In. by apply Hdisj.
  - intros id inv Hget p.
    assert (Herror : forall error, ended id p (_onError id error w)).
    { intros error. apply (settle_ends id inv w); [done | done | apply view_onError]. }
    split; [|split; [done|split; [|split; [|split; [|split]]]]].
    + intros data. apply (settle_ends id inv w); [done | done |].
      by apply (view_onResult_tracked id data inv).
    + intros h text Hh. apply (settle_ends id inv w); [done | done |].
      unfold fire. rewrite Hh. rewrite view_onError. f_equal; by view_norm.
    + apply (close_ends id inv w Hinv Hget).
    + intros Hack. replace (_onAck id w)
        with (_onError id (NotError ("Request " ++ pretty id ++ " already acknowledged")) w);
        [apply Herror|].
      unfold _onAck. unfold table in Hget. by rewrite Hget, Hack.
    + intros Hack. replace (_onResult_undefined id w)
        with (_onError id (NotError ("Request " ++ pretty id ++ " not acknowledged")) w);
        [apply Herror|].
      unfold _onResult_undefined. unfold table in Hget. by rewrite Hget, Hack.
    + intros Hack. apply (drop_ends id inv w); [done | done |].
      unfold _onResult_undefined. unfold table in Hget. rewrite Hget, Hack. cbn [negb].
      rewrite view_throw_TypeError.
      destruct (Invocation.timer inv); rewrite ?view_clearTimeout;
        unfold Ledger.drop; view_norm; by rewrite fmap_delete.
  - intros id data error Hget. split; [|split; [|split]].
    + rewrite onAck_untracked by done. unfold settled, log_warn, emit, upd_host. proj.
      rewrite settled_in_snoc. simpl. by rewrite app_nil_r.
    + rewrite onResult_untracked by done. unfold settled, log_warn, emit, upd_host. proj.
      rewrite settled_in_snoc. simpl. by rewrite app_nil_r.
    + unfold _onResult_undefined. unfold table in Hget. rewrite Hget.
      unfold settled, log_warn, emit, upd_host. proj.
      rewrite settled_in_snoc. simpl. by rewrite app_nil_r.
    + by apply onError_untracked.
  - intros Htyped Hctr p Hp Hnt.
    assert (Hcomp : Ledger.Complete (Ledger.view w)).
    { apply run_Complete; [done | apply boot_Inv | apply boot_Complete]. }
    specialize (Hcomp Hctr p Hp). rewrite tracked_view in Hcomp.
    apply elem_of_app in Hcomp as [?|Hin]; [done|].
    apply list_elem_of_In, (count_occ_In N.eq_dec) in Hin.
    change (Ledger.settled (Ledger.view w)) with (settled w) in Hin.
    specialize (Hle p). unfold times. lia.
Qed.

(** C2, as the code has it: [_onInvoke] first looks the action up in the
    table of handlers; then it posts the acknowledgement, if the channel
    holds its port, whatever the lookup gave and whether or not
    [postMessage] throws; and only then it posts the error for an unknown
    action, or calls the handler and posts its response when the handler
    completes at once. *)
Theorem onInvoke_lookup_ack_handler {EC : ErrorCodec} id action params w :
  let port := _port (this w) in
  trace (host (snd (_onInvoke id action params w)))
  = trace (host w)
      ++ EvHandlerLookup action
      :: Outcome.posted port (AckMessage id)
      ++ match _messageHandlers w !! action with
         | None =>
             Outcome.posted port
               (ResultMessage id
                  (mkResponse None
                     (Some (serialize (NewError ("Unknown action: " ++ action))))))
         | Some messageHandler =>
             EvHandlerCall params (messageHandler params)
             :: match messageHandler params with
                | Completed data => Outcome.posted port (ResultMessage id data)
                | Pending => []
                end
         end.
Proof.
  unfold _onInvoke, _sendAck, _sendError, _sendResult, invokeMessageHandler,
    _sendResponse, Outcome.posted.
  destruct (_messageHandlers w !! action) as [h|]; [destruct (h params)|];
    destruct (_port (this w)) as [p|] eqn:Hport;
    unfold_prims; proj; repeat (rewrite Hport; proj); rewrite <- ?app_assoc; done.
Qed.

(** C2, as the claim has it, fails: on a channel that holds its port the
    lookup comes first and the acknowledgement second, and on a channel
    that has lost its port no acknowledgement is posted at all. *)
Lemma onInvoke_ack_not_first :
  ~ ack_first (EC := Sample.codec) 7 "ping" JNull Sample.channel /\
  ~ ack_first (EC := Sample.codec) 7 "ping" JNull Sample.gone.
Proof.
  split; intros (thrown & rest & E); vm_compute in E; discriminate E.
Qed.

Lemma invocation_settled_once_witness :
  let w := run (EC := Sample.codec)
             [CallInvoke "ping" JNull (Some 100) (Some 200);
              PortMessage (AckMessage 0)]
             Sample.channel in
  let w' := _onResult (EC := Sample.codec) 0 Sample.pong w in
  JsMap.get 0 (table w') = None /\
  count_occ N.eq_dec
    (settled (run (EC := Sample.codec)
                [PortMessage (ResultMessage 0 Sample.pong); PortMessage (AckMessage 0)] w'))
    0
  = 1%nat.
Proof.
  pose proof (invocation_settled_once (EC := Sample.codec) 1 2 Sample.port
                (<["ping" := Sample.ping]> ∅)
                [CallInvoke "ping" JNull (Some 100) (Some 200);
                 PortMessage (AckMessage 0)]) as (_ & _ & Hpaths & _).
  destruct (Hpaths 0 (Invocation.mk 0 0 (Some 200) "ping" true (Some 2)) eq_refl)
    as (Hresult & _).
  destruct (Hresult Sample.pong) as (Hgone & Honce).
  split; [exact Hgone | apply Honce].
Defined.

(** C1, as the claim has it, fails: a result without its data for an
    acknowledged invocation takes the invocation out of the table and
    clears its timer, and throws before it settles the promise.  The
    promise that [invoke] returned is then settled by nothing that
    follows. *)
Lemma result_without_data_never_settles :
  let w := run (EC := Sample.codec)
             [CallInvoke "ping" JNull (Some 100) (Some 200);
              PortMessage (AckMessage 0);
              PortMessage (BareResultMessage 0)]
             Sample.channel in
  0 < nextPromise (host w) /\
  table w = [] /\
  timers (host w) = ∅ /\
  forall more,
    count_occ N.eq_dec (settled (run (EC := Sample.codec) more w)) 0 = 0%nat.
Proof.
  cbv zeta. split; [reflexivity|]. split; [reflexivity|]. split; [reflexivity|].
  intros more.
  set (w := run _ Sample.channel).
  assert (Hinv : Ledger.Inv (Ledger.view w)) by apply run_Inv, boot_Inv.
  assert (Hlost : Ledger.Lost 0 (Ledger.view w)).
  { split; [reflexivity|]. intros Hin. vm_compute in Hin. by apply elem_of_nil in Hin. }
  destruct (run_Lost (EC := Sample.codec) 0 more w Hinv Hlost) as [_ Hnot].
  apply count_occ_not_In. rewrite <- list_elem_of_In. intros Hin. apply Hnot.
  apply elem_of_app. by right.
Qed.

End ChannelFacts.

(** ** The registry *)
Module RegistryFacts.
Import CrossFrameAPI.

Lemma set_messageHandlers_same s :
  set_messageHandlers (_messageHandlers (self s)) s = s.
Proof. by destruct s as [[] ? ? ? ? ? ?]. Qed.

(** C8: registering a handler under a name that the table holds throws
    and leaves the store as it is, the handler of that name with it;
    unregistering a name that the table does not hold gives [false] and
    leaves the store as it is; unregistering a name that the table holds
    gives [true] and removes its entry. *)
Theorem register_twice_unregister_absent key s :
  (forall h value rest,
     handlers s !! key = Some h ->
     registerHandlers ((key, value) :: rest) s
     = (Some (NewError ("Handler " ++ key ++ " is already registered")), s)) /\
  (handlers s !! key = None -> unregisterHandler key s = (false, s)) /\
  (forall h,
     handlers s !! key = Some h ->
     exists s',
       unregisterHandler key s = (true, s') /\
       handlers s' = delete key (handlers s) /\
       handlers s' !! key = None).
Proof.
  unfold handlers. split; [|split].
  - intros h value rest Hh. simpl. by rewrite Hh.
  - intros Hnone. unfold unregisterHandler. rewrite Hnone.
    rewrite (delete_id _ _ Hnone), set_messageHandlers_same.
    by rewrite bool_decide_eq_false_2 by (intros [? ?]; done).
  - intros h Hh. unfold unregisterHandler. rewrite Hh.
    rewrite bool_decide_eq_true_2 by eauto.
    eexists. split; [reflexivity|]. simpl. split; [done|]. apply lookup_delete_eq.
Qed.

Lemma register_twice_unregister_absent_witness :
  registerHandlers [("a", Sample.ping)] Sample.registry
  = (Some (NewError "Handler a is already registered"), Sample.registry) /\
  unregisterHandler "b" Sample.registry = (false, Sample.registry) /\
  fst (unregisterHandler "a" Sample.registry) = true.
Proof.
  destruct (register_twice_unregister_absent "a" Sample.registry) as (Hr & _ & Hu).
  destruct (register_twice_unregister_absent "b" Sample.registry) as (_ & Hn & _).
  split; [|split].
  - apply (Hr Sample.ping). reflexivity.
  - apply Hn. reflexivity.
  - destruct (Hu Sample.ping) as (s' & -> & _); reflexivity.
Defined.

(** C9: when the names before position k of the list are new and
    pairwise distinct, and the name at position k is in the table or
    among them, [registerHandlers] throws at position k, naming that
    name; the pairs before it are in the table afterwards, and the other
    names of the table are as they were. *)
Theorem registerHandlers_not_atomic pre key value post s :
  NoDup pre.*1 ->
  (forall k, k ∈ pre.*1 -> handlers s !! k = None) ->
  is_Some (handlers s !! key) \/ key ∈ pre.*1 ->
  exists s',
    registerHandlers (pre ++ (key, value) :: post) s
    = (Some (NewError ("Handler " ++ key ++ " is already registered")), s') /\
    (forall k h, (k, h) ∈ pre -> handlers s' !! k = Some h) /\
    (forall k, k ∉ pre.*1 -> handlers s' !! k = handlers s !! k).
Proof.
  unfold handlers. revert s.
  induction pre as [|[k0 h0] pre IH]; intros s Hnd Hnew Hkey; simpl.
  - destruct Hkey as [[h Hh]|Hin]; [|by apply elem_of_nil in Hin].
    rewrite Hh. exists s. split; [done|]. split; [|done].
    intros k h' Hin. by apply elem_of_nil in Hin.
  - simpl in Hnd. apply NoDup_cons in Hnd as [Hk0 Hnd].
    rewrite (Hnew k0) by apply list_elem_of_here.
    set (s1 := set_messageHandlers _ s).
    assert (Hs1 : _messageHandlers (self s1) = <[k0 := h0]> (_messageHandlers (self s)))
      by done.
    destruct (IH s1) as (s' & E & Hpre & Hrest); [done | |  |].
    + intros k Hk. rewrite Hs1, lookup_insert_ne.
      * apply Hnew. by apply list_elem_of_further.
      * intros ->. done.
    + rewrite Hs1. destruct (decide (key = k0)) as [->|Hne].
      * left. rewrite lookup_insert_eq. eauto.
      * rewrite lookup_insert_ne by done.
        destruct Hkey as [?|Hin]; [by left|].
        simpl in Hin. apply elem_of_cons in Hin as [?|?]; [done | by right].
    + exists s'. split; [done|]. split.
      * intros k h Hin. apply elem_of_cons in Hin as [[= -> ->]|Hin]; [|by apply Hpre].
        rewrite Hrest, Hs1 by done. apply lookup_insert_eq.
      * intros k Hk. simpl in Hk. apply not_elem_of_cons in Hk as [Hne Hk].
        rewrite Hrest, Hs1 by done. by rewrite lookup_insert_ne.
Qed.

Lemma registerHandlers_not_atomic_witness :
  exists s',
    registerHandlers
      ([("x", Sample.ping); ("y", Sample.ping)] ++ ("a", Sample.ping) :: [("z", Sample.ping)])
      Sample.registry
    = (Some (NewError "Handler a is already registered"), s') /\
    (forall k h, (k, h) ∈ [("x", Sample.ping); ("y", Sample.ping)] ->
       handlers s' !! k = Some h) /\
    (forall k, k ∉ ["x"; "y"] -> handlers s' !! k = handlers Sample.registry !! k).
Proof.
  apply (registerHandlers_not_atomic [("x", Sample.ping); ("y", Sample.ping)] "a"
           Sample.ping [("z", Sample.ping)] Sample.registry).
  - simpl. apply NoDup_cons. split.
    + intros Hin. apply list_elem_of_singleton in Hin. discriminate Hin.
    + apply NoDup_singleton.
  - intros k Hk. simpl in Hk.
    apply elem_of_cons in Hk as [->|Hk]; [reflexivity|].
    apply list_elem_of_singleton in Hk as ->. reflexivity.
  - left. exists Sample.ping. reflexivity.
Defined.



End RegistryFacts.

(** ** The wiring of a channel stays as it is *)
Module WiringFacts.
Import JsMapFacts CrossFrameAPIPort PortFacts.

Lemma same_refl w : Wiring.same w w.
Proof. by repeat split. Qed.

Lemma same_trans w1 w2 w3 : Wiring.same w1 w2 -> Wiring.same w2 w3 -> Wiring.same w1 w3.
Proof.
  intros (A1 & A2 & A3 & A4) (B1 & B2 & B3 & B4).
  repeat split; congruence.
Qed.

(** The services of the host and the writes to the table or to the
    counter leave the wiring alone. *)
Lemma same_emit e w : Wiring.same w (emit e w).
Proof. by repeat split. Qed.

Lemma same_clearTimeout h w : Wiring.same w (clearTimeout h w).
Proof. by repeat split. Qed.

Lemma same_setTimeout cb delay w : Wiring.same w (snd (setTimeout cb delay w)).
Proof.
  unfold setTimeout. destruct (setTimeout_throws (host w)); by repeat split.
Qed.

Lemma same_postMessage port m w : Wiring.same w (snd (postMessage port m w)).
Proof. by repeat split. Qed.

Lemma same_table f w : Wiring.same w (upd_activeInvocations f w).
Proof. by repeat split. Qed.

Lemma same_onError id e w : Wiring.same w (_onError id e w).
Proof.
  unfold _onError.
  destruct (JsMap.get id (_activeInvocations (this w))) as [inv|]; [|apply same_refl].
  cbv zeta. eapply same_trans; [|apply same_emit].
  destruct (Invocation.timer inv).
  - eapply same_trans; [apply same_table | apply same_clearTimeout].
  - apply same_table.
Qed.

Lemma same_onAck id w : Wiring.same w (_onAck id w).
Proof.
  unfold _onAck.
  destruct (JsMap.get id (_activeInvocations (this w))) as [inv|];
    [|apply same_emit].
  destruct (Invocation.ack inv); [apply same_onError|].
  set (w1 := match Invocation.timer inv with Some h => _ | None => _ end).
  assert (H1 : Wiring.same w w1).
  { unfold w1, mutate. destruct (Invocation.timer inv).
    - eapply same_trans; [|apply same_table].
      eapply same_trans; [|apply same_clearTimeout]. apply same_table.
    - apply same_table. }
  clearbody w1. destruct (Invocation.responseTimeout inv) as [rt|]; [|done].
  pose proof (same_setTimeout (OnErrorCallback id "Response timeout") rt w1) as H2.
  destruct (setTimeout _ rt w1) as [[h|] w2]; cbn [snd] in H2.
  - eapply same_trans; [|apply same_table]. by eapply same_trans.
  - eapply same_trans; [|apply same_onError]. by eapply same_trans.
Qed.

Section Methods.
Context {EC : ErrorCodec}.

Lemma same_onResult id data w : Wiring.same w (_onResult id data w).
Proof.
  unfold _onResult.
  destruct (JsMap.get id (_activeInvocations (this w))) as [inv|];
    [|apply same_emit].
  destruct (negb (Invocation.ack inv)); [apply same_onError|]. cbv zeta.
  assert (H1 : Wiring.same w
            match Invocation.timer inv with
            | Some h => clearTimeout h (upd_activeInvocations (JsMap.delete id) w)
            | None => upd_activeInvocations (JsMap.delete id) w
            end).
  { destruct (Invocation.timer inv).
    - eapply same_trans; [apply same_table | apply same_clearTimeout].
    - apply same_table. }
  destruct (error data); (eapply same_trans; [exact H1 | apply same_emit]).
Qed.

Lemma same_onResult_undefined id w : Wiring.same w (_onResult_undefined id w).
Proof.
  unfold _onResult_undefined.
  destruct (JsMap.get id (_activeInvocations (this w))) as [inv|];
    [|apply same_emit].
  destruct (negb (Invocation.ack inv)); [apply same_onError|]. cbv zeta.
  eapply same_trans; [|apply same_emit].
  destruct (Invocation.timer inv).
  - eapply same_trans; [apply same_table | apply same_clearTimeout].
  - apply same_table.
Qed.

Lemma same_sendResponse m w : Wiring.same w (_sendResponse m w).
Proof.
  unfold _sendResponse. destruct (_port (this w)); [|apply same_refl].
  apply same_postMessage.
Qed.

Lemma same_onInvoke id action params w :
  Wiring.same w (snd (_onInvoke id action params w)).
Proof.
  unfold _onInvoke, _sendAck, _sendError, _sendResult, invokeMessageHandler.
  assert (H1 : Wiring.same w (_sendResponse (AckMessage id) (emit (EvHandlerLookup action) w))).
  { eapply same_trans; [apply same_emit | apply same_sendResponse]. }
  destruct (_messageHandlers w !! action) as [h|]; [destruct (h params)|]; cbn [snd].
  - eapply same_trans; [|apply same_sendResponse].
    eapply same_trans; [exact H1 | apply same_emit].
  - eapply same_trans; [exact H1 | apply same_emit].
  - eapply same_trans; [exact H1 | apply same_sendResponse].
Qed.

Lemma same_onMessage details w : Wiring.same w (_onMessage details w).
Proof.
  destruct details; simpl.
  - apply same_onInvoke.
  - apply same_onAck.
  - apply same_onResult.
  - apply same_refl.
  - apply same_emit.
  - apply same_onResult_undefined.
Qed.

End Methods.

Lemma same_fire h w : Wiring.same w (fire h w).
Proof.
  unfold fire. destruct (timers (host w) !! h) as [[id text]|]; [|apply same_refl].
  eapply same_trans; [|apply same_onError]. by repeat split.
Qed.

Lemma same_invoke action params ackTimeout responseTimeout w :
  Wiring.same w (snd (invoke action params ackTimeout responseTimeout w)).
Proof.
  unfold invoke, newPromise. cbv zeta.
  set (w0 := upd_host _ w).
  assert (H0 : Wiring.same w w0) by by repeat split.
  change (_port (this w0)) with (_port (this w)).
  destruct (_port (this w)) as [port|]; cbn [snd].
  2:{ eapply same_trans; [exact H0 | apply same_emit]. }
  set (id := _invocationId (this w0)).
  set (w1 := upd_activeInvocations _ _).
  assert (H1 : Wiring.same w w1).
  { eapply same_trans; [exact H0|]. eapply same_trans; [|apply same_table].
    by repeat split. }
  clearbody w1. clear H0. clearbody w0.
  assert (Hsend : forall w2, Wiring.same w w2 ->
            Wiring.same w
              match postMessage port (InvokeMessage id action params) w2 with
              | (Some e, w) => _onError id e w
              | (None, w) => w
              end).
  { intros w2 H2.
    pose proof (same_postMessage port (InvokeMessage id action params) w2) as H3.
    destruct (postMessage port _ w2) as [[e|] w3]; cbn [snd] in H3.
    - eapply same_trans; [|apply same_onError]. by eapply same_trans.
    - by eapply same_trans. }
  destruct ackTimeout as [t|]; cbn [snd]; [|by apply Hsend].
  pose proof (same_setTimeout (OnErrorCallback id "Acknowledgement timeout") t w1) as H2.
  destruct (setTimeout _ t w1) as [[h|] w2]; cbn [snd] in *.
  - apply Hsend. eapply same_trans; [|apply same_table]. by eapply same_trans.
  - eapply same_trans; [|apply same_onError]. by eapply same_trans.
Qed.

Lemma same_onErrors text ids w :
  Wiring.same w (fold_left (fun w id => _onError id (NotError text) w) ids w).
Proof.
  revert w. induction ids as [|id ids IH]; intros w; simpl; [apply same_refl|].
  eapply same_trans; [apply same_onError | apply IH].
Qed.

(** What [_onDisconnect] does to the wiring of a channel that holds its
    port: the port and the listeners go, and the subscribers join those
    waiting to be run. *)
Lemma onDisconnect_wiring port w :
  _port (this w) = Some port ->
  let w' := _onDisconnect w in
  Wiring.wiring (this w')
  = (_otherTabId (this w), _otherFrameId (this w), None, [], _eventMap (this w)) /\
  _messageHandlers w' = _messageHandlers w /\
  notifications (host w') = notifications (host w) ++ _eventMap (this w) /\
  setTimeout_throws (host w') = setTimeout_throws (host w).
Proof.
  intros Hport. unfold _onDisconnect. rewrite Hport.
  set (w1 := set_port None _).
  destruct (same_onErrors "Disconnected" (JsMap.keys (_activeInvocations (this w1))) w1)
    as (A1 & A2 & A3 & A4).
  set (w2 := fold_left _ _ w1) in *. clearbody w2.
  unfold Wiring.wiring in A1. injection A1 as B1 B2 B3 B4 B5.
  unfold Wiring.wiring, trigger, emit, upd_host.
  cbn [this host _messageHandlers notifications setTimeout_throws].
  rewrite B1, B2, B3, B4, B5, A2, A3, A4. done.
Qed.

Lemma onDisconnect_closed w : _port (this w) = None -> _onDisconnect w = w.
Proof. unfold _onDisconnect. by intros ->. Qed.


Lemma onDisconnect_twice w : _onDisconnect (_onDisconnect w) = _onDisconnect w.
Proof.
  destruct (_port (this w)) as [port|] eqn:Hport.
  - destruct (onDisconnect_wiring port w Hport) as (Hw & _).
    apply onDisconnect_closed. unfold Wiring.wiring in Hw.
    injection Hw as _ _ Hp _ _. exact Hp.
  - rewrite (onDisconnect_closed w Hport). apply (onDisconnect_closed w Hport).
Qed.

Lemma same_stays w w' : Wiring.same w w' -> Wiring.stays w w'.
Proof.
  unfold Wiring.same, Wiring.wiring, Wiring.stays. intros (E & _ & En & _).
  injection E as E1 E2 E3 E4 E5. rewrite E1, E2, E3, E5, En. by repeat split.
Qed.

Lemma stays_refl w : Wiring.stays w w.
Proof. apply same_stays, same_refl. Qed.

Lemma deliver_same l f w :
  (forall w, Wiring.same w (f w)) -> Wiring.same w (deliver l f w).
Proof.
  intros Hf. unfold deliver. generalize (_eventListeners (this w)) as ls.
  intros ls. revert w. induction ls as [|l' ls IH]; intros w; simpl; [apply same_refl|].
  destruct l, l'; try apply IH; (eapply same_trans; [apply Hf | apply IH]).
Qed.

Lemma deliver_onDisconnect w :
  deliver OnDisconnectListener _onDisconnect w = w \/
  deliver OnDisconnectListener _onDisconnect w = _onDisconnect w.
Proof.
  unfold deliver. generalize (_eventListeners (this w)) as ls.
  intros ls. revert w. induction ls as [|l' ls IH]; intros w; simpl; [by left|].
  destruct l'; [|apply IH].
  right. destruct (IH (_onDisconnect w)) as [->| ->]; [done | apply onDisconnect_twice].
Qed.

Section Steps.
Context {EC : ErrorCodec}.

(** Whatever happens to a channel leaves it wired as it was, or makes it
    let go of its port. *)
Lemma step_wiring w i : Wiring.stays w (step w i) \/ Wiring.closes w (step w i).
Proof.
  assert (Hclose : forall w, Wiring.stays w (_onDisconnect w)
                             \/ Wiring.closes w (_onDisconnect w)).
  { intros w0. destruct (_port (this w0)) as [port|] eqn:Hport.
    - right. destruct (onDisconnect_wiring port w0 Hport) as (Hw & _ & Hn & _).
      split; [by rewrite Hport|]. by split.
    - left. rewrite onDisconnect_closed by done. apply stays_refl. }
  destruct i; simpl.
  - left. unfold prepare. destruct (_port (this w)) eqn:Hport; simpl.
    + unfold Wiring.stays. unfold_prims. proj. rewrite Hport. by repeat split.
    + apply stays_refl.
  - left. apply same_stays, same_invoke.
  - apply Hclose.
  - left. apply same_stays, deliver_same, same_onMessage.
  - destruct (deliver_onDisconnect w) as [->| ->]; [left; apply stays_refl | apply Hclose].
  - left. apply same_stays, same_fire.
  - left. apply same_stays, same_sendResponse.
  - left. unfold Wiring.stays. unfold_prims. proj. by repeat split.
  - left. destruct (_port (this w)) eqn:Hport; [|apply stays_refl].
    unfold Wiring.stays. unfold_prims. proj. rewrite Hport.
    repeat split; eauto; done.
  - left. unfold Wiring.stays. by repeat split.
Qed.


Lemma step_deaf w i : Wiring.deaf w -> Wiring.deaf (step w i).
Proof.
  intros Hw. unfold Wiring.deaf in *.
  destruct (step_wiring w i) as [(_ & _ & _ & Hp & Hl & _)|(_ & Hw' & _)].
  - intros Hnone. assert (Hn : _port (this w) = None).
    { destruct (_port (this w)) eqn:E; [|done].
      assert (Hs : is_Some (_port (this (step w i)))) by (apply Hp; eauto).
      rewrite Hnone in Hs. by destruct Hs. }
    rewrite (Hl Hn). by apply Hw.
  - intros _. unfold Wiring.wiring in Hw'. by simplify_eq.
Qed.

Lemma run_deaf inputs w : Wiring.deaf w -> Wiring.deaf (run inputs w).
Proof.
  unfold run. revert w. induction inputs as [|i inputs IH]; simpl; [done|].
  intros w Hw. by apply IH, step_deaf.
Qed.

Lemma same_listening w w' :
  Wiring.same w w' -> Wiring.listening (this w) -> Wiring.listening (this w').
Proof.
  intros (Hw & _) Hl. unfold Wiring.listening, Wiring.wiring in *.
  injection Hw as _ _ -> ->. exact Hl.
Qed.

Lemma onDisconnect_listening w :
  Wiring.listening (this w) -> Wiring.listening (this (_onDisconnect w)).
Proof.
  intros Hl. destruct (_port (this w)) as [port|] eqn:Hport.
  - destruct (onDisconnect_wiring port w Hport) as (Hw & _).
    unfold Wiring.wiring in Hw. injection Hw as _ _ Hp _ _.
    unfold Wiring.listening. rewrite Hp. by intros [? ?].
  - by rewrite onDisconnect_closed.
Qed.

Lemma deliver_settled ls w :
  _onDisconnect w = w ->
  fold_left
    (fun w l' => match l' with OnDisconnectListener => _onDisconnect w | _ => w end)
    ls w = w.
Proof.
  intros Hw. induction ls as [|l' ls IH]; [done|].
  cbn [fold_left]. destruct l'; [by rewrite Hw | done].
Qed.

(** The disconnect of the port reaches a channel that listens to it. *)
Lemma deliver_listening w :
  OnDisconnectListener ∈ _eventListeners (this w) ->
  deliver OnDisconnectListener _onDisconnect w = _onDisconnect w.
Proof.
  unfold deliver. generalize (_eventListeners (this w)) as ls.
  intros ls. revert w. induction ls as [|l' ls IH]; intros w Hin; [by inversion Hin|].
  cbn [fold_left]. destruct l'.
  - apply (deliver_settled ls (_onDisconnect w)), onDisconnect_twice.
  - apply IH. by inversion Hin.
Qed.

Lemma step_listening w i :
  Wiring.listening (this w) -> Wiring.listening (this (step w i)).
Proof.
  intros Hl. destruct i; cbn [step].
  - unfold prepare. destruct (_port (this w)) eqn:Hport; [|done].
    unfold Wiring.listening. cbn. intros _. apply elem_of_app. right. left.
  - eapply same_listening; [apply same_invoke | done].
  - by apply onDisconnect_listening.
  - eapply same_listening; [apply deliver_same, same_onMessage | done].
  - destruct (deliver_onDisconnect w) as [->| ->]; [done|].
    by apply onDisconnect_listening.
  - eapply same_listening; [apply same_fire | done].
  - eapply same_listening; [apply same_sendResponse | done].
  - done.
  - unfold Wiring.listening in *. destruct (_port (this w)) eqn:Hport; [|by rewrite Hport].
    cbn. intros _. apply Hl. eauto.
  - done.
Qed.

(** X1: a channel that has lost its port is inert.  Messages and a
    disconnect of the port are not delivered to it, so that no
    acknowledgement is posted and no handler runs; [prepare] throws and
    attaches nothing; and the completion of a handler that was still
    running posts nothing. *)
Theorem disconnected_channel_inert
    otherTabId otherFrameId port messageHandlers inputs :
  let w := run inputs (boot otherTabId otherFrameId port messageHandlers) in
  _port (this w) = None ->
  (forall details, step w (PortMessage details) = w) /\
  step w PortDisconnected = w /\
  prepare w = (Some (NewError "Invalid state"), w) /\
  (forall id data, _sendResult id data w = w).
Proof.
  intros w Hport.
  assert (Hdeaf : Wiring.deaf w).
  { apply run_deaf. unfold Wiring.deaf, boot, prepare, constructor. simpl. done. }
  specialize (Hdeaf Hport).
  split; [|split; [|split]].
  - intros details. simpl. unfold deliver. by rewrite Hdeaf.
  - simpl. unfold deliver. by rewrite Hdeaf.
  - unfold prepare. by rewrite Hport.
  - intros id data. unfold _sendResult, _sendResponse. by rewrite Hport.
Qed.

End Steps.

Lemma disconnected_channel_inert_witness :
  let w := run (EC := Sample.codec)
             [CallInvoke "a" JNull (Some 3000) (Some 10000);
              PortMessage (AckMessage 0);
              CallDisconnect]
             (boot 1 2 Sample.port ∅) in
  (forall details, step (EC := Sample.codec) w (PortMessage details) = w) /\
  step (EC := Sample.codec) w PortDisconnected = w /\
  prepare w = (Some (NewError "Invalid state"), w) /\
  (forall id data, _sendResult id data w = w).
Proof.
  apply (disconnected_channel_inert (EC := Sample.codec) 1 2 Sample.port ∅
           [CallInvoke "a" JNull (Some 3000) (Some 10000);
            PortMessage (AckMessage 0);
            CallDisconnect]).
  vm_compute. reflexivity.
Defined.

End WiringFacts.

(** ** The timers of a channel are those of its invocations *)
Module TimingFacts.
Import JsMapFacts LedgerFacts CrossFrameAPIPort PortFacts.

(** The entry of an id goes, or is replaced by one without a timer, and
    the timer it had is cleared. *)
Lemma timed_replace id m m2 ts nt :
  Timing.timed m ts nt ->
  (forall id', id' <> id -> JsMap.get id' m2 = JsMap.get id' m) ->
  (forall inv2, JsMap.get id m2 = Some inv2 -> Invocation.timer inv2 = None) ->
  Timing.timed m2 (Timing.drop (JsMap.get id m ≫= Invocation.timer) ts) nt.
Proof.
  intros (Harmed & Htracked & Hfresh) Hother Hnone.
  set (old := JsMap.get id m ≫= Invocation.timer).
  assert (Hold : forall h, old = Some h ->
            exists inv, JsMap.get id m = Some inv /\ Invocation.timer inv = Some h).
  { unfold old. intros h. destruct (JsMap.get id m) as [inv|]; [|done].
    intros Ht. exists inv. by split. }
  assert (Hnold : forall inv, JsMap.get id m = Some inv -> old = Invocation.timer inv).
  { unfold old. by intros inv ->. }
  clearbody old.
  assert (Hsub : forall h cb,
            Timing.drop old ts !! h = Some cb -> ts !! h = Some cb /\ old <> Some h).
  { intros h cb. unfold Timing.drop. destruct old as [h0|].
    - intros [Hne Hl]%lookup_delete_Some. split; [done | congruence].
    - done. }
  split; [|split].
  - intros h cb Hl. apply Hsub in Hl as [Hl Hne].
    destruct (Harmed h cb Hl) as (id' & inv' & -> & Hget & Ht).
    exists id', inv'. split; [done|]. split; [|done].
    rewrite Hother; [done|]. intros ->. apply Hnold in Hget. congruence.
  - intros id' inv' h Hget Ht.
    assert (Hne : id' <> id).
    { intros ->. apply Hnone in Hget. congruence. }
    rewrite Hother in Hget by done.
    pose proof (Htracked _ _ _ Hget Ht) as Hl.
    unfold Timing.drop. destruct old as [h0|]; [|done].
    rewrite lookup_delete_ne; [done|]. intros ->.
    destruct (Hold h eq_refl) as (inv0 & Hget0 & Ht0).
    pose proof (Htracked _ _ _ Hget0 Ht0) as Hl0. congruence.
  - intros h [cb Hl]. apply Hsub in Hl as [Hl _]. apply Hfresh. eauto.
Qed.

(** The invocation of an id, which has no timer, gets the next one. *)
Lemma timed_arm id inv m m2 ts nt :
  Timing.timed m ts nt ->
  JsMap.get id m = Some inv ->
  Invocation.timer inv = None ->
  (forall id', id' <> id -> JsMap.get id' m2 = JsMap.get id' m) ->
  JsMap.get id m2 = Some (Invocation.with_timer (Some nt) inv) ->
  Timing.timed m2 (<[nt := OnErrorCallback id (Timing.due inv)]> ts) (nt + 1).
Proof.
  intros (Harmed & Htracked & Hfresh) Hget Hnone Hother Hget2.
  split; [|split].
  - intros h cb Hl. apply lookup_insert_Some in Hl as [[<- <-]|[Hne Hl]].
    + exists id, (Invocation.with_timer (Some nt) inv). done.
    + destruct (Harmed h cb Hl) as (id' & inv' & -> & Hget' & Ht).
      exists id', inv'. split; [done|]. split; [|done].
      rewrite Hother; [done|]. intros ->. congruence.
  - intros id' inv' h Hget' Ht. destruct (decide (id' = id)) as [->|Hne].
    + rewrite Hget2 in Hget'. injection Hget' as <-. cbn in Ht.
      injection Ht as <-. apply lookup_insert_eq.
    + rewrite Hother in Hget' by done.
      pose proof (Htracked _ _ _ Hget' Ht) as Hl.
      rewrite lookup_insert_ne; [done|]. intros <-.
      assert (nt < nt) by (apply Hfresh; eauto). lia.
  - intros h [cb Hl]. apply lookup_insert_Some in Hl as [[<- _]|[_ Hl]]; [lia|].
    assert (h < nt) by (apply Hfresh; eauto). lia.
Qed.

Lemma timed_delete id m ts nt :
  Timing.timed m ts nt ->
  Timing.timed (JsMap.delete id m)
    (Timing.drop (JsMap.get id m ≫= Invocation.timer) ts) nt.
Proof.
  intros Ht. apply (timed_replace id m); [done | |].
  - intros id' Hne. by apply get_delete_ne.
  - intros inv2. by rewrite get_delete_eq.
Qed.

Lemma Timed_onError id e w : Timing.Timed w -> Timing.Timed (_onError id e w).
Proof.
  unfold Timing.Timed, _onError, table. intros Ht.
  destruct (JsMap.get id (_activeInvocations (this w))) as [inv|] eqn:Hget; [|done].
  pose proof (timed_delete id _ _ _ Ht) as Hd. rewrite Hget in Hd. simpl in Hd.
  destruct (Invocation.timer inv); unfold_prims; proj; exact Hd.
Qed.

Lemma Timed_onErrors text ids w :
  Timing.Timed w ->
  Timing.Timed (fold_left (fun w id => _onError id (NotError text) w) ids w).
Proof.
  revert w. induction ids as [|id ids IH]; simpl; [done|].
  intros w Hw. by apply IH, Timed_onError.
Qed.

Lemma Timed_onDisconnect w : Timing.Timed w -> Timing.Timed (_onDisconnect w).
Proof.
  intros Hw. unfold _onDisconnect. destruct (_port (this w)); [|done].
  set (w1 := set_port None _).
  assert (Hw1 : Timing.Timed w1) by exact Hw.
  apply (Timed_onErrors "Disconnected" (JsMap.keys (_activeInvocations (this w1))))
    in Hw1.
  set (w2 := fold_left _ _ w1) in *. clearbody w2. exact Hw1.
Qed.

(** The first acknowledgement of an invocation: what the table and the
    timers are once the acknowledgement is marked and the timer of the
    acknowledgement cleared. *)
Lemma timed_acknowledge id inv m ts nt :
  Timing.timed m ts nt ->
  JsMap.get id m = Some inv ->
  let m2 :=
    match Invocation.timer inv with
    | Some _ =>
        JsMap.alter (Invocation.with_timer None) id
          (JsMap.alter (Invocation.with_ack true) id m)
    | None => JsMap.alter (Invocation.with_ack true) id m
    end in
  let inv2 := Invocation.with_timer None (Invocation.with_ack true inv) in
  JsMap.get id m2 = Some inv2 /\
  (forall id', id' <> id -> JsMap.get id' m2 = JsMap.get id' m) /\
  Timing.timed m2 (Timing.drop (Invocation.timer inv) ts) nt.
Proof.
  intros Ht Hget m2 inv2.
  assert (Hget2 : JsMap.get id m2 = Some inv2).
  { unfold m2, inv2. destruct (Invocation.timer inv) eqn:Htm.
    - by rewrite !get_alter_eq, Hget.
    - rewrite get_alter_eq, Hget. simpl. f_equal. destruct inv; simpl in *. by subst. }
  assert (Hother : forall id', id' <> id -> JsMap.get id' m2 = JsMap.get id' m).
  { intros id' Hne. unfold m2. destruct (Invocation.timer inv);
      by rewrite ?get_alter_ne by done. }
  split; [done|]. split; [done|].
  pose proof (timed_replace id m m2 ts nt Ht Hother) as Hr.
  rewrite Hget in Hr. simpl in Hr. apply Hr.
  intros inv' Hi. rewrite Hget2 in Hi. by simplify_eq.
Qed.

Lemma Timed_onAck id w : Timing.Timed w -> Timing.Timed (_onAck id w).
Proof.
  intros Hw. unfold _onAck.
  destruct (JsMap.get id (_activeInvocations (this w))) as [inv|] eqn:Hget;
    [|exact Hw].
  destruct (Invocation.ack inv) eqn:Hack; [by apply Timed_onError|].
  destruct (timed_acknowledge id inv _ _ _ Hw Hget) as (Hget2 & Hother & Ht2).
  set (w1 := match Invocation.timer inv with Some h => _ | None => _ end).
  assert (Hw1 : Timing.Timed w1 /\
            table w1
            = match Invocation.timer inv with
              | Some _ =>
                  JsMap.alter (Invocation.with_timer None) id
                    (JsMap.alter (Invocation.with_ack true) id (table w))
              | None => JsMap.alter (Invocation.with_ack true) id (table w)
              end /\
            setTimeout_throws (host w1) = setTimeout_throws (host w)).
  { unfold w1, Timing.Timed, table. destruct (Invocation.timer inv);
      unfold_prims; proj; done. }
  destruct Hw1 as (Hw1 & Htab & Hthrows). clearbody w1.
  destruct (Invocation.responseTimeout inv) as [rt|]; [|exact Hw1].
  unfold setTimeout. destruct (setTimeout_throws (host w1)).
  { by apply Timed_onError. }
  unfold Timing.Timed in *. unfold_prims. proj. unfold table in *. proj.
  rewrite Htab in *.
  eapply (timed_arm id (Invocation.with_timer None (Invocation.with_ack true inv)));
    [exact Hw1 | exact Hget2 | done | |].
  - intros id' Hne. by rewrite get_alter_ne.
  - by rewrite get_alter_eq, Hget2.
Qed.

Section Methods.
Context {EC : ErrorCodec}.

Lemma Timed_onResult id data w : Timing.Timed w -> Timing.Timed (_onResult id data w).
Proof.
  intros Hw. unfold _onResult.
  destruct (JsMap.get id (_activeInvocations (this w))) as [inv|] eqn:Hget;
    [|exact Hw].
  destruct (negb (Invocation.ack inv)); [by apply Timed_onError|].
  pose proof (timed_delete id _ _ _ Hw) as Hd. unfold table in Hd.
  rewrite Hget in Hd. simpl in Hd.
  unfold Timing.Timed, table.
  destruct (Invocation.timer inv), (error data); unfold_prims; proj; exact Hd.
Qed.

Lemma Timed_onResult_undefined id w :
  Timing.Timed w -> Timing.Timed (_onResult_undefined id w).
Proof.
  intros Hw. unfold _onResult_undefined.
  destruct (JsMap.get id (_activeInvocations (this w))) as [inv|] eqn:Hget;
    [|exact Hw].
  destruct (negb (Invocation.ack inv)); [by apply Timed_onError|].
  pose proof (timed_delete id _ _ _ Hw) as Hd. unfold table in Hd.
  rewrite Hget in Hd. simpl in Hd.
  unfold Timing.Timed, table.
  destruct (Invocation.timer inv); unfold_prims; proj; exact Hd.
Qed.

Lemma Timed_sendResponse m w : Timing.Timed w -> Timing.Timed (_sendResponse m w).
Proof. unfold _sendResponse. by destruct (_port (this w)). Qed.

Lemma Timed_onMessage details w : Timing.Timed w -> Timing.Timed (_onMessage details w).
Proof.
  intros Hw. destruct details; simpl.
  - unfold _onInvoke, _sendAck, _sendError, _sendResult, invokeMessageHandler.
    destruct (_messageHandlers w !! action) as [h|]; [destruct (h params)|]; simpl;
      repeat apply Timed_sendResponse; exact Hw.
  - by apply Timed_onAck.
  - by apply Timed_onResult.
  - done.
  - done.
  - by apply Timed_onResult_undefined.
Qed.

End Methods.

Lemma Timed_fire h w : Timing.Timed w -> Timing.Timed (fire h w).
Proof.
  intros Hw. unfold fire.
  destruct (timers (host w) !! h) as [[id text]|] eqn:Hl; [|done].
  destruct Hw as (Harmed & Htracked & Hfresh).
  destruct (Harmed _ _ Hl) as (id' & inv & [= -> ->] & Hget & Htm).
  pose proof (timed_delete id' _ _ _ (conj Harmed (conj Htracked Hfresh))) as Hd.
  rewrite Hget in Hd. simpl in Hd. rewrite Htm in Hd. simpl in Hd.
  unfold Timing.Timed, _onError, table in *. unfold_prims. proj. rewrite Hget, Htm.
  unfold_prims. proj. by rewrite delete_delete_eq.
Qed.

(** [invoke] keeps the timers in step with the table, provided the id
    it gives out is not in the table. *)
Lemma Timed_invoke action params ackTimeout responseTimeout w :
  JsMap.get (_invocationId (this w)) (table w) = None ->
  Timing.Timed w ->
  Timing.Timed (snd (invoke action params ackTimeout responseTimeout w)).
Proof.
  intros Hnew Hw. unfold invoke, newPromise. cbv zeta.
  set (w0 := upd_host _ w).
  assert (Hw0 : Timing.Timed w0) by exact Hw.
  change (_port (this w0)) with (_port (this w)).
  destruct (_port (this w)) as [port|] eqn:Hport; cbn [snd]; [|exact Hw0].
  change (JsMap.get (_invocationId (this w0)) (table w0) = None) in Hnew.
  set (id := _invocationId (this w0)) in *.
  set (inv0 := Invocation.mk id (nextPromise (host w)) responseTimeout action false None).
  set (w1 := upd_activeInvocations _ _).
  assert (Hw1 : Timing.Timed w1).
  { pose proof (timed_replace id _ (JsMap.set id inv0 (table w0)) _ _ Hw0) as Hr.
    rewrite Hnew in Hr. apply Hr.
    - intros id' Hne. by apply get_set_ne.
    - intros inv2. rewrite get_set_eq. by intros [= <-]. }
  assert (Hget1 : JsMap.get id (table w1) = Some inv0) by apply get_set_eq.
  clearbody w1. clearbody id. clear Hw Hw0 Hnew. clearbody w0.
  assert (Hsend : forall w2, Timing.Timed w2 ->
            Timing.Timed
              match postMessage port (InvokeMessage id action params) w2 with
              | (Some e, w) => _onError id e w
              | (None, w) => w
              end).
  { intros w2 Hw2. unfold postMessage.
    destruct (postMessage_throws port _); [by apply Timed_onError | exact Hw2]. }
  destruct ackTimeout as [t|]; cbn [snd]; [|by apply Hsend].
  unfold setTimeout. destruct (setTimeout_throws (host w1)); cbn [snd].
  { by apply Timed_onError. }
  apply Hsend. clear Hsend.
  unfold Timing.Timed, table, mutate, emit, upd_activeInvocations, upd_host, upd_this.
  cbn [this host _activeInvocations timers nextTimer].
  eapply (timed_arm id inv0); [exact Hw1 | exact Hget1 | done | |].
  - intros id' Hne. by rewrite get_alter_ne.
  - unfold table in Hget1. by rewrite get_alter_eq, Hget1.
Qed.

Lemma js_incr_le n : n <= js_incr n.
Proof. unfold js_incr. destruct (n <? 2 ^ 53); lia. Qed.

Section Runs.
Context {EC : ErrorCodec}.

(** The counter of ids never goes down. *)
Lemma run_counter inputs w :
  _invocationId (this w) <= _invocationId (this (run inputs w)).
Proof.
  apply (run_keeps (fun a => _invocationId (this w) <= Ledger.counter a));
    [| | | | |simpl; lia].
  - intros id a. unfold Ledger.settle. by destruct (JsMap.get id (Ledger.entries a)).
  - intros a _ Ha. simpl. pose proof (js_incr_le (Ledger.counter a)). lia.
  - done.
  - intros a Ha. unfold Ledger.close. destruct (Ledger.open a); [|done].
    unfold Ledger.notify. cbn [Ledger.counter].
    by destruct (settles_frame (JsMap.keys (Ledger.entries a)) (Ledger.with_open false a))
      as (_ & _ & _ & -> & _).
  - done.
Qed.

Lemma deliver_Timed l f w :
  (forall w, Timing.Timed w -> Timing.Timed (f w)) ->
  Timing.Timed w -> Timing.Timed (deliver l f w).
Proof.
  intros Hf. unfold deliver. generalize (_eventListeners (this w)) as ls.
  intros ls. revert w. induction ls as [|l' ls IH]; simpl; [done|].
  intros w Hw. apply IH. destruct l, l'; auto.
Qed.

Lemma step_Timed w i :
  Ledger.Inv (Ledger.view w) ->
  _invocationId (this w) < 2 ^ 53 ->
  Timing.Timed w -> Timing.Timed (step w i).
Proof.
  intros Hinv Hctr Hw. destruct i; simpl.
  - unfold prepare. by destruct (_port (this w)).
  - apply Timed_invoke; [|done].
    destruct Hinv as [_ _ _ _ _ Hcomp]. pose proof (Hcomp Hctr) as Hk.
    apply get_None. intros Hin.
    assert (Hlt : _invocationId (this w) < _invocationId (this w)); [|lia].
    apply (Hk (_invocationId (this w))).
    unfold Ledger.view. cbn [Ledger.entries]. by rewrite keys_fmap.
  - by apply Timed_onDisconnect.
  - apply deliver_Timed; [|done]. intros w'. apply Timed_onMessage.
  - apply deliver_Timed; [|done]. intros w'. apply Timed_onDisconnect.
  - by apply Timed_fire.
  - by apply Timed_sendResponse.
  - exact Hw.
  - by destruct (_port (this w)).
  - exact Hw.
Qed.

Lemma run_Timed inputs w :
  Ledger.Inv (Ledger.view w) ->
  Timing.Timed w ->
  _invocationId (this (run inputs w)) < 2 ^ 53 ->
  Timing.Timed (run inputs w).
Proof.
  revert w. induction inputs as [|i inputs IH]; intros w Hinv Hw Hctr; [done|].
  change (run (i :: inputs) w) with (run inputs (step w i)) in *.
  apply IH; [| |done].
  - apply (run_Inv [i]). exact Hinv.
  - apply step_Timed; [done| |done].
    pose proof (run_counter inputs (step w i)).
    pose proof (run_counter [i] w) as H1. change (run [i] w) with (step w i) in H1. lia.
Qed.

Lemma boot_Timed otherTabId otherFrameId port messageHandlers :
  Timing.Timed (boot otherTabId otherFrameId port messageHandlers).
Proof.
  unfold Timing.Timed, Timing.timed, boot, prepare, constructor. cbn.
  split; [|split].
  - intros h cb Hl. by rewrite lookup_empty in Hl.
  - intros id inv h Hget. done.
  - intros h [cb Hl]. by rewrite lookup_empty in Hl.
Qed.

(** X2: as long as the counter of ids is below 2^53, the timers that
    are armed are exactly the timers of the invocations in the table:
    every armed timer belongs to an invocation of the table, carries its
    id, and carries the text of the acknowledgement timeout while the
    invocation is not acknowledged and of the response timeout once it
    is; and the timer of every invocation of the table is armed. *)
Theorem timers_are_those_of_invocations
    otherTabId otherFrameId port messageHandlers inputs :
  let w := run inputs (boot otherTabId otherFrameId port messageHandlers) in
  _invocationId (this w) < 2 ^ 53 ->
  (forall h id text,
     timers (host w) !! h = Some (OnErrorCallback id text) ->
     exists invocation,
       JsMap.get id (table w) = Some invocation /\
       Invocation.timer invocation = Some h /\
       text = if Invocation.ack invocation
              then "Response timeout" else "Acknowledgement timeout") /\
  (forall id invocation h,
     JsMap.get id (table w) = Some invocation ->
     Invocation.timer invocation = Some h ->
     timers (host w) !! h
     = Some (OnErrorCallback id
               (if Invocation.ack invocation
                then "Response timeout" else "Acknowledgement timeout"))).
Proof.
  intros w Hctr.
  assert (Ht : Timing.Timed w).
  { apply run_Timed; [apply boot_Inv | apply boot_Timed | exact Hctr]. }
  destruct Ht as (Harmed & Htracked & _). split.
  - intros h id text Hl.
    destruct (Harmed _ _ Hl) as (id' & inv & [= -> ->] & Hget & Htm).
    by exists inv.
  - exact Htracked.
Qed.

(** X3: as long as the counter of ids is below 2^53, a timer that
    expires rejects the promise of the invocation it belongs to, with
    "Acknowledgement timeout" and the action if the invocation is not
    acknowledged, with "Response timeout" and the action if it is; the
    invocation leaves the table. *)
Theorem timer_expiry_rejects
    otherTabId otherFrameId port messageHandlers inputs h id text :
  let w := run inputs (boot otherTabId otherFrameId port messageHandlers) in
  _invocationId (this w) < 2 ^ 53 ->
  timers (host w) !! h = Some (OnErrorCallback id text) ->
  exists invocation,
    JsMap.get id (table w) = Some invocation /\
    text = (if Invocation.ack invocation
            then "Response timeout" else "Acknowledgement timeout") /\
    let w' := step w (TimerFired h) in
    trace (host w')
    = trace (host w)
        ++ [EvClearTimeout h;
            EvReject (Invocation.promise invocation)
              (NewError (text ++ " (" ++ Invocation.action invocation ++ ")"))] /\
    JsMap.get id (table w') = None /\
    timers (host w') = delete h (timers (host w)).
Proof.
  intros w Hctr Hl.
  assert (Ht : Timing.Timed w).
  { apply run_Timed; [apply boot_Inv | apply boot_Timed | exact Hctr]. }
  destruct Ht as (Harmed & _ & _).
  destruct (Harmed _ _ Hl) as (id' & inv & [= -> ->] & Hget & Htm).
  exists inv. split; [done|]. split; [done|].
  cbn [step]. unfold fire. rewrite Hl. unfold _onError, table in *.
  cbn [this host upd_host _activeInvocations]. rewrite Hget, Htm.
  unfold reject, clearTimeout, emit, upd_activeInvocations, upd_host, upd_this.
  cbn [this host _activeInvocations trace timers].
  split; [by rewrite <- app_assoc|]. split; [apply get_delete_eq|].
  apply delete_delete_eq.
Qed.

(** X4: as long as the counter of ids is below 2^53, a channel whose
    table is empty has no timer armed; in particular no timer is left
    after a disconnect, so nothing expires later. *)
Theorem no_timer_without_invocation
    otherTabId otherFrameId port messageHandlers inputs :
  let w := run inputs (boot otherTabId otherFrameId port messageHandlers) in
  _invocationId (this w) < 2 ^ 53 ->
  (table w = [] -> timers (host w) = ∅) /\
  timers (host (disconnect w)) = ∅.
Proof.
  intros w Hctr.
  assert (Hinv : Ledger.Inv (Ledger.view w)) by apply run_Inv, boot_Inv.
  assert (Ht : Timing.Timed w).
  { apply run_Timed; [apply boot_Inv | apply boot_Timed | exact Hctr]. }
  assert (Hempty : forall w0, Timing.Timed w0 -> table w0 = [] -> timers (host w0) = ∅).
  { intros w0 (Harmed & _ & _) Htab. apply map_empty. intros h.
    destruct (timers (host w0) !! h) as [cb|] eqn:Hl; [|done].
    destruct (Harmed _ _ Hl) as (id & inv & _ & Hget & _).
    rewrite Htab in Hget. done. }
  split; [by apply Hempty|].
  apply Hempty; [by apply Timed_onDisconnect|].
  assert (Hinv' : Ledger.Inv (Ledger.view (disconnect w))).
  { unfold disconnect. rewrite view_onDisconnect. by apply close_Inv. }
  destruct Hinv' as [_ _ _ Hclosed _ _].
  assert (He : Ledger.entries (Ledger.view (disconnect w)) = []).
  { apply Hclosed. unfold disconnect. rewrite view_onDisconnect.
    unfold Ledger.close. destruct (Ledger.open (Ledger.view w)) eqn:Ho; [|done].
    unfold Ledger.notify. cbn [Ledger.open]. by rewrite settles_with_open. }
  unfold Ledger.view in He. cbn [Ledger.entries] in He.
  by destruct (table (disconnect w)).
Qed.

End Runs.

Lemma timers_are_those_of_invocations_witness :
  let w := run (EC := Sample.codec)
             [CallInvoke "a" JNull (Some 3000) (Some 10000);
              CallInvoke "b" JNull (Some 3000) (Some 10000);
              PortMessage (AckMessage 0)]
             (boot 1 2 Sample.port ∅) in
  timers (host w) !! 3 = Some (OnErrorCallback 0 "Response timeout") /\
  timers (host w) !! 2 = Some (OnErrorCallback 1 "Acknowledgement timeout").
Proof.
  destruct (timers_are_those_of_invocations (EC := Sample.codec) 1 2 Sample.port ∅
              [CallInvoke "a" JNull (Some 3000) (Some 10000);
               CallInvoke "b" JNull (Some 3000) (Some 10000);
               PortMessage (AckMessage 0)]) as [_ Htracked];
    [vm_compute; reflexivity|].
  split.
  - apply (Htracked 0 (Invocation.mk 0 0 (Some 10000) "a" true (Some 3)) 3);
      vm_compute; reflexivity.
  - apply (Htracked 1 (Invocation.mk 1 1 (Some 10000) "b" false (Some 2)) 2);
      vm_compute; reflexivity.
Defined.

Lemma timer_expiry_rejects_witness :
  let w := run (EC := Sample.codec)
             [CallInvoke "a" JNull (Some 3000) (Some 10000);
              CallInvoke "b" JNull (Some 3000) (Some 10000);
              PortMessage (AckMessage 0)]
             (boot 1 2 Sample.port ∅) in
  exists invocation,
    JsMap.get 1 (table w) = Some invocation /\
    "Acknowledgement timeout"
    = (if Invocation.ack invocation
       then "Response timeout" else "Acknowledgement timeout") /\
    let w' := step (EC := Sample.codec) w (TimerFired 2) in
    trace (host w')
    = trace (host w)
        ++ [EvClearTimeout 2;
            EvReject (Invocation.promise invocation)
              (NewError ("Acknowledgement timeout" ++ " ("
                         ++ Invocation.action invocation ++ ")"))] /\
    JsMap.get 1 (table w') = None /\
    timers (host w') = delete 2 (timers (host w)).
Proof.
  apply (timer_expiry_rejects (EC := Sample.codec) 1 2 Sample.port ∅
           [CallInvoke "a" JNull (Some 3000) (Some 10000);
            CallInvoke "b" JNull (Some 3000) (Some 10000);
            PortMessage (AckMessage 0)] 2 1 "Acknowledgement timeout");
    vm_compute; reflexivity.
Defined.

Lemma no_timer_without_invocation_witness :
  let w := run (EC := Sample.codec)
             [CallInvoke "a" JNull (Some 3000) (Some 10000);
              CallInvoke "b" JNull (Some 3000) (Some 10000);
              PortMessage (AckMessage 0)]
             (boot 1 2 Sample.port ∅) in
  (table w = [] -> timers (host w) = ∅) /\
  timers (host (disconnect w)) = ∅.
Proof.
  apply (no_timer_without_invocation (EC := Sample.codec) 1 2 Sample.port ∅
           [CallInvoke "a" JNull (Some 3000) (Some 10000);
            CallInvoke "b" JNull (Some 3000) (Some 10000);
            PortMessage (AckMessage 0)]).
  vm_compute. reflexivity.
Defined.

End TimingFacts.

(** ** What [invoke] and the first acknowledgement do *)
Module EffectFacts.
Import JsMapFacts LedgerFacts CrossFrameAPIPort PortFacts TimingFacts.

Ltac expose :=
  unfold reject, resolve, log_warn, clearTimeout, mutate, emit,
    upd_activeInvocations, set_invocationId, upd_host, upd_this, table;
  cbn [this host _messageHandlers _port _activeInvocations _invocationId
       _eventListeners _eventMap _otherTabId _otherFrameId timers nextTimer
       setTimeout_throws nextPromise notifications trace fst snd].

(** X5: [invoke] on a channel that holds its port, when the timer can be
    armed and the message is accepted: the promise returned is a new
    one and is not settled; the invocation is in the table under the id
    that the counter held, not acknowledged, with the timer of the
    acknowledgement if one was asked for; the counter moves on; the
    timer is armed before the message [invoke] is posted, and nothing
    else happens; the other invocations are as they were. *)
Theorem invoke_tracks_and_sends action params ackTimeout responseTimeout port w :
  _port (this w) = Some port ->
  setTimeout_throws (host w) = false ->
  postMessage_throws port (InvokeMessage (_invocationId (this w)) action params)
  = None ->
  let id := _invocationId (this w) in
  let h := nextTimer (host w) in
  let p := nextPromise (host w) in
  let w' := snd (invoke action params ackTimeout responseTimeout w) in
  fst (invoke action params ackTimeout responseTimeout w) = p /\
  _invocationId (this w') = js_incr id /\
  JsMap.get id (table w')
  = Some (Invocation.mk id p responseTimeout action false
            (match ackTimeout with Some _ => Some h | None => None end)) /\
  (forall id', id' <> id -> JsMap.get id' (table w') = JsMap.get id' (table w)) /\
  trace (host w')
  = trace (host w)
      ++ match ackTimeout with
         | Some t => [EvSetTimeout h (OnErrorCallback id "Acknowledgement timeout") t]
         | None => []
         end
      ++ [EvPostMessage (InvokeMessage id action params) None] /\
  timers (host w')
  = match ackTimeout with
    | Some _ => <[h := OnErrorCallback id "Acknowledgement timeout"]> (timers (host w))
    | None => timers (host w)
    end.
Proof.
  intros Hport Hok Hpost id h p w'.
  destruct ackTimeout as [t|].
  - eassert (E : invoke action params (Some t) responseTimeout w = _).
    { unfold invoke, newPromise, setTimeout, postMessage. expose.
      rewrite Hport. cbv zeta. expose. rewrite Hok. expose. rewrite Hpost.
      expose. reflexivity. }
    subst w'. rewrite E. expose.
    split; [done|]. split; [done|]. split.
    { by rewrite get_alter_eq, get_set_eq. }
    split.
    { intros id' Hne. by rewrite get_alter_ne, get_set_ne. }
    split; [by rewrite <- app_assoc | done].
  - eassert (E : invoke action params None responseTimeout w = _).
    { unfold invoke, newPromise, postMessage. expose.
      rewrite Hport. cbv zeta. expose. rewrite Hpost. expose. reflexivity. }
    subst w'. rewrite E. expose.
    split; [done|]. split; [done|]. split; [apply get_set_eq|].
    split; [|done]. intros id' Hne. by apply get_set_ne.
Qed.

Lemma invoke_tracks_and_sends_witness :
  let w' := snd (invoke "ping" JNull (Some 3000) (Some 10000) Sample.channel) in
  fst (invoke "ping" JNull (Some 3000) (Some 10000) Sample.channel) = 0 /\
  _invocationId (this w') = 1 /\
  JsMap.get 0 (table w')
  = Some (Invocation.mk 0 0 (Some 10000) "ping" false (Some 1)) /\
  trace (host w')
  = [EvSetTimeout 1 (OnErrorCallback 0 "Acknowledgement timeout") 3000;
     EvPostMessage (InvokeMessage 0 "ping" JNull) None].
Proof.
  destruct (invoke_tracks_and_sends "ping" JNull (Some 3000) (Some 10000)
              Sample.port Sample.channel) as (H1 & H2 & H3 & _ & H5 & _);
    [reflexivity | reflexivity | reflexivity |].
  split; [exact H1|]. split; [exact H2|]. split; [exact H3 | exact H5].
Defined.

(** X6: when the port refuses the message, [invoke] rejects the promise
    it returns with the value thrown (wrapped in an [Error] with the
    action if it is not one), after clearing the timer it had armed; the
    id is not in the table afterwards, the other invocations are as they
    were, and the channel keeps its port. *)
Theorem invoke_send_failure action params ackTimeout responseTimeout port e w :
  _port (this w) = Some port ->
  setTimeout_throws (host w) = false ->
  postMessage_throws port (InvokeMessage (_invocationId (this w)) action params)
  = Some e ->
  let id := _invocationId (this w) in
  let h := nextTimer (host w) in
  let p := nextPromise (host w) in
  let w' := snd (invoke action params ackTimeout responseTimeout w) in
  JsMap.get id (table w') = None /\
  (forall id', id' <> id -> JsMap.get id' (table w') = JsMap.get id' (table w)) /\
  _port (this w') = Some port /\
  trace (host w')
  = trace (host w)
      ++ match ackTimeout with
         | Some t => [EvSetTimeout h (OnErrorCallback id "Acknowledgement timeout") t]
         | None => []
         end
      ++ [EvPostMessage (InvokeMessage id action params) (Some e)]
      ++ match ackTimeout with Some _ => [EvClearTimeout h] | None => [] end
      ++ [EvReject p
            match e with
            | IsError e => e
            | NotError text => NewError (text ++ " (" ++ action ++ ")")
            end].
Proof.
  intros Hport Hok Hpost id h p w'.
  destruct ackTimeout as [t|].
  - eassert (E : invoke action params (Some t) responseTimeout w = _).
    { unfold invoke, newPromise, setTimeout, postMessage. expose.
      rewrite Hport. cbv zeta. expose. rewrite Hok. expose. rewrite Hpost.
      unfold _onError. expose. rewrite get_alter_eq, get_set_eq.
      cbn [fmap option_fmap option_map].
      cbn [Invocation.with_timer Invocation.timer Invocation.promise Invocation.action].
      expose. reflexivity. }
    subst w'. rewrite E. expose.
    split; [apply get_delete_eq|]. split.
    { intros id' Hne. by rewrite get_delete_ne, get_alter_ne, get_set_ne. }
    split; [done|]. rewrite <- !app_assoc. by destruct e.
  - eassert (E : invoke action params None responseTimeout w = _).
    { unfold invoke, newPromise, postMessage. expose.
      rewrite Hport. cbv zeta. expose. rewrite Hpost.
      unfold _onError. expose. rewrite get_set_eq.
      cbn [Invocation.timer Invocation.promise Invocation.action].
      expose. reflexivity. }
    subst w'. rewrite E. expose.
    split; [apply get_delete_eq|]. split.
    { intros id' Hne. by rewrite get_delete_ne, get_set_ne. }
    split; [done|]. rewrite <- !app_assoc. by destruct e.
Qed.

(** X7: when [setTimeout] throws, [invoke] rejects the promise it
    returns with "Failed to set timeout" and the action, and returns
    without posting the message; the id is not in the table afterwards
    and the other invocations are as they were. *)
Theorem invoke_timer_failure action params t responseTimeout port w :
  _port (this w) = Some port ->
  setTimeout_throws (host w) = true ->
  let id := _invocationId (this w) in
  let p := nextPromise (host w) in
  let w' := snd (invoke action params (Some t) responseTimeout w) in
  JsMap.get id (table w') = None /\
  (forall id', id' <> id -> JsMap.get id' (table w') = JsMap.get id' (table w)) /\
  timers (host w') = timers (host w) /\
  trace (host w')
  = trace (host w)
      ++ [EvReject p (NewError ("Failed to set timeout" ++ " (" ++ action ++ ")"))].
Proof.
  intros Hport Hthrows id p w'.
  eassert (E : invoke action params (Some t) responseTimeout w = _).
  { unfold invoke, newPromise, setTimeout. expose.
    rewrite Hport. cbv zeta. expose. rewrite Hthrows. expose.
    unfold _onError. expose. rewrite get_set_eq.
    cbn [Invocation.timer Invocation.promise Invocation.action]. expose.
    reflexivity. }
  subst w'. rewrite E. expose.
  split; [apply get_delete_eq|]. split; [|done].
  intros id' Hne. by rewrite get_delete_ne, get_set_ne.
Qed.

(** X8: the first acknowledgement of an invocation, when the timer can
    be armed: the invocation stays in the table, acknowledged; the timer
    of the acknowledgement is cleared and, if the invocation has a
    response timeout, the timer of the response is armed in its place;
    no promise is settled and the other invocations are as they were. *)
Theorem onAck_first id invocation w :
  JsMap.get id (table w) = Some invocation ->
  Invocation.ack invocation = false ->
  setTimeout_throws (host w) = false ->
  let h := nextTimer (host w) in
  let w' := _onAck id w in
  JsMap.get id (table w')
  = Some (Invocation.mk (Invocation.id invocation) (Invocation.promise invocation)
            (Invocation.responseTimeout invocation) (Invocation.action invocation)
            true
            (match Invocation.responseTimeout invocation with
             | Some _ => Some h
             | None => None
             end)) /\
  (forall id', id' <> id -> JsMap.get id' (table w') = JsMap.get id' (table w)) /\
  trace (host w')
  = trace (host w)
      ++ Outcome.cleared invocation
      ++ match Invocation.responseTimeout invocation with
         | Some rt => [EvSetTimeout h (OnErrorCallback id "Response timeout") rt]
         | None => []
         end /\
  settled w' = settled w.
Proof.
  intros Hget Hack Hok h w'. unfold settled, Outcome.cleared.
  destruct invocation as [i p rt a k tm]. cbn in Hack. subst k.
  cbn [Invocation.timer Invocation.responseTimeout Invocation.id
       Invocation.promise Invocation.action].
  destruct tm as [h0|], rt as [r|];
    (eassert (E : _onAck id w = _);
     [unfold _onAck, setTimeout; unfold table in Hget; rewrite Hget;
      cbn [Invocation.ack Invocation.timer Invocation.responseTimeout];
      expose; rewrite ?Hok; expose; reflexivity|]);
    subst w'; rewrite E; expose;
    rewrite ?get_alter_eq; unfold table in Hget; rewrite ?Hget;
    cbn [fmap option_fmap option_map];
    (split; [reflexivity|]);
    (split; [intros id' Hne; repeat (rewrite get_alter_ne by done); reflexivity|]);
    (split; [by rewrite <- ?app_assoc, ?app_nil_r|]);
    rewrite ?settled_in_snoc; cbn [settled_in flat_map app];
    by rewrite ?app_nil_r.
Qed.

(** X9: when [setTimeout] throws at the first acknowledgement of an
    invocation that has a response timeout, the invocation is rejected
    with "Failed to set timeout" and the action, after the timer of the
    acknowledgement has been cleared, and it leaves the table. *)
Theorem onAck_timer_failure id invocation rt w :
  JsMap.get id (table w) = Some invocation ->
  Invocation.ack invocation = false ->
  Invocation.responseTimeout invocation = Some rt ->
  setTimeout_throws (host w) = true ->
  let w' := _onAck id w in
  JsMap.get id (table w') = None /\
  (forall id', id' <> id -> JsMap.get id' (table w') = JsMap.get id' (table w)) /\
  trace (host w')
  = trace (host w)
      ++ Outcome.cleared invocation
      ++ [EvReject (Invocation.promise invocation)
            (NewError ("Failed to set timeout" ++ " ("
                       ++ Invocation.action invocation ++ ")"))].
Proof.
  intros Hget Hack Hrt Hthrows w'. unfold Outcome.cleared.
  destruct invocation as [i p r a k tm]. cbn in Hack, Hrt. subst k r.
  cbn [Invocation.timer Invocation.responseTimeout Invocation.id
       Invocation.promise Invocation.action].
  destruct tm as [h0|];
    (eassert (E : _onAck id w = _);
     [unfold _onAck, setTimeout; unfold table in Hget; rewrite Hget;
      cbn [Invocation.ack Invocation.timer Invocation.responseTimeout];
      expose; rewrite Hthrows; unfold _onError; expose;
      rewrite ?get_alter_eq, ?Hget; cbn [fmap option_fmap option_map];
      cbn [Invocation.with_timer Invocation.with_ack Invocation.timer
           Invocation.promise Invocation.action];
      expose; reflexivity|]);
    subst w'; rewrite E; expose;
    (split; [apply get_delete_eq|]);
    (split; [intros id' Hne; rewrite get_delete_ne by done;
             repeat (rewrite get_alter_ne by done); reflexivity|]);
    by rewrite <- ?app_assoc.
Qed.

Lemma invoke_send_failure_witness :
  let w' := snd (invoke "ping" JNull (Some 3000) (Some 10000) Faulty.cut_off) in
  JsMap.get 0 (table w') = None /\
  _port (this w') = Some Faulty.broken /\
  trace (host w')
  = [EvSetTimeout 1 (OnErrorCallback 0 "Acknowledgement timeout") 3000;
     EvPostMessage (InvokeMessage 0 "ping" JNull)
       (Some (IsError (ForeignError "Error"
                         "Attempting to use a disconnected port object")));
     EvClearTimeout 1;
     EvReject 0 (ForeignError "Error" "Attempting to use a disconnected port object")].
Proof.
  destruct (invoke_send_failure "ping" JNull (Some 3000) (Some 10000) Faulty.broken
              (IsError (ForeignError "Error"
                          "Attempting to use a disconnected port object"))
              Faulty.cut_off) as (H1 & _ & H3 & H4);
    [reflexivity | reflexivity | reflexivity |].
  split; [exact H1|]. split; [exact H3 | exact H4].
Defined.

Lemma invoke_timer_failure_witness :
  let w' := snd (invoke "ping" JNull (Some 3000) (Some 10000) Faulty.clockless) in
  JsMap.get 0 (table w') = None /\
  trace (host w') = [EvReject 0 (NewError "Failed to set timeout (ping)")].
Proof.
  destruct (invoke_timer_failure "ping" JNull 3000 (Some 10000) Sample.port
              Faulty.clockless) as (H1 & _ & _ & H4);
    [reflexivity | reflexivity |].
  split; [exact H1 | exact H4].
Defined.

Lemma onAck_first_witness :
  let w' := _onAck 1 Sample.busy in
  JsMap.get 1 (table w')
  = Some (Invocation.mk 1 1 (Some 10000) "b" true (Some 4)) /\
  trace (host w')
  = trace (host Sample.busy)
      ++ [EvClearTimeout 2; EvSetTimeout 4 (OnErrorCallback 1 "Response timeout") 10000].
Proof.
  destruct (onAck_first 1 (Invocation.mk 1 1 (Some 10000) "b" false (Some 2))
              Sample.busy) as (H1 & _ & H3 & _);
    [reflexivity | reflexivity | reflexivity |].
  split; [exact H1 | exact H3].
Defined.

Lemma onAck_timer_failure_witness :
  let w' := _onAck 0 Faulty.stuck in
  JsMap.get 0 (table w') = None /\
  trace (host w')
  = trace (host Faulty.stuck)
      ++ [EvClearTimeout 1; EvReject 0 (NewError "Failed to set timeout (a)")].
Proof.
  destruct (onAck_timer_failure 0 (Invocation.mk 0 0 (Some 10000) "a" false (Some 1))
              10000 Faulty.stuck) as (H1 & _ & H3);
    [reflexivity | reflexivity | reflexivity | reflexivity |].
  split; [exact H1 | exact H3].
Defined.

End EffectFacts.

(** ** The registry stays tidy *)
Module RegistryInvariant.
Import CrossFrameAPI WiringFacts.

(** What [_setupCommPort] does, in one piece. *)
Lemma setupCommPort_eq otherTabId otherFrameId port s :
  _setupCommPort otherTabId otherFrameId port s
  = (inr (nextChannel s),
     mkStore
       (mk (_ackTimeout (self s)) (_responseTimeout (self s))
          (<[otherTabId :=
               <[otherFrameId := nextChannel s]>
                 (default ∅ (_commPorts (self s) !! otherTabId))]>
             (_commPorts (self s)))
          (_messageHandlers (self s)) (_tabId (self s)) (_frameId (self s)))
       (<[nextChannel s :=
            mkChannel
              (CrossFrameAPIPort.mk otherTabId otherFrameId (Some port) JsMap.empty 0
                 [OnDisconnectListener; OnMessageListener] [RegistryOnDisconnect])
              fresh_host]>
          (channels s))
       (nextChannel s + 1) (onConnectListeners s) (suspended s) (nextCall s)
       (events s)).
Proof.
  unfold _setupCommPort, CrossFrameAPIPort.prepare, CrossFrameAPIPort.constructor,
    CrossFrameAPIPort.on, CrossFrameAPIPort.set_eventMap,
    CrossFrameAPIPort.set_eventListeners, CrossFrameAPIPort.upd_this, set_commPorts,
    upd_self.
  cbn [CrossFrameAPIPort.this CrossFrameAPIPort.host CrossFrameAPIPort._port
       CrossFrameAPIPort._eventListeners CrossFrameAPIPort._eventMap
       CrossFrameAPIPort._otherTabId CrossFrameAPIPort._otherFrameId
       CrossFrameAPIPort._activeInvocations CrossFrameAPIPort._invocationId
       self channels nextChannel onConnectListeners suspended nextCall events
       _commPorts _messageHandlers _ackTimeout _responseTimeout _tabId _frameId app].
  by destruct (_commPorts (self s) !! otherTabId).
Qed.

Lemma registered_insert otherTabId otherFrameId r tab frame s m :
  _commPorts (self s)
  = <[otherTabId := <[otherFrameId := r]> (default ∅ (m !! otherTabId))]> m ->
  registered tab frame s
  = if decide (tab = otherTabId /\ frame = otherFrameId) then Some r
    else match m !! tab with Some tabPorts => tabPorts !! frame | None => None end.
Proof.
  intros Hm. unfold registered. rewrite Hm.
  destruct (decide (tab = otherTabId)) as [->|Hne].
  - rewrite lookup_insert_eq. destruct (decide (frame = otherFrameId)) as [->|Hnf].
    + rewrite lookup_insert_eq. by rewrite decide_True.
    + rewrite lookup_insert_ne by done. rewrite decide_False by (intros [_ ?]; done).
      destruct (m !! otherTabId); [done | apply lookup_empty].
  - rewrite lookup_insert_ne by done. by rewrite decide_False by (intros [? _]; done).
Qed.

Lemma Tidy_setup otherTabId otherFrameId port s :
  Registry.Tidy s ->
  Registry.Tidy (snd (_setupCommPort otherTabId otherFrameId port s)).
Proof.
  intros [Hpruned Hreg Hch]. rewrite setupCommPort_eq. cbn [snd].
  set (r := nextChannel s). constructor.
  - cbn [self _commPorts]. intros tab tabPorts Hl.
    apply lookup_insert_Some in Hl as [[<- <-]|[_ Hl]]; [|by eapply Hpruned].
    apply insert_non_empty.
  - intros tab frame r' Hr.
    rewrite (registered_insert otherTabId otherFrameId r tab frame _ (_commPorts (self s)))
      in Hr by done.
    cbn [channels]. destruct (decide (tab = otherTabId /\ frame = otherFrameId))
      as [[-> ->]|Hne].
    + injection Hr as <-. rewrite lookup_insert_eq. eexists. split; [done|].
      split; [done | cbn; eauto].
    + destruct (Hreg tab frame r' Hr) as (ch & Hl & Hk & Hp).
      exists ch. split; [|done]. rewrite lookup_insert_ne; [done|].
      intros <-. destruct (Hch _ _ Hl) as [Hlt _]. unfold r in Hlt. lia.
  - cbn [channels nextChannel]. intros r' ch Hl.
    apply lookup_insert_Some in Hl as [[<- <-]|[_ Hl]].
    + split; [lia|]. split; [done|]. split; [done|]. intros _. cbn. left.
    + destruct (Hch _ _ Hl) as (Hlt & Hn & He). split; [lia | done].
Qed.

Lemma Tidy_onConnect portName port s :
  Registry.Tidy s -> Registry.Tidy (_onConnect portName port s).
Proof.
  intros Hs. unfold _onConnect. destruct portName as [|details]; [done|].
  destruct (bool_decide _); [|done].
  pose proof (Tidy_setup (otherTabId details) (otherFrameId details) port s Hs) as Ht.
  rewrite setupCommPort_eq in *. exact Ht.
Qed.

(** What [_onDisconnect] of the registry does for a channel of the
    store: the registry is no longer subscribed to it, and the entry of
    its tab and frame is gone, whichever channel it was for. *)
Lemma onDisconnect_registry r ch s :
  channels s !! r = Some ch ->
  (forall tab tabPorts, _commPorts (self s) !! tab = Some tabPorts -> tabPorts <> ∅) ->
  let s' := _onDisconnect r s in
  channels s'
  = <[r := mkChannel (CrossFrameAPIPort.off RegistryOnDisconnect (object ch)) (its ch)]>
      (channels s) /\
  nextChannel s' = nextChannel s /\
  (forall tab frame,
     registered tab frame s'
     = if decide ((tab, frame) = Registry.key ch) then None
       else registered tab frame s) /\
  (forall tab tabPorts, _commPorts (self s') !! tab = Some tabPorts -> tabPorts <> ∅) /\
  _messageHandlers (self s') = _messageHandlers (self s).
Proof.
  intros Hl Hpruned. unfold _onDisconnect. rewrite Hl. cbv zeta.
  set (c := CrossFrameAPIPort.off RegistryOnDisconnect (object ch)).
  set (s1 := set_channels _ s).
  change (self s1) with (self s).
  change (CrossFrameAPIPort.otherTabId c)
    with (CrossFrameAPIPort.otherTabId (object ch)).
  change (CrossFrameAPIPort.otherFrameId c)
    with (CrossFrameAPIPort.otherFrameId (object ch)).
  unfold Registry.key.
  set (tab0 := CrossFrameAPIPort.otherTabId (object ch)).
  set (frame0 := CrossFrameAPIPort.otherFrameId (object ch)).
  destruct (_commPorts (self s) !! tab0) as [tabPorts|] eqn:Htab.
  2:{ subst s1. unfold set_channels, registered. cbn [self channels nextChannel].
      split; [done|]. split; [done|]. split; [|done].
      intros tab frame.
      destruct (decide ((tab, frame) = (tab0, frame0))) as [[= -> ->]|]; [|done].
      by rewrite Htab. }
  assert (Hlast : forall A B C D E : Prop, A -> B -> C -> D -> E -> A /\ B /\ C /\ D /\ E)
    by tauto.
  destruct (bool_decide (size (delete frame0 tabPorts) = 0%nat)) eqn:Hsize;
    subst s1; unfold set_commPorts, upd_self, set_channels, registered;
    cbn [self channels nextChannel _commPorts _messageHandlers].
  - apply bool_decide_eq_true in Hsize. apply map_size_empty_iff in Hsize.
    apply Hlast; [done | done | | | done].
    + intros tab frame.
      destruct (decide ((tab, frame) = (tab0, frame0))) as [[= -> ->]|Hne].
      * by rewrite lookup_delete_eq.
      * destruct (decide (tab = tab0)) as [->|Hnt].
        -- rewrite lookup_delete_eq, Htab.
           assert (Hnf : frame <> frame0) by congruence.
           rewrite <- (lookup_delete_ne tabPorts frame0 frame) by done.
           by rewrite Hsize, lookup_empty.
        -- by rewrite lookup_delete_ne.
    + intros tab tp [_ Hl']%lookup_delete_Some. by eapply Hpruned.
  - apply bool_decide_eq_false in Hsize.
    apply Hlast; [done | done | | | done].
    + intros tab frame.
      destruct (decide ((tab, frame) = (tab0, frame0))) as [[= -> ->]|Hne].
      * by rewrite lookup_insert_eq, lookup_delete_eq.
      * destruct (decide (tab = tab0)) as [->|Hnt].
        -- rewrite lookup_insert_eq, Htab.
           assert (Hnf : frame <> frame0) by congruence.
           by rewrite lookup_delete_ne.
        -- by rewrite lookup_insert_ne.
    + intros tab tp Hl'. apply lookup_insert_Some in Hl' as [[_ <-]|[_ Hl']].
      * intros He. apply Hsize. by rewrite He, map_size_empty.
      * by eapply Hpruned.
Qed.

(** A port with the name of the protocol is accepted. *)
Lemma onConnect_accepts details port s :
  name details = "cross-frame-communication-port" ->
  _onConnect (Parsed details) port s
  = snd (_setupCommPort (otherTabId details) (otherFrameId details) port s).
Proof.
  intros Hname. unfold _onConnect. rewrite Hname.
  rewrite bool_decide_eq_true_2 by done. by rewrite setupCommPort_eq.
Qed.

Section Steps.
Context {EC : ErrorCodec}.

(** Something happens to a channel of the store, and the subscribers
    that it notifies are run. *)
Lemma notify_on_channel r ch f s :
  channels s !! r = Some ch ->
  let w' := f (CrossFrameAPIPort.mkWorld (object ch) (_messageHandlers (self s)) (its ch)) in
  notify r (on_channel r f s)
  = fold_left
      (fun s sub => match sub with RegistryOnDisconnect => _onDisconnect r s end)
      (notifications (CrossFrameAPIPort.host w'))
      (set_channels
         (<[r := mkChannel (CrossFrameAPIPort.this w')
                   (Registry.quiet (CrossFrameAPIPort.host w'))]> (channels s)) s).
Proof.
  intros Hl w'. unfold notify, on_channel. rewrite Hl. fold w'.
  unfold set_channels. cbn [channels self nextChannel onConnectListeners suspended
    nextCall events].
  rewrite lookup_insert_eq. cbn [its object]. by rewrite insert_insert_eq.
Qed.

(** A step of a channel that keeps its wiring changes nothing of the
    registry. *)
Lemma channel_stays r ch f s :
  channels s !! r = Some ch ->
  notifications (its ch) = [] ->
  let w := CrossFrameAPIPort.mkWorld (object ch) (_messageHandlers (self s)) (its ch) in
  Wiring.stays w (f w) ->
  notify r (on_channel r f s)
  = set_channels
      (<[r := mkChannel (CrossFrameAPIPort.this (f w))
                (Registry.quiet (CrossFrameAPIPort.host (f w)))]> (channels s)) s.
Proof.
  intros Hl Hn w (_ & _ & _ & _ & _ & Hn').
  rewrite (notify_on_channel r ch f s Hl). fold w. rewrite Hn'. cbn. by rewrite Hn.
Qed.

(** A step in which a channel lets go of its port: the registry, its
    one subscriber, removes the entry of the tab and the frame of the
    channel. *)
Lemma channel_closes r ch f s :
  channels s !! r = Some ch ->
  notifications (its ch) = [] ->
  CrossFrameAPIPort._eventMap (object ch) = [RegistryOnDisconnect] ->
  (forall tab tabPorts, _commPorts (self s) !! tab = Some tabPorts -> tabPorts <> ∅) ->
  let w := CrossFrameAPIPort.mkWorld (object ch) (_messageHandlers (self s)) (its ch) in
  Wiring.closes w (f w) ->
  let s' := notify r (on_channel r f s) in
  channels s'
  = <[r := mkChannel
             (CrossFrameAPIPort.off RegistryOnDisconnect (CrossFrameAPIPort.this (f w)))
             (Registry.quiet (CrossFrameAPIPort.host (f w)))]> (channels s) /\
  nextChannel s' = nextChannel s /\
  (forall tab frame,
     registered tab frame s'
     = if decide ((tab, frame) = Registry.key ch) then None
       else registered tab frame s) /\
  (forall tab tabPorts, _commPorts (self s') !! tab = Some tabPorts -> tabPorts <> ∅) /\
  _messageHandlers (self s') = _messageHandlers (self s) /\
  CrossFrameAPIPort._port (CrossFrameAPIPort.this (f w)) = None.
Proof.
  intros Hl Hn He Hpruned w (_ & Hw & Hn') s'. subst s'.
  rewrite (notify_on_channel r ch f s Hl). fold w. rewrite Hn'.
  cbn [CrossFrameAPIPort.host CrossFrameAPIPort.this w]. rewrite Hn, He.
  cbn [app fold_left].
  set (ch' := mkChannel _ _). set (s1 := set_channels _ s).
  assert (Hl1 : channels s1 !! r = Some ch') by (subst s1; cbn; apply lookup_insert_eq).
  destruct (onDisconnect_registry r ch' s1 Hl1 Hpruned) as (Hc & Hnc & Hr & Hp & Hh).
  unfold Wiring.wiring in Hw. cbn [CrossFrameAPIPort.this w] in Hw.
  injection Hw as Htab Hframe Hport _ _.
  split; [|split; [done|split; [|done]]].
  - rewrite Hc. subst s1. cbn [channels set_channels]. by rewrite insert_insert_eq.
  - intros tab frame. rewrite Hr.
    replace (Registry.key ch') with (Registry.key ch); [done|].
    unfold Registry.key, CrossFrameAPIPort.otherTabId, CrossFrameAPIPort.otherFrameId.
    subst ch'. cbn [object]. by rewrite Htab, Hframe.
Qed.

Lemma Tidy_on_channel r f s :
  (forall w, Wiring.stays w (f w) \/ Wiring.closes w (f w)) ->
  (forall w, Wiring.listening (CrossFrameAPIPort.this w) ->
             Wiring.listening (CrossFrameAPIPort.this (f w))) ->
  Registry.Tidy s -> Registry.Tidy (notify r (on_channel r f s)).
Proof.
  intros Hf Hfl [Hpruned Hreg Hch].
  destruct (channels s !! r) as [ch|] eqn:Hl.
  2:{ unfold on_channel, notify. rewrite Hl. by rewrite Hl. }
  destruct (Hch r ch Hl) as (Hlt & Hn & He & Hli).
  set (w := CrossFrameAPIPort.mkWorld (object ch) (_messageHandlers (self s)) (its ch)).
  destruct (Hf w) as [Hstays|Hcloses].
  - rewrite (channel_stays r ch f s Hl Hn Hstays). fold w.
    destruct Hstays as (Htab & Hframe & Hmap & Hport & _ & _).
    cbn [CrossFrameAPIPort.this w] in Htab, Hframe, Hmap, Hport.
    constructor.
    + exact Hpruned.
    + intros tab frame r' Hr. destruct (Hreg tab frame r' Hr) as (ch' & Hl' & Hk & Hp).
      cbn [channels set_channels]. destruct (decide (r' = r)) as [->|Hne].
      * rewrite lookup_insert_eq. eexists. split; [done|].
        assert (ch' = ch) as -> by congruence.
        split; [|by apply Hport].
        rewrite <- Hk. unfold Registry.key, CrossFrameAPIPort.otherTabId,
          CrossFrameAPIPort.otherFrameId. cbn [object]. by rewrite Htab, Hframe.
      * rewrite lookup_insert_ne by done. by exists ch'.
    + cbn [channels set_channels nextChannel]. intros r' ch' Hl'.
      apply lookup_insert_Some in Hl' as [[<- <-]|[_ Hl']]; [|by apply Hch].
      split; [done|]. split; [done|]. cbn [object]. rewrite Hmap.
      split; [intros Hp; by apply He, Hport | by apply (Hfl w)].
  - pose proof Hcloses as (Hp0 & _ & _).
    destruct (channel_closes r ch f s Hl Hn (He Hp0) Hpruned Hcloses)
      as (Hc & Hnc & Hr & Hp & _ & Hport).
    fold w in Hc, Hport. constructor.
    + exact Hp.
    + intros tab frame r' Hr'. rewrite Hr in Hr'.
      destruct (decide ((tab, frame) = Registry.key ch)) as [|Hne]; [done|].
      destruct (Hreg tab frame r' Hr') as (ch' & Hl' & Hk & Hp').
      exists ch'. split; [|done]. rewrite Hc. rewrite lookup_insert_ne; [done|].
      intros <-. apply Hne. rewrite <- Hk. congruence.
    + rewrite Hc, Hnc. intros r' ch' Hl'.
      apply lookup_insert_Some in Hl' as [[<- <-]|[_ Hl']]; [|by apply Hch].
      split; [done|]. split; [done|]. cbn [object]. unfold Wiring.listening,
        CrossFrameAPIPort.off, CrossFrameAPIPort.set_eventMap.
      cbn [CrossFrameAPIPort._port]. rewrite Hport.
      split; by intros [? ?].
Qed.

Lemma Tidy_step s i : Registry.Tidy s -> Registry.Tidy (step s i).
Proof.
  intros Hs. destruct i as [| hs | key | tab frame | call rejected | portName port | r i].
  - by destruct Hs.
  - cbn [step]. revert s Hs. induction hs as [|[key value] hs IH]; intros s Hs; [done|].
    cbn [registerHandlers]. destruct (_messageHandlers (self s) !! key); [done|].
    apply IH. by destruct Hs.
  - by destruct Hs.
  - cbn [step]. unfold _getOrCreateCommPort. cbv zeta.
    match goal with |- context [registered tab frame ?s0] =>
      destruct (registered tab frame s0) end; by destruct Hs.
  - cbn [step]. unfold _createCommPort_resume.
    destruct (suspended s !! call) as [[tab frame]|]; [|done].
    destruct rejected; [by destruct Hs|]. cbv zeta.
    match goal with |- context [registered tab frame ?s0] =>
      destruct (registered tab frame s0) end; by destruct Hs.
  - cbn [step]. induction (onConnectListeners s) as [|n IH]; [done|].
    cbn [Nat.iter nat_rect]. by apply Tidy_onConnect.
  - destruct i; cbn [step]; try done;
      (apply Tidy_on_channel;
       [intros w; apply step_wiring | intros w; apply step_listening | done]).
Qed.

Lemma Tidy_run inputs s : Registry.Tidy s -> Registry.Tidy (run inputs s).
Proof.
  revert s. induction inputs as [|i inputs IH]; intros s Hs; [done|].
  apply IH. by apply Tidy_step.
Qed.

Lemma Tidy_fresh : Registry.Tidy fresh.
Proof. constructor; cbn; intros *; by rewrite ?lookup_empty. Qed.

(** X10: whatever has happened to a registry since it was made, no tab
    is left with an empty map of frames; the channel registered for a
    tab and a frame exists, is a channel to that tab and that frame, and
    still holds its port; and every reference of a channel has been
    given out by the registry. *)
Theorem registry_tidy inputs :
  let s := run inputs fresh in
  (forall tab tabPorts,
     _commPorts (self s) !! tab = Some tabPorts -> tabPorts <> ∅) /\
  (forall tab frame r,
     registered tab frame s = Some r ->
     exists ch,
       channels s !! r = Some ch /\
       CrossFrameAPIPort.otherTabId (object ch) = tab /\
       CrossFrameAPIPort.otherFrameId (object ch) = frame /\
       live r s = true) /\
  (forall r ch, channels s !! r = Some ch -> r < nextChannel s).
Proof.
  intros s. destruct (Tidy_run inputs fresh Tidy_fresh) as [Hpruned Hreg Hch].
  fold s in Hpruned, Hreg, Hch. split; [done|]. split.
  - intros tab frame r Hr. destruct (Hreg tab frame r Hr) as (ch & Hl & Hk & Hp).
    exists ch. unfold Registry.key in Hk. injection Hk as Htab Hframe.
    split; [done|]. split; [done|]. split; [done|].
    unfold live. rewrite Hl. by apply bool_decide_eq_true.
  - intros r ch Hl. by destruct (Hch r ch Hl).
Qed.

(** A channel that holds its port lets go of it when it is
    disconnected. *)
Lemma onDisconnect_closes w :
  is_Some (CrossFrameAPIPort._port (CrossFrameAPIPort.this w)) ->
  Wiring.closes w (CrossFrameAPIPort._onDisconnect w).
Proof.
  intros [port Hport].
  destruct (onDisconnect_wiring port w Hport) as (Hw & _ & Hn' & _).
  split; [by exists port|]. by split.
Qed.

(** A call of [disconnect] and the disconnect of the port come to the
    same for a channel that listens to its port. *)
Lemma disconnect_step r ch i s :
  channels s !! r = Some ch ->
  Wiring.listening (object ch) ->
  is_Some (CrossFrameAPIPort._port (object ch)) ->
  i = CrossFrameAPIPort.CallDisconnect \/ i = CrossFrameAPIPort.PortDisconnected ->
  step s (OnChannel r i) = notify r (on_channel r CrossFrameAPIPort._onDisconnect s).
Proof.
  intros Hl Hli Hport Hi. specialize (Hli Hport).
  set (w := CrossFrameAPIPort.mkWorld (object ch) (_messageHandlers (self s)) (its ch)).
  destruct Hi as [-> | ->]; cbn [step]; unfold on_channel; rewrite Hl; fold w; [done|].
  cbn [CrossFrameAPIPort.step]. by rewrite (deliver_listening w Hli).
Qed.

(** X11: when a channel that holds its port is disconnected, by a call
    of [disconnect] or by the disconnect of its port, the registry
    forgets the entry of the tab and the frame of the channel, and
    nothing else: the other entries, the other channels and the table of
    handlers are as they were. *)
Theorem channel_disconnect_unregisters inputs r ch i :
  let s := run inputs fresh in
  channels s !! r = Some ch ->
  is_Some (CrossFrameAPIPort._port (object ch)) ->
  i = CrossFrameAPIPort.CallDisconnect \/ i = CrossFrameAPIPort.PortDisconnected ->
  let s' := step s (OnChannel r i) in
  live r s' = false /\
  registered (CrossFrameAPIPort.otherTabId (object ch))
    (CrossFrameAPIPort.otherFrameId (object ch)) s' = None /\
  (forall tab frame,
     (tab, frame) <> Registry.key ch ->
     registered tab frame s' = registered tab frame s) /\
  (forall r', r' <> r -> channels s' !! r' = channels s !! r') /\
  handlers s' = handlers s.
Proof.
  intros s Hl Hport Hi s'.
  destruct (Tidy_run inputs fresh Tidy_fresh) as [Hpruned _ Hch].
  fold s in Hpruned, Hch. destruct (Hch r ch Hl) as (_ & Hn & He & Hli).
  set (w := CrossFrameAPIPort.mkWorld (object ch) (_messageHandlers (self s)) (its ch)).
  assert (Hs' : s' = notify r (on_channel r CrossFrameAPIPort._onDisconnect s))
    by by apply (disconnect_step r ch).
  destruct (channel_closes r ch CrossFrameAPIPort._onDisconnect s Hl Hn (He Hport) Hpruned
              (onDisconnect_closes w Hport))
    as (Hc & _ & Hr & _ & Hh & Hnone).
  rewrite <- Hs' in Hc, Hr, Hh. fold w in Hc, Hnone.
  split; [|split; [|split; [|split]]].
  - unfold live. rewrite Hc, lookup_insert_eq. cbn [object]. unfold CrossFrameAPIPort.off,
      CrossFrameAPIPort.set_eventMap. cbn [CrossFrameAPIPort._port]. rewrite Hnone.
    apply bool_decide_eq_false. by intros [? ?].
  - rewrite Hr. by rewrite decide_True.
  - intros tab frame Hne. rewrite Hr. by rewrite decide_False.
  - intros r' Hne. rewrite Hc. by rewrite lookup_insert_ne.
  - exact Hh.
Qed.

(** X12: the registry removes the entry of a tab and a frame without
    looking at the channel that the entry holds.  When two ports have
    been accepted for one frame, the disconnect of the first channel
    removes the entry that the second has taken over: the second
    channel still holds its port, and is no longer registered. *)
Theorem stale_disconnect_unregisters_newer inputs details port1 port2 :
  let s := run inputs fresh in
  onConnectListeners s = 1%nat ->
  name details = "cross-frame-communication-port" ->
  let r := nextChannel s in
  let s' :=
    run [RuntimeConnect (Parsed details) port1;
         RuntimeConnect (Parsed details) port2;
         OnChannel r CrossFrameAPIPort.CallDisconnect] s in
  live r s' = false /\
  live (r + 1) s' = true /\
  registered (otherTabId details) (otherFrameId details) s' = None.
Proof.
  intros s Hone Hname r s'.
  set (connected :=
    [RuntimeConnect (Parsed details) port1; RuntimeConnect (Parsed details) port2]).
  set (s2 := run connected s).
  assert (Hs2 : Registry.Tidy s2) by apply Tidy_run, Tidy_run, Tidy_fresh.
  set (ch1 :=
    mkChannel
      (CrossFrameAPIPort.mk (otherTabId details) (otherFrameId details) (Some port1)
         JsMap.empty 0 [OnDisconnectListener; OnMessageListener] [RegistryOnDisconnect])
      fresh_host).
  assert (Hshape :
    channels s2 !! r = Some ch1 /\
    exists ch2, channels s2 !! (r + 1) = Some ch2 /\
                is_Some (CrossFrameAPIPort._port (object ch2))).
  { unfold s2, connected, run. cbn [fold_left step]. rewrite Hone. cbn [Nat.iter nat_rect].
    rewrite (onConnect_accepts details port1 s Hname), setupCommPort_eq. cbn [snd].
    fold r. set (s1 := mkStore _ _ _ _ _ _ _).
    change (onConnectListeners s1) with (onConnectListeners s). rewrite Hone.
    cbn [Nat.iter nat_rect].
    rewrite (onConnect_accepts details port2 s1 Hname), setupCommPort_eq. cbn [snd channels].
    change (nextChannel s1) with (r + 1). subst s1. cbn [channels].
    split.
    - rewrite lookup_insert_ne by lia. apply lookup_insert_eq.
    - eexists. split; [apply lookup_insert_eq|]. cbn. eauto. }
  destruct Hshape as (Hl1 & ch2 & Hl2 & Hp2).
  assert (Hs' : s' = step s2 (OnChannel r CrossFrameAPIPort.CallDisconnect)) by done.
  assert (Hp1 : is_Some (CrossFrameAPIPort._port (object ch1))) by (cbn; eauto).
  destruct Hs2 as [Hpruned _ Hch]. destruct (Hch r ch1 Hl1) as (_ & Hn & He & Hli).
  set (w := CrossFrameAPIPort.mkWorld (object ch1) (_messageHandlers (self s2)) (its ch1)).
  assert (Hs'' : s' = notify r (on_channel r CrossFrameAPIPort._onDisconnect s2)).
  { rewrite Hs'. apply (disconnect_step r ch1); [done | done | done | by left]. }
  destruct (channel_closes r ch1 CrossFrameAPIPort._onDisconnect s2 Hl1 Hn (He Hp1) Hpruned
              (onDisconnect_closes w Hp1))
    as (Hc & _ & Hr & _ & _ & Hnone).
  rewrite <- Hs'' in Hc, Hr. fold w in Hc, Hnone.
  split; [|split].
  - unfold live. rewrite Hc, lookup_insert_eq. cbn [object]. unfold CrossFrameAPIPort.off,
      CrossFrameAPIPort.set_eventMap. cbn [CrossFrameAPIPort._port]. rewrite Hnone.
    apply bool_decide_eq_false. by intros [? ?].
  - unfold live. rewrite Hc, lookup_insert_ne by lia. rewrite Hl2.
    by apply bool_decide_eq_true.
  - rewrite Hr. by rewrite decide_True.
Qed.

End Steps.

Lemma channel_disconnect_unregisters_witness :
  let s := run (EC := Sample.codec) [CallPrepare; RuntimeConnect Sample.name Sample.port]
             fresh in
  let s' := step (EC := Sample.codec) s (OnChannel 0 CrossFrameAPIPort.CallDisconnect) in
  live 0 s' = false /\ registered 1 2 s' = None.
Proof.
  intros s s'.
  destruct (channel_disconnect_unregisters (EC := Sample.codec)
              [CallPrepare; RuntimeConnect Sample.name Sample.port] 0
              (mkChannel
                 (CrossFrameAPIPort.mk 1 2 (Some Sample.port) JsMap.empty 0
                    [OnDisconnectListener; OnMessageListener] [RegistryOnDisconnect])
                 fresh_host)
              CrossFrameAPIPort.CallDisconnect) as (Hlive & Hreg & _).
  - vm_compute; reflexivity.
  - by exists Sample.port.
  - by left.
  - split; [exact Hlive | exact Hreg].
Defined.

Lemma stale_disconnect_unregisters_newer_witness :
  let s := run (EC := Sample.codec) [CallPrepare] fresh in
  let s' :=
    run (EC := Sample.codec)
      [RuntimeConnect Sample.name Sample.port;
       RuntimeConnect Sample.name Sample.port;
       OnChannel (nextChannel s) CrossFrameAPIPort.CallDisconnect] s in
  live (nextChannel s) s' = false /\
  live (nextChannel s + 1) s' = true /\
  registered 1 2 s' = None.
Proof.
  apply (stale_disconnect_unregisters_newer (EC := Sample.codec) [CallPrepare]
           (mkDetails "cross-frame-communication-port" 1 2) Sample.port Sample.port);
    reflexivity.
Defined.

End RegistryInvariant.

(** ** The table of handlers *)
Module TableFacts.
Import CrossFrameAPI RegistryInvariant.

Lemma set_messageHandlers_twice m m' s :
  set_messageHandlers m (set_messageHandlers m' s) = set_messageHandlers m s.
Proof. done. Qed.

(** When [registerHandlers] does not throw, no name was given twice, no
    name was in the table, and the table has every pair on top of what
    it held. *)
Lemma registerHandlers_done messageHandlers s :
  fst (registerHandlers messageHandlers s) = None ->
  NoDup messageHandlers.*1 /\
  (forall key, key ∈ messageHandlers.*1 -> handlers s !! key = None) /\
  snd (registerHandlers messageHandlers s)
  = set_messageHandlers (list_to_map messageHandlers ∪ handlers s) s.
Proof.
  revert s. induction messageHandlers as [|[key value] rest IH]; intros s Hr.
  - split; [constructor|]. split; [by intros key Hin; inversion Hin|].
    cbn. rewrite (left_id_L ∅ (∪)). symmetry. apply RegistryFacts.set_messageHandlers_same.
  - cbn [registerHandlers] in *.
    destruct (_messageHandlers (self s) !! key) eqn:Hkey; [done|].
    destruct (IH _ Hr) as (Hnodup & Hfresh & Hsnd).
    assert (Hnew : key ∉ rest.*1).
    { intros Hin. specialize (Hfresh key Hin). unfold handlers in Hfresh. cbn in Hfresh.
      by rewrite lookup_insert_eq in Hfresh. }
    split; [by constructor|]. split.
    + intros key' Hin. apply elem_of_cons in Hin as [->|Hin]; [done|].
      specialize (Hfresh key' Hin). unfold handlers in *. cbn in Hfresh.
      rewrite lookup_insert_ne in Hfresh; [done|]. by intros <-.
    + rewrite Hsnd, set_messageHandlers_twice. f_equal. unfold handlers. cbn.
      rewrite <- insert_union_l. symmetry. apply insert_union_r.
      by apply not_elem_of_list_to_map_1.
Qed.

(** [registerHandlers] does not throw when the names are new and
    different. *)
Lemma registerHandlers_new messageHandlers s :
  NoDup messageHandlers.*1 ->
  (forall key, key ∈ messageHandlers.*1 -> handlers s !! key = None) ->
  fst (registerHandlers messageHandlers s) = None.
Proof.
  revert s. induction messageHandlers as [|[key value] rest IH]; intros s Hnodup Hfresh;
    [done|].
  cbn [registerHandlers]. cbn in Hnodup. apply NoDup_cons in Hnodup as [Hnew Hnodup].
  unfold handlers in Hfresh. rewrite (Hfresh key) by (cbn; left).
  apply IH; [done|]. intros key' Hin. unfold handlers. cbn.
  rewrite lookup_insert_ne by (intros <-; done). apply Hfresh. cbn. by right.
Qed.

(** The handlers after some names have been unregistered. *)
Lemma unregister_all keys s :
  let s' := fold_left (fun s key => snd (unregisterHandler key s)) keys s in
  s' = set_messageHandlers (handlers s') s /\
  forall key, handlers s' !! key = if decide (key ∈ keys) then None else handlers s !! key.
Proof.
  revert s. induction keys as [|k keys IH]; intros s; cbn [fold_left].
  - split; [symmetry; apply RegistryFacts.set_messageHandlers_same|].
    intros key. rewrite decide_False; [done | by intros Hin; inversion Hin].
  - destruct (IH (snd (unregisterHandler k s))) as (Hs & Hl). cbv zeta in *.
    split; [rewrite Hs at 1; apply set_messageHandlers_twice|].
    intros key. rewrite Hl. unfold handlers, unregisterHandler. cbn.
    destruct (decide (key ∈ keys)) as [Hin|Hnin].
    + rewrite decide_True; [done | by right].
    + destruct (decide (key = k)) as [->|Hne].
      * rewrite decide_True by left. apply lookup_delete_eq.
      * rewrite decide_False by (intros [|]%elem_of_cons; done).
        by apply lookup_delete_ne.
Qed.

(** X13: [registerHandlers] returns without throwing exactly when the
    names given are different from each other and none of them is in
    the table; the table then holds every pair given, and what it held
    before. *)
Theorem registerHandlers_succeeds_iff messageHandlers s :
  (fst (registerHandlers messageHandlers s) = None <->
   NoDup messageHandlers.*1 /\
   forall key, key ∈ messageHandlers.*1 -> handlers s !! key = None) /\
  (fst (registerHandlers messageHandlers s) = None ->
   snd (registerHandlers messageHandlers s)
   = set_messageHandlers (list_to_map messageHandlers ∪ handlers s) s).
Proof.
  split; [split|].
  - intros Hr. by destruct (registerHandlers_done messageHandlers s Hr) as (? & ? & _).
  - intros [Hnodup Hfresh]. by apply registerHandlers_new.
  - intros Hr. by destruct (registerHandlers_done messageHandlers s Hr) as (_ & _ & ?).
Qed.

(** X14: unregistering, one by one and in any order, the names that a
    call of [registerHandlers] has registered gives the store back as it
    was before the call, and every one of these calls of
    [unregisterHandler] finds its name. *)
Theorem unregister_undoes_register messageHandlers keys s :
  fst (registerHandlers messageHandlers s) = None ->
  keys ≡ₚ messageHandlers.*1 ->
  let s' := snd (registerHandlers messageHandlers s) in
  fold_left (fun s key => snd (unregisterHandler key s)) keys s' = s /\
  forall key, key ∈ keys -> fst (unregisterHandler key s') = true.
Proof.
  intros Hr Hperm s'.
  destruct (registerHandlers_done messageHandlers s Hr) as (Hnodup & Hfresh & Hsnd).
  fold s' in Hsnd.
  assert (Hh : handlers s' = list_to_map messageHandlers ∪ handlers s)
    by (by rewrite Hsnd).
  split.
  - destruct (unregister_all keys s') as (Hs & Hl). cbv zeta in Hs, Hl.
    set (s'' := fold_left _ keys s') in *.
    assert (Hm : handlers s'' = handlers s).
    { apply map_eq. intros key. rewrite Hl.
      destruct (decide (key ∈ keys)) as [Hin|Hnin].
      - symmetry. apply Hfresh. by rewrite <- Hperm.
      - rewrite Hh. rewrite lookup_union_r; [done|].
        apply not_elem_of_list_to_map_1. by rewrite <- Hperm. }
    rewrite Hs, Hm, Hsnd, set_messageHandlers_twice.
    apply RegistryFacts.set_messageHandlers_same.
  - intros key Hin. unfold unregisterHandler. cbn [fst].
    apply bool_decide_eq_true. fold (handlers s'). rewrite Hh.
    rewrite Hperm in Hin. apply list_elem_of_fmap in Hin as ([k v] & -> & Hin).
    exists v. apply lookup_union_Some_l. by apply elem_of_list_to_map_1.
Qed.

Lemma unregister_undoes_register_witness :
  let s' := snd (registerHandlers [("a", Sample.ping); ("b", Sample.ping)] fresh) in
  fold_left (fun s key => snd (unregisterHandler key s)) ["b"; "a"] s' = fresh /\
  forall key, key ∈ ["b"; "a"] -> fst (unregisterHandler key s') = true.
Proof.
  apply (unregister_undoes_register [("a", Sample.ping); ("b", Sample.ping)] ["b"; "a"]
           fresh).
  - reflexivity.
  - apply Permutation_swap.
Defined.

Section Shared.
Context {EC : ErrorCodec}.

Lemma onInvoke_says id action params port w :
  CrossFrameAPIPort._port (CrossFrameAPIPort.this w) = Some port ->
  let said := Reply.answer id action params (CrossFrameAPIPort._messageHandlers w !! action) in
  trace (CrossFrameAPIPort.host (snd (CrossFrameAPIPort._onInvoke id action params w)))
  = trace (CrossFrameAPIPort.host w)
      ++ [EvHandlerLookup action;
          EvPostMessage (AckMessage id) (postMessage_throws port (AckMessage id))]
      ++ snd said
      ++ map (fun m => EvPostMessage m (postMessage_throws port m)) (fst said).
Proof.
  intros Hport. cbv zeta.
  unfold CrossFrameAPIPort._onInvoke, CrossFrameAPIPort._sendAck,
    CrossFrameAPIPort._sendError, CrossFrameAPIPort._sendResult,
    CrossFrameAPIPort.invokeMessageHandler, CrossFrameAPIPort._sendResponse.
  unfold_prims. proj. rewrite Hport. proj.
  destruct (CrossFrameAPIPort._messageHandlers w !! action) as [handler|];
    cbn [Reply.answer fst snd map app].
  - destruct (handler params); proj; rewrite ?Hport; proj; by rewrite <- !app_assoc.
  - rewrite Hport. proj. by rewrite <- !app_assoc.
Qed.

(** X15: the channels serve the table of handlers of the registry as
    it is when a request arrives, not as it was when the channel was
    made.  A handler registered after a channel was set up is called
    for a request on that channel, and answers it; once the handler is
    unregistered, a request for it is answered with the error of an
    unknown action, and no handler is called. *)
Theorem handlers_shared_with_channels r ch port action handler id params s :
  channels s !! r = Some ch ->
  CrossFrameAPIPort._port (object ch) = Some port ->
  CrossFrameAPIPort._eventListeners (object ch)
  = [OnDisconnectListener; OnMessageListener] ->
  notifications (its ch) = [] ->
  handlers s !! action = None ->
  let request :=
    OnChannel r (CrossFrameAPIPort.PortMessage (InvokeMessage id action params)) in
  let said s' :=
    match channels s' !! r with Some ch' => trace (its ch') | None => [] end in
  let posted m := EvPostMessage m (postMessage_throws port m) in
  said (run [CallRegisterHandlers [(action, handler)]; request] s)
  = trace (its ch)
      ++ [EvHandlerLookup action; posted (AckMessage id);
          EvHandlerCall params (handler params)]
      ++ match handler params with
         | Completed data => [posted (ResultMessage id data)]
         | Pending => []
         end /\
  said (run [CallRegisterHandlers [(action, handler)];
             CallUnregisterHandler action; request] s)
  = trace (its ch)
      ++ [EvHandlerLookup action; posted (AckMessage id);
          posted (ResultMessage id
            (mkResponse None
               (Some (serialize (NewError ("Unknown action: " ++ action))))))].
Proof.
  intros Hl Hport Hlisteners Hn Hfresh request said posted.
  assert (Hstep : forall s1,
    channels s1 = channels s ->
    said (step s1 request)
    = trace (its ch)
        ++ [EvHandlerLookup action; posted (AckMessage id)]
        ++ snd (Reply.answer id action params (handlers s1 !! action))
        ++ map posted (fst (Reply.answer id action params (handlers s1 !! action)))).
  { intros s1 Hc. subst request. cbn [step].
    assert (Hl1 : channels s1 !! r = Some ch) by (by rewrite Hc).
    set (f := fun w => CrossFrameAPIPort.step w
                         (CrossFrameAPIPort.PortMessage (InvokeMessage id action params))).
    set (w := CrossFrameAPIPort.mkWorld (object ch) (_messageHandlers (self s1)) (its ch)).
    assert (Hf : f w = snd (CrossFrameAPIPort._onInvoke id action params w)).
    { unfold f. cbn [CrossFrameAPIPort.step]. unfold CrossFrameAPIPort.deliver.
      subst w. cbn [CrossFrameAPIPort.this]. rewrite Hlisteners. done. }
    assert (Hstays : Wiring.stays w (f w)).
    { apply WiringFacts.same_stays, WiringFacts.deliver_same, WiringFacts.same_onMessage. }
    rewrite (channel_stays r ch f s1 Hl1 Hn Hstays). fold w.
    unfold said. cbn [channels set_channels]. rewrite lookup_insert_eq.
    cbn [its Registry.quiet trace]. rewrite Hf.
    apply (onInvoke_says id action params port w Hport). }
  split.
  - unfold run. cbn [fold_left]. rewrite Hstep.
    + cbn [step registerHandlers]. unfold handlers in Hfresh. rewrite Hfresh.
      unfold handlers. cbn [snd self set_messageHandlers upd_self _messageHandlers].
      rewrite lookup_insert_eq. cbn [Reply.answer fst snd].
      by destruct (handler params).
    + cbn [step registerHandlers]. unfold handlers in Hfresh. by rewrite Hfresh.
  - unfold run. cbn [fold_left]. rewrite Hstep.
    + cbn [step registerHandlers unregisterHandler]. unfold handlers in Hfresh.
      rewrite Hfresh. unfold handlers.
      cbn [snd self set_messageHandlers upd_self _messageHandlers].
      unfold unregisterHandler, set_messageHandlers, upd_self.
      cbn [snd self _messageHandlers]. by rewrite lookup_delete_eq.
    + cbn [step registerHandlers unregisterHandler]. unfold handlers in Hfresh.
      by rewrite Hfresh.
Qed.

End Shared.

Lemma handlers_shared_with_channels_witness :
  let s := run (EC := Sample.codec) [CallPrepare; RuntimeConnect Sample.name Sample.port]
             fresh in
  let request := OnChannel 0 (CrossFrameAPIPort.PortMessage (InvokeMessage 7 "ping" JNull)) in
  let said s' :=
    match channels s' !! 0 with Some ch' => trace (its ch') | None => [] end in
  said (run (EC := Sample.codec) [CallRegisterHandlers [("ping", Sample.ping)]; request] s)
  = [EvHandlerLookup "ping"; EvPostMessage (AckMessage 7) None;
     EvHandlerCall JNull (Completed Sample.pong);
     EvPostMessage (ResultMessage 7 Sample.pong) None] /\
  said (run (EC := Sample.codec)
          [CallRegisterHandlers [("ping", Sample.ping)];
           CallUnregisterHandler "ping"; request] s)
  = [EvHandlerLookup "ping"; EvPostMessage (AckMessage 7) None;
     EvPostMessage
       (ResultMessage 7 (mkResponse None (Some (JStr "Unknown action: ping")))) None].
Proof.
  apply (handlers_shared_with_channels (EC := Sample.codec) 0
           (mkChannel
              (CrossFrameAPIPort.mk 1 2 (Some Sample.port) JsMap.empty 0
                 [OnDisconnectListener; OnMessageListener] [RegistryOnDisconnect])
              fresh_host)
           Sample.port "ping" Sample.ping 7 JNull
           (run (EC := Sample.codec) [CallPrepare; RuntimeConnect Sample.name Sample.port]
              fresh));
    vm_compute; reflexivity.
Defined.

End TableFacts.

(** ** Invocations through the registry *)
Module CallFacts.
Import CrossFrameAPI RegistryInvariant.

Lemma settled_in_app call l l' :
  Calls.settled_in call (l ++ l')
  = match Calls.settled_in call l with
    | Some o => Some o
    | None => Calls.settled_in call l'
    end.
Proof.
  induction l as [|e l IH]; [done|]. cbn [app Calls.settled_in].
  by destruct (Calls.settlement call e).
Qed.

Lemma registerHandlers_frame messageHandlers s :
  snd (registerHandlers messageHandlers s)
  = set_messageHandlers (handlers (snd (registerHandlers messageHandlers s))) s.
Proof.
  revert s. induction messageHandlers as [|[key value] rest IH]; intros s;
    cbn [registerHandlers snd].
  - symmetry. apply RegistryFacts.set_messageHandlers_same.
  - destruct (_messageHandlers (self s) !! key).
    + symmetry. apply RegistryFacts.set_messageHandlers_same.
    + by rewrite IH at 1.
Qed.

(** The registry's [_onDisconnect] and [notify] touch the channels and
    the registered entries only. *)
Lemma onDisconnect_kept r s :
  Calls.kept s (_onDisconnect r s) /\ Calls.same_self s (_onDisconnect r s).
Proof.
  unfold _onDisconnect. destruct (channels s !! r) as [ch|]; [|done]. cbv zeta.
  match goal with |- context [_commPorts ?a !! ?t] => destruct (_commPorts a !! t) end;
    [|done].
  by destruct (bool_decide _).
Qed.

Lemma notify_kept r s : Calls.kept s (notify r s) /\ Calls.same_self s (notify r s).
Proof.
  unfold notify. destruct (channels s !! r) as [ch|]; [|done]. cbv zeta.
  set (s1 := set_channels _ s).
  assert (H1 : Calls.kept s s1 /\ Calls.same_self s s1) by done.
  revert H1. generalize s1. clear s1.
  induction (notifications (its ch)) as [|sub subs IH]; intros s1 H1; [done|].
  cbn [fold_left]. apply IH. destruct sub.
  destruct (onDisconnect_kept r s1) as ((? & ? & ?) & (? & ? & ? & ?)).
  destruct H1 as ((? & ? & ?) & (? & ? & ? & ?)).
  unfold Calls.kept, Calls.same_self. repeat split; congruence.
Qed.

Lemma on_channel_kept r f s :
  Calls.kept s (on_channel r f s) /\ Calls.same_self s (on_channel r f s).
Proof. unfold on_channel. by destruct (channels s !! r). Qed.

Lemma onConnect_kept portName port s :
  Calls.kept s (_onConnect portName port s) /\
  Calls.same_self s (_onConnect portName port s).
Proof.
  unfold _onConnect. destruct portName as [|details]; [done|].
  destruct (bool_decide _); [|done]. by rewrite setupCommPort_eq.
Qed.

Lemma kept_trans s1 s2 s3 :
  Calls.kept s1 s2 /\ Calls.same_self s1 s2 ->
  Calls.kept s2 s3 /\ Calls.same_self s2 s3 ->
  Calls.kept s1 s3 /\ Calls.same_self s1 s3.
Proof.
  intros ((? & ? & ?) & (? & ? & ? & ?)) ((? & ? & ?) & (? & ? & ? & ?)).
  unfold Calls.kept, Calls.same_self. repeat split; congruence.
Qed.

Lemma registered_self tab frame s s' :
  self s' = self s -> registered tab frame s' = registered tab frame s.
Proof. unfold registered. by intros ->. Qed.

(** The end of a request to the broker, in one piece. *)
Lemma resume_eq call rejected tab frame s :
  suspended s !! call = Some (AwaitOpenCrossFramePort tab frame) ->
  _createCommPort_resume call rejected s
  = mkStore (self s) (channels s) (nextChannel s) (onConnectListeners s)
      (delete call (suspended s)) (nextCall s)
      (events s
         ++ [match rejected with
             | Some e => EvThrew call e
             | None => outcome call tab frame s
             end]).
Proof.
  intros Hs. unfold _createCommPort_resume. rewrite Hs. destruct rejected; [done|].
  cbv zeta. unfold outcome.
  rewrite (registered_self tab frame s (set_suspended _ s)) by done.
  by destruct (registered tab frame s).
Qed.

Section Steps.
Context {EC : ErrorCodec}.

(** Nothing that happens to the registry changes its timeouts, its tab
    or its frame. *)
Lemma step_same_self s i : Calls.same_self s (step s i).
Proof.
  destruct i as [| hs | key | tab frame | call rejected | portName port | r i];
    cbn [step].
  - done.
  - rewrite registerHandlers_frame. done.
  - done.
  - unfold _getOrCreateCommPort. cbv zeta.
    match goal with |- context [registered tab frame ?s0] =>
      destruct (registered tab frame s0) end; done.
  - unfold _createCommPort_resume.
    destruct (suspended s !! call) as [[tab frame]|]; [|done].
    destruct rejected; [done|]. cbv zeta.
    match goal with |- context [registered tab frame ?s0] =>
      destruct (registered tab frame s0) end; done.
  - assert (H : Calls.kept s (Nat.iter (onConnectListeners s) (_onConnect portName port) s)
                /\ Calls.same_self s
                     (Nat.iter (onConnectListeners s) (_onConnect portName port) s)).
    { induction (onConnectListeners s) as [|n IH]; [done|]. cbn [Nat.iter nat_rect].
      eapply kept_trans; [exact IH | apply onConnect_kept]. }
    apply H.
  - assert (H : forall f, Calls.same_self s (notify r (on_channel r f s))).
    { intros f. eapply kept_trans; [apply on_channel_kept | apply notify_kept]. }
    destruct i; done || apply H.
Qed.

(** Only [_getOrCreateCommPort] and the end of a request to the broker
    add to the trace of the registry. *)
Lemma step_kept s i :
  match i with
  | CallGetOrCreateCommPort _ _ | OpenCrossFramePortSettled _ _ => True
  | _ => Calls.kept s (step s i)
  end.
Proof.
  destruct i as [| hs | key | tab frame | call rejected | portName port | r i];
    cbn [step]; try done.
  - rewrite registerHandlers_frame. done.
  - assert (H : Calls.kept s (Nat.iter (onConnectListeners s) (_onConnect portName port) s)
                /\ Calls.same_self s
                     (Nat.iter (onConnectListeners s) (_onConnect portName port) s)).
    { induction (onConnectListeners s) as [|n IH]; [done|]. cbn [Nat.iter nat_rect].
      eapply kept_trans; [exact IH | apply onConnect_kept]. }
    apply H.
  - assert (H : forall f, Calls.kept s (notify r (on_channel r f s))).
    { intros f. eapply kept_trans; [apply on_channel_kept | apply notify_kept]. }
    destruct i; done || apply H.
Qed.

Lemma Numbered_step s i : Calls.Numbered s -> Calls.Numbered (step s i).
Proof.
  intros [Hsettled Hsuspended Hack Hresponse]. unfold Calls.settled in Hsettled.
  destruct (step_same_self s i) as (Ha & Hr & _).
  assert (Hkept : Calls.kept s (step s i) -> Calls.Numbered (step s i)).
  { intros (He & Hn & Hs). constructor; [| |congruence|congruence].
    - intros call Hle. unfold Calls.settled. rewrite He. apply Hsettled. lia.
    - intros call Hle. rewrite Hs. apply Hsuspended. lia. }
  pose proof (step_kept s i) as Hk.
  destruct i as [| hs | key | tab frame | call rejected | portName port | r i];
    try (by apply Hkept).
  - constructor; [| |congruence|congruence]; cbn [step] in *;
      unfold _getOrCreateCommPort; cbv zeta;
      match goal with |- context [registered tab frame ?s0] =>
        destruct (registered tab frame s0) end;
      intros call Hle; cbn in Hle |- *; unfold Calls.settled; cbn.
    + rewrite settled_in_app. rewrite (Hsettled call) by lia. cbn.
      rewrite decide_False by lia. done.
    + rewrite settled_in_app. rewrite (Hsettled call) by lia. done.
    + apply Hsuspended. lia.
    + rewrite lookup_insert_ne by lia. apply Hsuspended. lia.
  - cbn [step] in *. unfold _createCommPort_resume in *.
    destruct (suspended s !! call) as [[tab frame]|] eqn:Hcall;
      [|by constructor].
    assert (Hlt : call < nextCall s).
    { destruct (decide (call < nextCall s)) as [|Hge]; [done|].
      rewrite Hsuspended in Hcall by lia. done. }
    assert (Hgen : forall e,
      (forall c, nextCall s <= c -> Calls.settlement c e = None) ->
      Calls.Numbered (emit e (set_suspended (delete call (suspended s)) s))).
    { intros e He. constructor; [| |done|done].
      - intros c Hle. cbn in Hle. unfold Calls.settled. cbn. rewrite settled_in_app.
        rewrite (Hsettled c) by done. cbn. by rewrite He.
      - intros c Hle. cbn in Hle |- *. rewrite lookup_delete_ne by lia.
        by apply Hsuspended. }
    destruct rejected as [e|].
    + apply Hgen. intros c Hle. cbn. rewrite decide_False by lia. done.
    + cbv zeta.
      match goal with |- context [registered tab frame ?s0] =>
        destruct (registered tab frame s0) end;
        (apply Hgen; intros c Hle; cbn; rewrite decide_False by lia; done).
Qed.

Lemma Numbered_fresh : Calls.Numbered fresh.
Proof. constructor; done. Qed.

Lemma Tidy_self s s' :
  _commPorts (self s') = _commPorts (self s) ->
  channels s' = channels s ->
  nextChannel s' = nextChannel s ->
  Registry.Tidy s -> Registry.Tidy s'.
Proof.
  intros Hp Hc Hn [Hpruned Hreg Hch]. constructor.
  - intros tab tabPorts. rewrite Hp. apply Hpruned.
  - intros tab frame r. unfold registered. rewrite Hp, Hc. apply Hreg.
  - intros r ch. rewrite Hc, Hn. apply Hch.
Qed.

Lemma getOrCreate_registered tab frame r s :
  registered tab frame s = Some r ->
  _getOrCreateCommPort tab frame s
  = (nextCall s,
     mkStore (self s) (channels s) (nextChannel s) (onConnectListeners s) (suspended s)
       (nextCall s + 1) (events s ++ [EvReturned (nextCall s) r])).
Proof.
  intros Hr. unfold _getOrCreateCommPort, registered in *. cbn [self].
  destruct (_commPorts (self s) !! tab); [|done]. by rewrite Hr.
Qed.

Lemma getOrCreate_unregistered tab frame s :
  registered tab frame s = None ->
  _getOrCreateCommPort tab frame s
  = (nextCall s,
     mkStore (self s) (channels s) (nextChannel s) (onConnectListeners s)
       (<[nextCall s := AwaitOpenCrossFramePort tab frame]> (suspended s))
       (nextCall s + 1) (events s ++ [EvOpenCrossFramePort (nextCall s) tab frame])).
Proof.
  intros Hr. unfold _getOrCreateCommPort, registered in *. cbn [self].
  destruct (_commPorts (self s) !! tab); [|done]. by rewrite Hr.
Qed.

Lemma getOrCreate_step tab frame s :
  snd (_getOrCreateCommPort tab frame s) = step s (CallGetOrCreateCommPort tab frame).
Proof. done. Qed.

Lemma Sound_step x i : Calls.Sound x -> Calls.Sound (Calls.step x i).
Proof.
  intros [Htidy Hnum Hparked].
  assert (Hcall : forall target frame action params,
    Calls.Sound (snd (Calls.invokeTab target frame action params x))).
  { intros target frame action params. unfold Calls.invokeTab. cbv zeta.
    destruct (match target with Some t => Some t | None => _tabId (self (Calls.store x)) end)
      as [tab|].
    - destruct (_getOrCreateCommPort tab frame (Calls.store x)) as [call s] eqn:Hg.
      assert (Hs : s = step (Calls.store x) (CallGetOrCreateCommPort tab frame))
        by (by rewrite <- getOrCreate_step, Hg).
      constructor; cbn [snd Calls.store Calls.parked Calls.nextInvoke].
      + rewrite Hs. by apply Tidy_step.
      + rewrite Hs. by apply Numbered_step.
      + intros n Hle. rewrite lookup_insert_ne by lia. apply Hparked. lia.
    - constructor; cbn [snd Calls.store Calls.parked Calls.nextInvoke]; [done|done|].
      intros n Hle. apply Hparked. lia. }
  destruct i as [i | tabId frameId | | frame action params | target frame action params | n];
    cbn [Calls.step].
  - assert (Hi : Calls.Sound (Calls.set_store (step (Calls.store x) i) x)).
    { constructor; cbn; [by apply Tidy_step | by apply Numbered_step | done]. }
    destruct i; try exact Hi.
    constructor; cbn; [|by apply (Numbered_step _ CallPrepare)|done].
    by apply (Tidy_step _ CallPrepare).
  - unfold Calls.prepare_resume. destruct (Calls.preparing x); [done|].
    constructor; cbn [Calls.store Calls.parked Calls.nextInvoke]; [| |done].
    + by apply (Tidy_self (Calls.store x)).
    + destruct Hnum as [Hs Hsu Ha Hr]. by constructor.
  - done.
  - apply Hcall.
  - apply Hcall.
  - unfold Calls.invokeTab_resume. destruct (Calls.parked x !! n) as [p|]; [|done].
    destruct (Calls.settled _ _) as [[e|r]|]; [| |done].
    + constructor; cbn; [done|done|]. intros m Hle. apply lookup_delete_None.
      right. by apply Hparked.
    + destruct (channels (Calls.store x) !! r) as [ch|]; [|done]. cbv zeta.
      constructor; cbn [Calls.store Calls.parked Calls.nextInvoke].
      * by apply Tidy_step.
      * by apply Numbered_step.
      * intros m Hle. apply lookup_delete_None. right. by apply Hparked.
Qed.

Lemma Sound_run inputs x : Calls.Sound x -> Calls.Sound (Calls.run inputs x).
Proof.
  revert x. induction inputs as [|i inputs IH]; intros x Hx; [done|].
  apply IH. by apply Sound_step.
Qed.

Lemma Sound_fresh : Calls.Sound Calls.fresh.
Proof. constructor; [apply Tidy_fresh | apply Numbered_fresh | done]. Qed.

Lemma quiet_id h : notifications h = [] -> Registry.quiet h = h.
Proof. destruct h. cbn. by intros ->. Qed.

(** The rest of [invokeTab], when the channel has been given. *)
Lemma resume_follows n p r ch x :
  Calls.Sound x ->
  Calls.parked x !! n = Some p ->
  Calls.settled (Calls.call p) (Calls.store x) = Some (inr r) ->
  channels (Calls.store x) !! r = Some ch ->
  let w :=
    CrossFrameAPIPort.mkWorld (object ch) (handlers (Calls.store x)) (its ch) in
  let r' :=
    CrossFrameAPIPort.invoke (Calls.action p) (Calls.params p) (Some 3000) (Some 10000) w in
  Calls.invokeTab_resume n x
  = Calls.mkSession
      (set_channels
         (<[r := mkChannel (CrossFrameAPIPort.this (snd r')) (CrossFrameAPIPort.host (snd r'))]>
            (channels (Calls.store x)))
         (Calls.store x))
      (Calls.preparing x) (delete n (Calls.parked x)) (Calls.nextInvoke x)
      (Calls.outcomes x ++ [(n, Calls.Follows r (fst r'))]).
Proof.
  intros [[_ _ Hch] [_ _ Hack Hresponse] _] Hp Hs Hl w r'.
  destruct (Hch r ch Hl) as (_ & Hn & _).
  unfold Calls.invokeTab_resume. rewrite Hp, Hs, Hl. cbv zeta.
  rewrite Hack, Hresponse. fold (handlers (Calls.store x)). fold w. fold r'.
  f_equal. cbn [step].
  set (f := fun w => CrossFrameAPIPort.step w _).
  assert (Hstays : Wiring.stays w (f w)) by apply WiringFacts.same_stays, WiringFacts.same_invoke.
  rewrite (channel_stays r ch f (Calls.store x) Hl Hn Hstays).
  fold (handlers (Calls.store x)). fold w.
  change (f w) with (snd r'). rewrite quiet_id; [done|].
  destruct (WiringFacts.same_invoke (Calls.action p) (Calls.params p) (Some 3000)
              (Some 10000) w) as (_ & _ & Hn' & _).
  fold r' in Hn'. by rewrite Hn'.
Qed.


(** X17: [invokeTab] for a frame whose channel is registered asks the
    broker for nothing: when it goes on, it calls [invoke] on that
    channel with the timeouts of 3000 and 10000 milliseconds, and its
    promise follows the promise that [invoke] returns; the channel is
    left as [invoke] leaves it, and nothing else of the registry
    changes but its trace. *)
Theorem invokeTab_uses_registered_channel inputs tab frame r action params :
  let x := Calls.run inputs Calls.fresh in
  registered tab frame (Calls.store x) = Some r ->
  let n := Calls.nextInvoke x in
  let x' :=
    Calls.run [Calls.CallInvokeTab (Some tab) frame action params;
               Calls.CommPortSettled n] x in
  exists ch,
    channels (Calls.store x) !! r = Some ch /\
    let w :=
      CrossFrameAPIPort.mkWorld (object ch) (handlers (Calls.store x)) (its ch) in
    let r' := CrossFrameAPIPort.invoke action params (Some 3000) (Some 10000) w in
    Calls.outcomes x' = Calls.outcomes x ++ [(n, Calls.Follows r (fst r'))] /\
    channels (Calls.store x')
    = <[r := mkChannel (CrossFrameAPIPort.this (snd r')) (CrossFrameAPIPort.host (snd r'))]>
        (channels (Calls.store x)) /\
    events (Calls.store x')
    = events (Calls.store x) ++ [EvReturned (nextCall (Calls.store x)) r] /\
    self (Calls.store x') = self (Calls.store x) /\
    Calls.parked x' = Calls.parked x.
Proof.
  intros x Hreg n x'.
  assert (Hx : Calls.Sound x) by apply Sound_run, Sound_fresh.
  pose proof Hx as [[_ Hregistered _] [Hsettled _ _ _] Hparked].
  destruct (Hregistered tab frame r Hreg) as (ch & Hl & _).
  exists ch. split; [done|]. intros w r'.
  set (x1 := Calls.step x (Calls.CallInvokeTab (Some tab) frame action params)).
  assert (Hx1 : Calls.Sound x1) by by apply Sound_step.
  assert (Hx1' : x1 =
    Calls.mkSession
      (mkStore (self (Calls.store x)) (channels (Calls.store x))
         (nextChannel (Calls.store x)) (onConnectListeners (Calls.store x))
         (suspended (Calls.store x)) (nextCall (Calls.store x) + 1)
         (events (Calls.store x) ++ [EvReturned (nextCall (Calls.store x)) r]))
      (Calls.preparing x)
      (<[n := Calls.mkParked (nextCall (Calls.store x)) action params]> (Calls.parked x))
      (n + 1) (Calls.outcomes x)).
  { unfold x1. cbn [Calls.step]. unfold Calls.invokeTab. cbv zeta.
    by rewrite (getOrCreate_registered tab frame r (Calls.store x) Hreg). }
  assert (Hx' : x' = Calls.invokeTab_resume n x1) by done.
  rewrite Hx'.
  rewrite (resume_follows n (Calls.mkParked (nextCall (Calls.store x)) action params)
             r ch x1 Hx1).
  - rewrite Hx1'. cbn [Calls.outcomes Calls.store Calls.parked channels set_channels
                       events self Calls.action Calls.params].
    split; [done|]. split; [done|]. split; [done|]. split; [done|].
    apply delete_insert_id, Hparked. lia.
  - rewrite Hx1'. cbn [Calls.parked]. apply lookup_insert_eq.
  - rewrite Hx1'. unfold Calls.settled. cbn [Calls.store events Calls.call].
    rewrite settled_in_app. unfold Calls.settled in Hsettled.
    rewrite Hsettled by lia. cbn. by rewrite decide_True.
  - by rewrite Hx1'.
Qed.

(** X18: [invokeTab] for a frame that has no channel asks the broker
    for a port.  When the broker fails, the promise of [invokeTab] is
    rejected with what the broker threw; when the broker is done and no
    port for the frame has been accepted, it is rejected with the error
    of the port that did not open.  No channel is made or touched, and
    nothing stays parked or suspended. *)
Theorem invokeTab_without_port inputs tab frame action params rejected :
  let x := Calls.run inputs Calls.fresh in
  registered tab frame (Calls.store x) = None ->
  let n := Calls.nextInvoke x in
  let call := nextCall (Calls.store x) in
  let x' :=
    Calls.run [Calls.CallInvokeTab (Some tab) frame action params;
               Calls.OnRegistry (OpenCrossFramePortSettled call rejected);
               Calls.CommPortSettled n] x in
  let e := default (NewError "Comm port didn't open") rejected in
  Calls.outcomes x' = Calls.outcomes x ++ [(n, Calls.Threw e)] /\
  events (Calls.store x')
  = events (Calls.store x) ++ [EvOpenCrossFramePort call tab frame; EvThrew call e] /\
  channels (Calls.store x') = channels (Calls.store x) /\
  self (Calls.store x') = self (Calls.store x) /\
  suspended (Calls.store x') = suspended (Calls.store x) /\
  Calls.parked x' = Calls.parked x.
Proof.
  intros x Hreg n call x' e.
  assert (Hx : Calls.Sound x) by apply Sound_run, Sound_fresh.
  pose proof Hx as [_ [Hsettled Hsuspended _ _] Hparked].
  unfold Calls.settled in Hsettled.
  set (before :=
    [Calls.CallInvokeTab (Some tab) frame action params;
     Calls.OnRegistry (OpenCrossFramePortSettled call rejected)]).
  set (x2 := Calls.run before x).
  assert (Hx2 : x2 =
    Calls.mkSession
      (mkStore (self (Calls.store x)) (channels (Calls.store x))
         (nextChannel (Calls.store x)) (onConnectListeners (Calls.store x))
         (suspended (Calls.store x)) (call + 1)
         (events (Calls.store x) ++ [EvOpenCrossFramePort call tab frame; EvThrew call e]))
      (Calls.preparing x)
      (<[n := Calls.mkParked call action params]> (Calls.parked x))
      (n + 1) (Calls.outcomes x)).
  { unfold x2, before, Calls.run. cbn [fold_left]. cbn [Calls.step].
    unfold Calls.invokeTab. cbv zeta.
    rewrite (getOrCreate_unregistered tab frame (Calls.store x) Hreg). fold call. fold n.
    cbn [snd]. unfold Calls.set_store.
    cbn [Calls.store Calls.parked Calls.preparing Calls.nextInvoke Calls.outcomes step].
    rewrite (resume_eq call rejected tab frame) by apply lookup_insert_eq.
    cbn [self channels nextChannel onConnectListeners suspended nextCall events].
    rewrite delete_insert_id by (apply Hsuspended; lia).
    unfold outcome. rewrite (registered_self tab frame (Calls.store x)) by done.
    rewrite Hreg, <- app_assoc. subst e. by destruct rejected. }
  assert (Hx' : x' = Calls.invokeTab_resume n x2).
  { subst x' x2 before. unfold Calls.run. done. }
  rewrite Hx', Hx2. unfold Calls.invokeTab_resume.
  cbn [Calls.store Calls.parked Calls.preparing Calls.nextInvoke Calls.outcomes].
  rewrite lookup_insert_eq. unfold Calls.settled. cbn [Calls.call Calls.store events].
  rewrite settled_in_app, (Hsettled call) by lia.
  cbn [Calls.settled_in Calls.settlement]. rewrite decide_True by done.
  cbn [Calls.store Calls.parked Calls.preparing Calls.nextInvoke Calls.outcomes
       self channels suspended events].
  repeat (split; [done|]). apply delete_insert_id, Hparked. lia.
Qed.

(** X19: [invokeTab] for a frame that has no channel, when the broker
    opens a port for the frame before it is done: the port is accepted
    and makes a new channel, registered for the frame; [invokeTab] goes
    on with that channel, calls [invoke] on it with the timeouts of 3000
    and 10000 milliseconds, and follows its promise. *)
Theorem invokeTab_over_new_port inputs details port action params :
  let x := Calls.run inputs Calls.fresh in
  let tab := otherTabId details in
  let frame := otherFrameId details in
  registered tab frame (Calls.store x) = None ->
  onConnectListeners (Calls.store x) = 1%nat ->
  name details = "cross-frame-communication-port" ->
  let n := Calls.nextInvoke x in
  let call := nextCall (Calls.store x) in
  let r := nextChannel (Calls.store x) in
  let x' :=
    Calls.run [Calls.CallInvokeTab (Some tab) frame action params;
               Calls.OnRegistry (RuntimeConnect (Parsed details) port);
               Calls.OnRegistry (OpenCrossFramePortSettled call None);
               Calls.CommPortSettled n] x in
  let w :=
    CrossFrameAPIPort.mkWorld
      (CrossFrameAPIPort.mk tab frame (Some port) JsMap.empty 0
         [OnDisconnectListener; OnMessageListener] [RegistryOnDisconnect])
      (handlers (Calls.store x)) fresh_host in
  let r' := CrossFrameAPIPort.invoke action params (Some 3000) (Some 10000) w in
  Calls.outcomes x' = Calls.outcomes x ++ [(n, Calls.Follows r (fst r'))] /\
  registered tab frame (Calls.store x') = Some r /\
  channels (Calls.store x')
  = <[r := mkChannel (CrossFrameAPIPort.this (snd r')) (CrossFrameAPIPort.host (snd r'))]>
      (channels (Calls.store x)) /\
  events (Calls.store x')
  = events (Calls.store x) ++ [EvOpenCrossFramePort call tab frame; EvReturned call r] /\
  Calls.parked x' = Calls.parked x.
Proof.
  intros x tab frame Hreg Hone Hname n call r x' w r'.
  assert (Hx : Calls.Sound x) by apply Sound_run, Sound_fresh.
  pose proof Hx as [_ [Hsettled Hsuspended _ _] Hparked].
  unfold Calls.settled in Hsettled.
  set (before :=
    [Calls.CallInvokeTab (Some tab) frame action params;
     Calls.OnRegistry (RuntimeConnect (Parsed details) port);
     Calls.OnRegistry (OpenCrossFramePortSettled call None)]).
  set (x3 := Calls.run before x).
  assert (Hx3 : Calls.Sound x3) by by apply Sound_run.
  set (ch :=
    mkChannel
      (CrossFrameAPIPort.mk tab frame (Some port) JsMap.empty 0
         [OnDisconnectListener; OnMessageListener] [RegistryOnDisconnect])
      fresh_host).
  set (ports :=
    <[tab := <[frame := r]> (default ∅ (_commPorts (self (Calls.store x)) !! tab))]>
      (_commPorts (self (Calls.store x)))).
  assert (Hx3' : x3 =
    Calls.mkSession
      (mkStore
         (mk (_ackTimeout (self (Calls.store x))) (_responseTimeout (self (Calls.store x)))
            ports (_messageHandlers (self (Calls.store x)))
            (_tabId (self (Calls.store x))) (_frameId (self (Calls.store x))))
         (<[r := ch]> (channels (Calls.store x)))
         (r + 1) (onConnectListeners (Calls.store x))
         (suspended (Calls.store x)) (call + 1)
         (events (Calls.store x) ++ [EvOpenCrossFramePort call tab frame; EvReturned call r]))
      (Calls.preparing x)
      (<[n := Calls.mkParked call action params]> (Calls.parked x))
      (n + 1) (Calls.outcomes x)).
  { unfold x3, before, Calls.run. cbn [fold_left]. cbn [Calls.step].
    unfold Calls.invokeTab. cbv zeta.
    rewrite (getOrCreate_unregistered tab frame (Calls.store x) Hreg). fold call. fold n.
    cbn [snd]. unfold Calls.set_store.
    cbn [Calls.store Calls.parked Calls.preparing Calls.nextInvoke Calls.outcomes step
         onConnectListeners].
    rewrite Hone. cbn [Nat.iter nat_rect].
    rewrite (onConnect_accepts details port _ Hname), setupCommPort_eq.
    cbn [snd self channels nextChannel onConnectListeners suspended nextCall events
         _ackTimeout _responseTimeout _commPorts _messageHandlers _tabId _frameId].
    fold tab frame r ch ports.
    rewrite (resume_eq call None tab frame) by apply lookup_insert_eq.
    cbn [self channels nextChannel onConnectListeners suspended nextCall events].
    rewrite delete_insert_id by (apply Hsuspended; lia).
    unfold outcome.
    rewrite (registered_insert tab frame r tab frame _ (_commPorts (self (Calls.store x))))
      by done.
    rewrite decide_True by done. by rewrite <- app_assoc. }
  assert (Hx' : x' = Calls.invokeTab_resume n x3).
  { subst x' x3 before. unfold Calls.run. done. }
  rewrite Hx'.
  rewrite (resume_follows n (Calls.mkParked call action params) r ch x3 Hx3).
  - rewrite Hx3'. cbn [Calls.outcomes Calls.store Calls.parked channels set_channels
                       events self Calls.action Calls.params].
    split; [done|]. split.
    { rewrite (registered_insert tab frame r tab frame _
                 (_commPorts (self (Calls.store x)))) by done.
      by rewrite decide_True. }
    split; [apply insert_insert_eq|]. split; [done|].
    apply delete_insert_id, Hparked. lia.
  - rewrite Hx3'. cbn [Calls.parked]. apply lookup_insert_eq.
  - rewrite Hx3'. unfold Calls.settled. cbn [Calls.store events Calls.call].
    rewrite settled_in_app, (Hsettled call) by lia.
    cbn [Calls.settled_in Calls.settlement]. by rewrite decide_True.
  - rewrite Hx3'. cbn [Calls.store channels]. apply lookup_insert_eq.
Qed.

End Steps.


Lemma invokeTab_uses_registered_channel_witness :
  let x :=
    Calls.run (EC := Sample.codec)
      [Calls.OnRegistry CallPrepare;
       Calls.OnRegistry (RuntimeConnect Sample.name Sample.port)]
      Calls.fresh in
  let n := Calls.nextInvoke x in
  let x' :=
    Calls.run (EC := Sample.codec)
      [Calls.CallInvokeTab (Some 1) 2 "ping" JNull; Calls.CommPortSettled n] x in
  exists ch,
    channels (Calls.store x) !! 0 = Some ch /\
    let w :=
      CrossFrameAPIPort.mkWorld (object ch) (handlers (Calls.store x)) (its ch) in
    let r' := CrossFrameAPIPort.invoke "ping" JNull (Some 3000) (Some 10000) w in
    Calls.outcomes x' = Calls.outcomes x ++ [(n, Calls.Follows 0 (fst r'))] /\
    channels (Calls.store x')
    = <[0 := mkChannel (CrossFrameAPIPort.this (snd r')) (CrossFrameAPIPort.host (snd r'))]>
        (channels (Calls.store x)) /\
    events (Calls.store x')
    = events (Calls.store x) ++ [EvReturned (nextCall (Calls.store x)) 0] /\
    self (Calls.store x') = self (Calls.store x) /\
    Calls.parked x' = Calls.parked x.
Proof.
  apply (invokeTab_uses_registered_channel (EC := Sample.codec)
           [Calls.OnRegistry CallPrepare;
            Calls.OnRegistry (RuntimeConnect Sample.name Sample.port)]
           1 2 0 "ping" JNull).
  vm_compute; reflexivity.
Defined.

Lemma invokeTab_without_port_witness :
  let x := Calls.run (EC := Sample.codec) [Calls.OnRegistry CallPrepare] Calls.fresh in
  let n := Calls.nextInvoke x in
  let call := nextCall (Calls.store x) in
  let x' :=
    Calls.run (EC := Sample.codec)
      [Calls.CallInvokeTab (Some 1) 2 "ping" JNull;
       Calls.OnRegistry (OpenCrossFramePortSettled call None);
       Calls.CommPortSettled n] x in
  let e := default (NewError "Comm port didn't open") None in
  Calls.outcomes x' = Calls.outcomes x ++ [(n, Calls.Threw e)] /\
  events (Calls.store x')
  = events (Calls.store x) ++ [EvOpenCrossFramePort call 1 2; EvThrew call e] /\
  channels (Calls.store x') = channels (Calls.store x) /\
  self (Calls.store x') = self (Calls.store x) /\
  suspended (Calls.store x') = suspended (Calls.store x) /\
  Calls.parked x' = Calls.parked x.
Proof.
  apply (invokeTab_without_port (EC := Sample.codec) [Calls.OnRegistry CallPrepare]
           1 2 "ping" JNull None).
  reflexivity.
Defined.

Lemma invokeTab_over_new_port_witness :
  let x := Calls.run (EC := Sample.codec) [Calls.OnRegistry CallPrepare] Calls.fresh in
  let x' :=
    Calls.run (EC := Sample.codec)
      [Calls.CallInvokeTab (Some 1) 2 "ping" JNull;
       Calls.OnRegistry (RuntimeConnect Sample.name Sample.port);
       Calls.OnRegistry (OpenCrossFramePortSettled 0 None);
       Calls.CommPortSettled 0] x in
  Calls.outcomes x' = [(0, Calls.Follows 0 0)] /\
  registered 1 2 (Calls.store x') = Some 0 /\
  events (Calls.store x') = [EvOpenCrossFramePort 0 1 2; EvReturned 0 0].
Proof.
  destruct (invokeTab_over_new_port (EC := Sample.codec) [Calls.OnRegistry CallPrepare]
              (mkDetails "cross-frame-communication-port" 1 2) Sample.port "ping" JNull)
    as (Hout & Hreg & _ & Hev & _); [reflexivity | reflexivity | reflexivity |].
  split; [exact Hout|]. split; [exact Hreg | exact Hev].
Defined.

End CallFacts.

(** ** Calls of [_getOrCreateCommPort] that wait at the same time *)
Module CreationFacts.
Import CrossFrameAPI RegistryInvariant CallFacts.

Section Steps.
Context {EC : ErrorCodec}.




End Steps.


End CreationFacts.

(** ** A request and its response, from end to end *)
Module RoundTrip.
Import JsMapFacts CrossFrameAPIPort EffectFacts.

Section Ends.
Context {EC : ErrorCodec}.

(** What [invoke] leaves behind when the timer is armed and the message
    is accepted. *)
Lemma invoke_sends action params ackTimeout responseTimeout port w :
  _port (this w) = Some port ->
  setTimeout_throws (host w) = false ->
  postMessage_throws port (InvokeMessage (_invocationId (this w)) action params)
  = None ->
  let id := _invocationId (this w) in
  let h := nextTimer (host w) in
  let r := invoke action params (Some ackTimeout) (Some responseTimeout) w in
  fst r = nextPromise (host w) /\
  table (snd r)
  = JsMap.alter (Invocation.with_timer (Some h)) id
      (JsMap.set id
         (Invocation.mk id (nextPromise (host w)) (Some responseTimeout) action false None)
         (table w)) /\
  trace (host (snd r))
  = trace (host w)
      ++ [EvSetTimeout h (OnErrorCallback id "Acknowledgement timeout") ackTimeout;
          EvPostMessage (InvokeMessage id action params) None] /\
  timers (host (snd r))
  = <[h := OnErrorCallback id "Acknowledgement timeout"]> (timers (host w)) /\
  nextTimer (host (snd r)) = h + 1 /\
  setTimeout_throws (host (snd r)) = false.
Proof.
  intros Hport Hok Hpost id h r.
  eassert (E : invoke action params (Some ackTimeout) (Some responseTimeout) w = _).
  { unfold invoke, newPromise, setTimeout, postMessage. expose.
    rewrite Hport. cbv zeta. expose. rewrite Hok. expose. rewrite Hpost.
    expose. reflexivity. }
  subst r. rewrite E. expose. rewrite <- app_assoc. by rewrite ?Hok.
Qed.

(** What the first acknowledgement leaves behind when the timer of the
    response is armed. *)
Lemma onAck_arms id invocation h0 rt w :
  JsMap.get id (table w) = Some invocation ->
  Invocation.ack invocation = false ->
  Invocation.timer invocation = Some h0 ->
  Invocation.responseTimeout invocation = Some rt ->
  setTimeout_throws (host w) = false ->
  let h := nextTimer (host w) in
  let w' := _onAck id w in
  table w'
  = JsMap.alter (Invocation.with_timer (Some h)) id
      (JsMap.alter (Invocation.with_timer None) id
         (JsMap.alter (Invocation.with_ack true) id (table w))) /\
  trace (host w')
  = trace (host w)
      ++ [EvClearTimeout h0; EvSetTimeout h (OnErrorCallback id "Response timeout") rt] /\
  timers (host w')
  = <[h := OnErrorCallback id "Response timeout"]> (delete h0 (timers (host w))).
Proof.
  intros Hget Hack Htimer Hrt Hok h w'.
  eassert (E : _onAck id w = _).
  { unfold _onAck, setTimeout. unfold table in Hget. rewrite Hget, Hack, Htimer, Hrt.
    expose. rewrite Hok. expose. reflexivity. }
  subst w'. rewrite E. expose. by rewrite <- app_assoc.
Qed.

(** What the result of an acknowledged invocation leaves behind. *)
Lemma onResult_settles id data invocation h1 w :
  JsMap.get id (table w) = Some invocation ->
  Invocation.ack invocation = true ->
  Invocation.timer invocation = Some h1 ->
  let w' := _onResult id data w in
  table w' = JsMap.delete id (table w) /\
  trace (host w')
  = trace (host w)
      ++ [EvClearTimeout h1;
          match error data with
          | Some e => EvReject (Invocation.promise invocation) (deserialize e)
          | None => EvResolve (Invocation.promise invocation) (result data)
          end] /\
  timers (host w') = delete h1 (timers (host w)).
Proof.
  intros Hget Hack Htimer w'.
  eassert (E : _onResult id data w = _).
  { unfold _onResult. unfold table in Hget. rewrite Hget, Hack, Htimer.
    cbn [negb]. reflexivity. }
  subst w'. rewrite E. destruct (error data); expose; by rewrite <- app_assoc.
Qed.

(** X20: a request from end to end.  A channel that holds its port
    invokes an action; the channel at the other end of the port has a
    handler for the action, which answers at once; the ports accept the
    messages.  Then the request is the one message [invoke]; the other
    end answers with the acknowledgement and then the result; and when
    the caller has handled both, the promise of [invoke] is settled
    with the result of the handler, or rejected with its error, both
    timers have been armed and cleared in turn, and the table and the
    timers of the caller are as they were before the call. *)
Theorem request_round_trip
    action params ackTimeout responseTimeout portA portB (handler : MessageHandler) data
    wA wB :
  _port (this wA) = Some portA ->
  setTimeout_throws (host wA) = false ->
  JsMap.get (_invocationId (this wA)) (table wA) = None ->
  (forall h, nextTimer (host wA) <= h -> timers (host wA) !! h = None) ->
  _port (this wB) = Some portB ->
  _messageHandlers wB !! action = Some handler ->
  handler params = Completed data ->
  let id := _invocationId (this wA) in
  postMessage_throws portA (InvokeMessage id action params) = None ->
  postMessage_throws portB (AckMessage id) = None ->
  postMessage_throws portB (ResultMessage id data) = None ->
  let p := fst (invoke action params (Some ackTimeout) (Some responseTimeout) wA) in
  let wA1 := snd (invoke action params (Some ackTimeout) (Some responseTimeout) wA) in
  let wB1 := Link.receive (Link.since wA wA1) wB in
  let wA2 := Link.receive (Link.since wB wB1) wA1 in
  let h := nextTimer (host wA) in
  Link.since wA wA1 = [InvokeMessage id action params] /\
  Link.since wB wB1 = [AckMessage id; ResultMessage id data] /\
  trace (host wA2)
  = trace (host wA)
      ++ [EvSetTimeout h (OnErrorCallback id "Acknowledgement timeout") ackTimeout;
          EvPostMessage (InvokeMessage id action params) None;
          EvClearTimeout h;
          EvSetTimeout (h + 1) (OnErrorCallback id "Response timeout") responseTimeout;
          EvClearTimeout (h + 1);
          match error data with
          | Some e => EvReject p (deserialize e)
          | None => EvResolve p (result data)
          end] /\
  (forall id', JsMap.get id' (table wA2) = JsMap.get id' (table wA)) /\
  timers (host wA2) = timers (host wA).
Proof.
  intros HportA Hok Hfree Htimers HportB Hhandler Hdone id HpostA Hack Hresult
    p wA1 wB1 wA2 h.
  destruct (invoke_sends action params ackTimeout responseTimeout portA wA HportA Hok HpostA)
    as (Hp & Htable1 & Htrace1 & Htimers1 & Hnext1 & Hok1).
  fold id p wA1 h in Hp, Htable1, Htrace1, Htimers1, Hnext1, Hok1.
  clearbody p wA1. subst p.
  assert (Hrequest : Link.since wA wA1 = [InvokeMessage id action params]).
  { unfold Link.since. by rewrite Htrace1, drop_app_length. }
  assert (EB1 : wB1 = snd (_onInvoke id action params wB)).
  { unfold wB1. by rewrite Hrequest. }
  assert (Hresponse : Link.since wB wB1 = [AckMessage id; ResultMessage id data]).
  { rewrite EB1. unfold Link.since.
    pose proof (TableFacts.onInvoke_says id action params portB wB HportB) as Hsays.
    cbv zeta in Hsays. rewrite Hsays, drop_app_length, Hhandler.
    cbn [Reply.answer fst snd]. rewrite Hdone.
    cbn [app map Link.delivered flat_map]. by rewrite Hack, Hresult. }
  assert (EA2 : wA2 = _onResult id data (_onAck id wA1)).
  { unfold wA2. by rewrite Hresponse. }
  clearbody wA2 wB1. subst wA2.
  split; [done|]. split; [done|].
  set (inv0 :=
    Invocation.mk id (nextPromise (host wA)) (Some responseTimeout) action false None)
    in Htable1.
  assert (Hget1 : JsMap.get id (table wA1) = Some (Invocation.with_timer (Some h) inv0)).
  { by rewrite Htable1, get_alter_eq, get_set_eq. }
  destruct (onAck_arms id _ h responseTimeout wA1 Hget1 eq_refl eq_refl eq_refl Hok1)
    as (Htable2 & Htrace2 & Htimers2).
  rewrite Hnext1 in Htable2, Htrace2, Htimers2.
  set (wA2 := _onAck id wA1) in *.
  set (inv2 :=
    Invocation.with_timer (Some (h + 1))
      (Invocation.with_timer None
         (Invocation.with_ack true (Invocation.with_timer (Some h) inv0)))).
  assert (Hget2 : JsMap.get id (table wA2) = Some inv2).
  { by rewrite Htable2, !get_alter_eq, Hget1. }
  destruct (onResult_settles id data inv2 (h + 1) wA2 Hget2 eq_refl eq_refl)
    as (Htable3 & Htrace3 & Htimers3).
  split; [|split].
  - rewrite Htrace3, Htrace2, Htrace1, <- !app_assoc. done.
  - intros id'. rewrite Htable3, Htable2, Htable1.
    destruct (decide (id' = id)) as [->|Hne].
    + rewrite get_delete_eq. symmetry. exact Hfree.
    + rewrite get_delete_ne by done. repeat (rewrite get_alter_ne by done).
      by apply get_set_ne.
  - rewrite Htimers3, Htimers2, Htimers1.
    rewrite (delete_insert_id (timers (host wA)) h) by (apply Htimers; lia).
    apply delete_insert_id, Htimers. lia.
Qed.

End Ends.
Lemma request_round_trip_witness :
  let wA1 := snd (invoke "ping" JNull (Some 3000) (Some 10000) Sample.channel) in
  let wB1 :=
    Link.receive (EC := Sample.codec) (Link.since Sample.channel wA1) Sample.channel in
  let wA2 := Link.receive (EC := Sample.codec) (Link.since Sample.channel wB1) wA1 in
  Link.since Sample.channel wB1 = [AckMessage 0; ResultMessage 0 Sample.pong] /\
  trace (host wA2)
  = [EvSetTimeout 1 (OnErrorCallback 0 "Acknowledgement timeout") 3000;
     EvPostMessage (InvokeMessage 0 "ping" JNull) None;
     EvClearTimeout 1;
     EvSetTimeout 2 (OnErrorCallback 0 "Response timeout") 10000;
     EvClearTimeout 2;
     EvResolve 0 (Some (JStr "pong"))].
Proof.
  destruct (request_round_trip (EC := Sample.codec) "ping" JNull 3000 10000
              Sample.port Sample.port Sample.ping Sample.pong
              Sample.channel Sample.channel)
    as (_ & Hresponse & Htrace & _);
    [reflexivity | reflexivity | reflexivity | intros h _; reflexivity
    | reflexivity | reflexivity | reflexivity | reflexivity | reflexivity | reflexivity |].
  split; [exact Hresponse | exact Htrace].
Defined.

End RoundTrip.

(** ** Scenarios *)
Module Scenarios.
Import CrossFrameAPIPort.

(** The caller invokes "ping"; the peer acknowledges and answers "pong":
    the promise is resolved with "pong", both timers are cleared before
    they expire, and a second result for the same id is only logged. *)
Example ping_pong :
  trace (host (run (EC := Sample.codec)
                 [CallInvoke "ping" JNull (Some 100) (Some 200);
                  PortMessage (AckMessage 0);
                  PortMessage (ResultMessage 0 Sample.pong);
                  PortMessage (ResultMessage 0 Sample.pong)]
                 Sample.channel))
  = [EvSetTimeout 1 (OnErrorCallback 0 "Acknowledgement timeout") 100;
     EvPostMessage (InvokeMessage 0 "ping" JNull) None;
     EvClearTimeout 1;
     EvSetTimeout 2 (OnErrorCallback 0 "Response timeout") 200;
     EvClearTimeout 2;
     EvResolve 0 (Some (JStr "pong"));
     EvLogWarn (NewError "Request 0 not found")].
Proof. vm_compute. reflexivity. Qed.

(** The peer never acknowledges: the timer of the acknowledgement
    expires and the promise is rejected. *)
Example never_acknowledged :
  trace (host (run (EC := Sample.codec)
                 [CallInvoke "slow" JNull (Some 100) None; TimerFired 1]
                 Sample.channel))
  = [EvSetTimeout 1 (OnErrorCallback 0 "Acknowledgement timeout") 100;
     EvPostMessage (InvokeMessage 0 "slow" JNull) None;
     EvClearTimeout 1;
     EvReject 0 (NewError "Acknowledgement timeout (slow)")].
Proof. vm_compute. reflexivity. Qed.

(** The peer acknowledges and never answers: the timer of the response
    expires and the promise is rejected. *)
Example never_answered :
  trace (host (run (EC := Sample.codec)
                 [CallInvoke "x" JNull None (Some 50);
                  PortMessage (AckMessage 0);
                  TimerFired 1]
                 Sample.channel))
  = [EvPostMessage (InvokeMessage 0 "x" JNull) None;
     EvSetTimeout 1 (OnErrorCallback 0 "Response timeout") 50;
     EvClearTimeout 1;
     EvReject 0 (NewError "Response timeout (x)")].
Proof. vm_compute. reflexivity. Qed.

(** An incoming invocation of a registered action, and one of an action
    that is not registered. *)
Example served :
  trace (host (run (EC := Sample.codec)
                 [PortMessage (InvokeMessage 7 "ping" JNull);
                  PortMessage (InvokeMessage 8 "nope" JNull)]
                 Sample.channel))
  = [EvHandlerLookup "ping";
     EvPostMessage (AckMessage 7) None;
     EvHandlerCall JNull (Completed Sample.pong);
     EvPostMessage (ResultMessage 7 Sample.pong) None;
     EvHandlerLookup "nope";
     EvPostMessage (AckMessage 8) None;
     EvPostMessage
       (ResultMessage 8 (mkResponse None (Some (JStr "Unknown action: nope")))) None].
Proof. vm_compute. reflexivity. Qed.

(** A channel with two invocations under way is disconnected, from its
    own side and then by the port. *)
Example disconnected_twice :
  trace (host (run (EC := Sample.codec) [CallDisconnect; PortDisconnected] Sample.busy))
  = trace (host Sample.busy)
      ++ [EvClearTimeout 3; EvReject 0 (NewError "Disconnected (a)");
          EvClearTimeout 2; EvReject 1 (NewError "Disconnected (b)");
          EvTrigger [RegistryOnDisconnect]].
Proof. vm_compute. reflexivity. Qed.

(** The channel that the race has left unregistered is disconnected: the
    registry removes the entry of its tab and frame, which is the entry
    of the other channel. *)
Example orphan_disconnected :
  let s := CrossFrameAPI.run (EC := Sample.codec)
             (Sample.race ++ [CrossFrameAPI.OnChannel 0 CallDisconnect])
             CrossFrameAPI.fresh in
  CrossFrameAPI.live 0 s = false /\
  CrossFrameAPI.live 1 s = true /\
  CrossFrameAPI.registered 1 2 s = None.
Proof. vm_compute. done. Qed.

(** Two calls wait for the same frame and the registered channel is
    disconnected between their resumptions: the first call returns the
    channel, the second finds nothing registered and throws. *)
Example disconnected_between :
  CrossFrameAPI.events
    (CrossFrameAPI.run (EC := Sample.codec)
       [CrossFrameAPI.OpenCrossFramePortSettled 0 None;
        CrossFrameAPI.OnChannel 1 CallDisconnect;
        CrossFrameAPI.OpenCrossFramePortSettled 1 None]
       Sample.waiting)
  = CrossFrameAPI.events Sample.waiting
      ++ [CrossFrameAPI.EvReturned 0 1;
          CrossFrameAPI.EvThrew 1 (NewError "Comm port didn't open")].
Proof. vm_compute. reflexivity. Qed.

(** A result without its data reaches an acknowledged invocation: the
    timer of the response is cleared and nothing is settled; a result
    that comes afterwards finds no invocation. *)
Example result_without_data :
  trace (host (run (EC := Sample.codec)
                 [CallInvoke "ping" JNull (Some 100) (Some 200);
                  PortMessage (AckMessage 0);
                  PortMessage (BareResultMessage 0);
                  PortMessage (ResultMessage 0 Sample.pong)]
                 Sample.channel))
  = [EvSetTimeout 1 (OnErrorCallback 0 "Acknowledgement timeout") 100;
     EvPostMessage (InvokeMessage 0 "ping" JNull) None;
     EvClearTimeout 1;
     EvSetTimeout 2 (OnErrorCallback 0 "Response timeout") 200;
     EvClearTimeout 2;
     EvUncaughtTypeError;
     EvLogWarn (NewError "Request 0 not found")].
Proof. vm_compute. reflexivity. Qed.

End Scenarios.
